(** * Smart-store recommendation engine: FP-Growth, association rules, matcher

    A shallow embedding of [fp_growth_engine.py] and of
    [RecommendationEngine.recommend] from [recommender.py].

    Conventions of the embedding:
    - a Python [str] is a [string] (its UTF-8 bytes; byte-wise lexicographic
      order is code-point order);
    - a Python [int] that only counts is a [nat], other ints are [Z];
    - a Python [float] is an exact rational [Q]; the one place where the
      source produces [float("inf")] uses the type [float] below, which adds
      that value.  Rounding errors of binary floating point are not modelled;
    - a [dict] whose iteration order matters is an association list in
      insertion order ([dict_get], [dict_set]); a [frozenset] of items is a
      [gset string]; a dict keyed by frozensets that is only looked up is a
      [gmap];
    - the nodes of an FP-tree live in a heap ([list FPNode]); a reference to a
      node is its address (index) in that heap, so that the child maps, the
      parent pointers and the header chains all alias the same nodes;
    - an unbounded [while] loop over pointers takes fuel and returns [None]
      when the fuel is exhausted or a pointer dangles; the theorems show that
      this never happens. *)

From Stdlib Require Import QArith Qround Lqa String Ascii.
From stdpp Require Import gmap strings list fin_maps sorting.

Local Open Scope string_scope.
Local Open Scope nat_scope.
Local Open Scope list_scope.

(** ** Python values *)

(** An insertion-ordered [dict]. *)
Section dict.
Context {K V : Type} `{EqDecision K}.

Fixpoint dict_get (k : K) (d : list (K * V)) : option V :=
  match d with
  | [] => None
  | (k', v) :: d' => if decide (k = k') then Some v else dict_get k d'
  end.

(** [d[k] = v]: replaces the value in place, or appends a new entry. *)
Fixpoint dict_set (k : K) (v : V) (d : list (K * V)) : list (K * V) :=
  match d with
  | [] => [(k, v)]
  | (k', v') :: d' =>
      if decide (k = k') then (k, v) :: d' else (k', v') :: dict_set k v d'
  end.
End dict.

(** A float: a rational or [float("inf")]. *)
Inductive float := finite (q : Q) | inf.

(** [round(x)] to an integer, ties to even. *)
Definition round_half_even (q : Q) : Z :=
  let f := Qfloor q in
  match (q - inject_Z f ?= 1 # 2)%Q with
  | Lt => f
  | Gt => (f + 1)%Z
  | Eq => if Z.even f then f else (f + 1)%Z
  end.

(** [round(x, ndigits)] on a finite float. *)
Definition py_round (x : Q) (ndigits : nat) : Q :=
  let scale := (10 ^ Z.of_nat ndigits)%Z in
  Qred (round_half_even (x * inject_Z scale) # Z.to_pos scale).

(** [round(x, ndigits)] on any float: infinity stays infinity. *)
Definition float_round (x : float) (ndigits : nat) : float :=
  match x with
  | finite q => finite (py_round q ndigits)
  | inf => inf
  end.

(** [min(x, y)] of two floats: [y] if [y < x], else [x]. *)
Definition float_min (x y : float) : float :=
  match x, y with
  | finite a, finite b => if Qlt_le_dec b a then finite b else finite a
  | inf, finite b => finite b
  | _, inf => x
  end.

(** [int(x)]: truncation towards zero. *)
Definition py_int (x : Q) : Z :=
  if Qlt_le_dec x 0 then Qceiling x else Qfloor x.

(** [sorted(l, key=...)] and [list.sort]: a stable insertion sort.  [le a b]
  says that the key of [a] is at most the key of [b]; an element is put in
  front of the first element that is not strictly before it, so elements
  with equal keys keep their order. *)
Section stable_sort.
Context {A : Type} (le : A → A → bool).

Fixpoint sorted_insert (x : A) (l : list A) : list A :=
  match l with
  | [] => [x]
  | y :: l' => if le x y then x :: y :: l' else y :: sorted_insert x l'
  end.

Definition sorted (l : list A) : list A := foldr sorted_insert [] l.
End stable_sort.

(** [itertools.combinations(l, r)], in the order itertools yields them. *)
Fixpoint combinations {A : Type} (l : list A) (r : nat) : list (list A) :=
  match r, l with
  | O, _ => [[]]
  | S _, [] => []
  | S r', x :: t => map (cons x) (combinations t r') ++ combinations t r
  end.

(** [sep.join(l)] *)
Fixpoint join (sep : string) (l : list string) : string :=
  match l with
  | [] => ""
  | [s] => s
  | s :: l' => String.append s (String.append sep (join sep l'))
  end.

(** ** fp_growth_engine.py: the FP-tree *)

(** [class FPNode].  [parent], [link] and the values of [children] are
    addresses in the heap of the tree; the root has [item = None]. *)
Record FPNode := mkFPNode {
  item : option string;
  count : nat;
  parent : option nat;
  children : list (string * nat);
  link : option nat;
}.

Definition increment (nd : FPNode) : FPNode :=
  mkFPNode (item nd) (count nd + 1) (parent nd) (children nd) (link nd).

Definition set_children (ch : list (string * nat)) (nd : FPNode) : FPNode :=
  mkFPNode (item nd) (count nd) (parent nd) ch (link nd).

Definition set_link (l : option nat) (nd : FPNode) : FPNode :=
  mkFPNode (item nd) (count nd) (parent nd) (children nd) l.

(** [class FPTree]: the heap of its nodes, the header table (item to the
    first node of its chain) and the frequency table of [_build]. *)
Record FPTree := mkFPTree {
  heap : list FPNode;
  header : list (string * nat);
  freq : list (string * nat);
}.

(** [self.root]: the root is the first node allocated. *)
Definition root : nat := 0.

(** [FPNode(root_value)] with [root_count = 0], and empty tables. *)
Definition empty_tree : FPTree :=
  mkFPTree [mkFPNode None 0 None [] None] [] [].

(** [while current.link: current = current.link] *)
Fixpoint chain_last (fuel : nat) (h : list FPNode) (current : nat) : option nat :=
  match fuel with
  | O => None
  | S fuel' =>
      nd ← h !! current;
      match link nd with
      | Some next => chain_last fuel' h next
      | None => Some current
      end
  end.

(** One round of the loop of [_insert]: returns the tree and
    [node.children[item]]. *)
Definition insert_item (t : FPTree) (node : nat) (it : string) : option (FPTree * nat) :=
  nd ← heap t !! node;
  match dict_get it (children nd) with
  | Some c =>
      cn ← heap t !! c;
      Some (mkFPTree (<[c := increment cn]> (heap t)) (header t) (freq t), c)
  | None =>
      let new_node := length (heap t) in
      let h1 :=
        <[node := set_children (dict_set it new_node (children nd)) nd]> (heap t)
          ++ [mkFPNode (Some it) 1 (Some node) [] None] in
      match dict_get it (header t) with
      | None =>
          Some (mkFPTree h1 (dict_set it new_node (header t)) (freq t), new_node)
      | Some first =>
          current ← chain_last (length h1) h1 first;
          cn ← h1 !! current;
          Some (mkFPTree (<[current := set_link (Some new_node) cn]> h1)
                         (header t) (freq t), new_node)
      end
  end.

Fixpoint insert_from (t : FPTree) (node : nat) (items : list string) : option FPTree :=
  match items with
  | [] => Some t
  | it :: items' =>
      '(t', node') ← insert_item t node it;
      insert_from t' node' items'
  end.

Definition _insert (t : FPTree) (items : list string) : option FPTree :=
  insert_from t root items.

(** Step 1 of [_build]: [freq[item] += 1] on a [defaultdict(int)]. *)
Definition count_item (fr : list (string * nat)) (it : string) : list (string * nat) :=
  dict_set it (default 0 (dict_get it fr) + 1) fr.

Definition count_frequencies (transactions : list (list string)) : list (string * nat) :=
  foldl (foldl count_item) [] transactions.

(** The sort key [(-self.freq[x], x)]: [key_le fr x y] iff key x <= key y.
    The lookup cannot fail, every sorted item is in [self.freq]. *)
Definition key_le (fr : list (string * nat)) (x y : string) : bool :=
  let fx := default 0 (dict_get x fr) in
  let fy := default 0 (dict_get y fr) in
  if fy <? fx then true else if fx <? fy then false else String.leb x y.

Definition filter_and_sort (fr : list (string * nat)) (transaction : list string) : list string :=
  sorted (key_le fr) (filter (λ it, is_Some (dict_get it fr)) transaction).

Fixpoint build_loop (t : FPTree) (transactions : list (list string)) : option FPTree :=
  match transactions with
  | [] => Some t
  | transaction :: rest =>
      let filtered := filter_and_sort (freq t) transaction in
      t' ← (if filtered is [] then Some t else _insert t filtered);
      build_loop t' rest
  end.

Definition _build (t : FPTree) (transactions : list (list string)) (min_support : nat)
    : option FPTree :=
  let fr := count_frequencies transactions in
  build_loop
    (mkFPTree (heap t) (header t) (filter (λ kv, min_support ≤ kv.2) fr))
    transactions.

(** [FPTree(transactions, min_support)] *)
Definition new_FPTree (transactions : list (list string)) (min_support : nat)
    : option FPTree :=
  _build empty_tree transactions min_support.

Definition is_empty (t : FPTree) : option bool :=
  r ← heap t !! root;
  Some (bool_decide (length (children r) = 0)).

(** [while parent.item is not None: prefix.append(parent.item); ...] *)
Fixpoint walk_up (fuel : nat) (h : list FPNode) (p : nat) : option (list string) :=
  match fuel with
  | O => None
  | S fuel' =>
      pn ← h !! p;
      match item pn with
      | None => Some []
      | Some it =>
          pp ← parent pn;
          rest ← walk_up fuel' h pp;
          Some (it :: rest)
      end
  end.

(** The outer loop of [conditional_pattern_base], [while node: ...]. *)
Fixpoint pattern_loop (fuel : nat) (h : list FPNode) (node : option nat)
    : option (list (list string * nat)) :=
  match node with
  | None => Some []
  | Some a =>
      match fuel with
      | O => None
      | S fuel' =>
          nd ← h !! a;
          pp ← parent nd;
          pre ← walk_up (length h) h pp;
          rest ← pattern_loop fuel' h (link nd);
          Some (if pre is [] then rest else (rev pre, count nd) :: rest)
      end
  end.

Definition conditional_pattern_base (t : FPTree) (it : string)
    : option (list (list string * nat)) :=
  pattern_loop (length (heap t)) (heap t) (dict_get it (header t)).

(** ** fp_growth_engine.py: mining *)

(** [while n: support += n.count; n = n.link] *)
Fixpoint chain_support (fuel : nat) (h : list FPNode) (n : option nat) : option nat :=
  match n with
  | None => Some 0
  | Some a =>
      match fuel with
      | O => None
      | S fuel' =>
          nd ← h !! a;
          rest ← chain_support fuel' h (link nd);
          Some (count nd + rest)
      end
  end.

(** [cond_transactions.extend([pattern] * count)] for every pattern. *)
Definition expand_patterns (cond_patterns : list (list string * nat)) : list (list string) :=
  flat_map (λ pc, replicate pc.2 pc.1) cond_patterns.

(** The items of the header table in the order of the [for] loop:
    [sorted(tree.header.items(), key=lambda x: tree.freq.get(x[0], 0))]. *)
Definition header_order (tree : FPTree) : list (string * nat) :=
  sorted (λ a b, default 0 (dict_get a.1 (freq tree))
                   <=? default 0 (dict_get b.1 (freq tree)))
         (header tree).

(** A [for] loop whose rounds each append a list of results, or fail. *)
Fixpoint for_extend {A B : Type} (body : A → option (list B)) (l : list A)
    : option (list B) :=
  match l with
  | [] => Some []
  | x :: l' =>
      r ← body x;
      rest ← for_extend body l';
      Some (r ++ rest)
  end.

(** The end of the body of the [for] loop of [fpgrowth_mine]: build the
    conditional tree and mine it; [recurse] is the recursive call. *)
Definition mine_conditional
    (recurse : FPTree → gset string → option (list (gset string * nat)))
    (min_support : nat) (new_itemset : gset string)
    (cond_transactions : list (list string)) : option (list (gset string * nat)) :=
  match cond_transactions with
  | [] => Some []
  | _ :: _ =>
      cond_tree ← new_FPTree cond_transactions min_support;
      emp ← is_empty cond_tree;
      if emp : bool then Some [] else recurse cond_tree new_itemset
  end.

(** The body of the [for] loop of [fpgrowth_mine] for one header entry
    [(item, node)]. *)
Definition mine_item
    (recurse : FPTree → gset string → option (list (gset string * nat)))
    (tree : FPTree) (min_support : nat) (prefix : gset string)
    (entry : string * nat) : option (list (gset string * nat)) :=
  let new_itemset := prefix ∪ {[entry.1]} in
  support ← chain_support (length (heap tree)) (heap tree) (Some entry.2);
  if support <? min_support then Some []
  else
    cond_patterns ← conditional_pattern_base tree entry.1;
    let cond_transactions := expand_patterns cond_patterns in
    sub_itemsets ← mine_conditional recurse min_support new_itemset cond_transactions;
    Some ((new_itemset, support) :: sub_itemsets).

(** [fpgrowth_mine]; [fuel] bounds the depth of the recursion. *)
Fixpoint fpgrowth_mine (fuel : nat) (tree : FPTree) (min_support : nat)
    (prefix : gset string) : option (list (gset string * nat)) :=
  match fuel with
  | O => None
  | S fuel' =>
      for_extend
        (mine_item (λ cond_tree new_itemset,
                      fpgrowth_mine fuel' cond_tree min_support new_itemset)
                   tree min_support prefix)
        (header_order tree)
  end.

(** An entry of the result of [fpgrowth]. *)
Record FrequentItemset := mkFrequentItemset {
  support : Q;
  itemsets : gset string;
}.

(** [min_count = max(1, int(min_support * n))] *)
Definition min_count_of (min_support : Q) (n : nat) : nat :=
  Z.to_nat (Z.max 1 (py_int (min_support * inject_Z (Z.of_nat n)))).

(** The recursion of [fpgrowth_mine] is at most as deep as the longest
    transaction; this is the fuel [fpgrowth] hands to it. *)
Definition recursion_depth (transactions : list (list string)) : nat :=
  S (max_list (length <$> transactions)).

(** The result loop of [fpgrowth]; [count / n] raises for [n = 0]. *)
Fixpoint result_loop (raw : list (gset string * nat)) (n : nat) (max_len : Z)
    : option (list FrequentItemset) :=
  match raw with
  | [] => Some []
  | (itemset, cnt) :: raw' =>
      if (Z.of_nat (size itemset) <=? max_len)%Z then
        if decide (n = 0) then None
        else
          rest ← result_loop raw' n max_len;
          Some (mkFrequentItemset
                  (py_round (inject_Z (Z.of_nat cnt) / inject_Z (Z.of_nat n)) 6)
                  itemset :: rest)
      else result_loop raw' n max_len
  end.

Definition fpgrowth (transactions : list (list string)) (min_support : Q) (max_len : Z)
    : option (list FrequentItemset) :=
  let n := length transactions in
  let min_count := min_count_of min_support n in
  tree ← new_FPTree transactions min_count;
  raw ← fpgrowth_mine (recursion_depth transactions) tree min_count ∅;
  result_loop raw n max_len.

(** ** fp_growth_engine.py: association rules *)

(** A rule of the result of [association_rules]; [r_support] is its key
    ["support"]. *)
Record Rule := mkRule {
  antecedents : gset string;
  consequents : gset string;
  r_support : Q;
  confidence : Q;
  lift : Q;
  leverage : Q;
  conviction : float;
}.

(** [{fs["itemsets"]: fs["support"] for fs in frequent_itemsets}] *)
Definition build_support_map (frequent_itemsets : list FrequentItemset)
    : gmap (gset string) Q :=
  foldl (λ m fs, <[itemsets fs := support fs]> m) ∅ frequent_itemsets.

(** The conviction before capping and rounding:
    [(1 - cons_support) / (1 - confidence + 1e-10) if confidence < 1
     else float("inf")]. *)
Definition raw_conviction (cons_support conf : Q) : float :=
  if Qlt_le_dec conf 1
  then finite ((1 - cons_support) / (1 - conf + (1 # 10000000000)))%Q
  else inf.

(** The body of the innermost loop of [association_rules] for one
    combination [antecedent] of the items of [fs]: the rule it appends, or
    [None] when it appends nothing. *)
Definition rule_of_split (support_map : gmap (gset string) Q) (metric : string)
    (min_threshold : Q) (fs : FrequentItemset) (antecedent_tuple : list string)
    : option Rule :=
  let itemset := itemsets fs in
  let antecedent : gset string := list_to_set antecedent_tuple in
  let consequent := itemset ∖ antecedent in
  let ant_support := default 0%Q (support_map !! antecedent) in
  let cons_support := default 0%Q (support_map !! consequent) in
  let rule_support := support fs in
  if Qeq_bool ant_support 0 || Qeq_bool cons_support 0 then None
  else
    let conf := (rule_support / ant_support)%Q in
    let lft := (conf / cons_support)%Q in
    let lev := (rule_support - ant_support * cons_support)%Q in
    let conv := raw_conviction cons_support conf in
    let value := if String.eqb metric "confidence" then conf else lft in
    if Qle_bool min_threshold value then
      Some (mkRule antecedent consequent
              (py_round rule_support 6) (py_round conf 6) (py_round lft 6)
              (py_round lev 6)
              (float_round (float_min conv (finite 999)) 4))
    else None.

(** The candidate antecedents of an itemset, in the order of the two inner
    loops: [for size in range(1, len(itemset)): for antecedent in
    combinations(itemset, size)]. *)
Definition splits (itemset : gset string) : list (list string) :=
  flat_map (combinations (elements itemset)) (seq 1 (size itemset - 1)).

(** The rules appended for one frequent itemset. *)
Definition rules_of_itemset (support_map : gmap (gset string) Q) (metric : string)
    (min_threshold : Q) (fs : FrequentItemset) : list Rule :=
  if size (itemsets fs) <? 2 then []
  else omap (rule_of_split support_map metric min_threshold fs) (splits (itemsets fs)).

(** [rules.sort(key=lambda r: r["lift"], reverse=True)] *)
Definition sort_by_lift (rules : list Rule) : list Rule :=
  sorted (λ a b, Qle_bool (lift b) (lift a)) rules.

Definition association_rules (frequent_itemsets : list FrequentItemset)
    (metric : string) (min_threshold : Q) : list Rule :=
  let support_map := build_support_map frequent_itemsets in
  sort_by_lift
    (flat_map (rules_of_itemset support_map metric min_threshold) frequent_itemsets).

(** ** recommender.py: the matcher *)

(** A row of the result of [recommend]. *)
Record Recommendation := mkRecommendation {
  product : string;
  rec_confidence : Q;
  rec_lift : Q;
  rec_support : Q;
  based_on : string;
}.

(** A [pandas.DataFrame] of recommendations: its column labels and rows. *)
Record DataFrame := mkDataFrame {
  columns : list string;
  rows : list Recommendation;
}.

Definition recommendation_columns : list string :=
  ["product"; "confidence"; "lift"; "support"; "based_on"].

(** [drop_duplicates(subset=["product"])]: keeps the first row of each
    product. *)
Fixpoint drop_duplicates (seen : list string) (l : list Recommendation)
    : list Recommendation :=
  match l with
  | [] => []
  | r :: l' =>
      if bool_decide (product r ∈ seen) then drop_duplicates seen l'
      else r :: drop_duplicates (product r :: seen) l'
  end.

(** [head(n)]: the first [n] rows, or all but the last [-n] for [n < 0]. *)
Definition head {A : Type} (n : Z) (l : list A) : list A :=
  if (0 <=? n)%Z then take (Z.to_nat n) l
  else take (length l - Z.to_nat (- n)) l.

(** The row appended to [results] for a rule and an item of its consequent. *)
Definition candidate_row (rule : Rule) (p : string) : Recommendation :=
  mkRecommendation p
    (py_round (confidence rule) 4)
    (py_round (lift rule) 4)
    (py_round (r_support rule) 4)
    (join ", " (sorted String.leb (elements (antecedents rule)))).

Section recommend.
(** The two library functions of the matcher are parameters:
    [normalize] is [lambda i: i.strip().title()], and [sort_values] is
    [DataFrame.sort_values("lift", ascending=False)], whose order among
    rows of equal lift pandas leaves to the sorting algorithm. *)
Variable normalize : string → string.
Variable sort_values : list Recommendation → list Recommendation.

(** The rows a rule appends to [results]. *)
Definition candidates_of_rule (input_set : gset string) (min_confidence min_lift : Q)
    (rule : Rule) : list Recommendation :=
  if bool_decide (antecedents rule ⊆ input_set) then
    if Qlt_le_dec (confidence rule) min_confidence then []
    else if Qlt_le_dec (lift rule) min_lift then []
    else
      omap (λ p, if bool_decide (p ∈ input_set) then None
                 else Some (candidate_row rule p))
           (elements (consequents rule))
  else [].

(** [recommend]; [rules] is [self.rules], [None] when no model is loaded. *)
Definition recommend (rules : option (list Rule)) (input_items : list string)
    (top_n : Z) (min_confidence min_lift : Q) : DataFrame :=
  match rules with
  | None | Some [] => mkDataFrame [] []
  | Some rules =>
      let input_set : gset string := list_to_set (normalize <$> input_items) in
      let results :=
        flat_map (candidates_of_rule input_set min_confidence min_lift) rules in
      match results with
      | [] => mkDataFrame recommendation_columns []
      | _ :: _ =>
          mkDataFrame recommendation_columns
            (head top_n (drop_duplicates [] (sort_values results)))
      end
  end.
End recommend.

(** A stable descending sort by lift, one admissible [sort_values]. *)
Definition sort_values_stable (l : list Recommendation) : list Recommendation :=
  sorted (λ a b, Qle_bool (rec_lift b) (rec_lift a)) l.

(** [str.strip] and [str.title] on ASCII text. *)
Definition is_space (c : ascii) : bool :=
  let n := nat_of_ascii c in
  (n =? 32) || ((9 <=? n) && (n <=? 13)) || ((28 <=? n) && (n <=? 31)).

Definition is_upper (c : ascii) : bool :=
  let n := nat_of_ascii c in (65 <=? n) && (n <=? 90).

Definition is_lower (c : ascii) : bool :=
  let n := nat_of_ascii c in (97 <=? n) && (n <=? 122).

Definition to_upper (c : ascii) : ascii :=
  if is_lower c then ascii_of_nat (nat_of_ascii c - 32) else c.

Definition to_lower (c : ascii) : ascii :=
  if is_upper c then ascii_of_nat (nat_of_ascii c + 32) else c.

Fixpoint lstrip (s : list ascii) : list ascii :=
  match s with
  | c :: s' => if is_space c then lstrip s' else s
  | [] => []
  end.

Definition strip (s : list ascii) : list ascii :=
  rev (lstrip (rev (lstrip s))).

(** [title]: a cased character is upper-cased after an uncased one and
    lower-cased after a cased one. *)
Fixpoint title (previous_is_cased : bool) (s : list ascii) : list ascii :=
  match s with
  | [] => []
  | c :: s' =>
      if is_upper c || is_lower c
      then (if previous_is_cased then to_lower c else to_upper c) :: title true s'
      else c :: title false s'
  end.

Definition strip_title (s : string) : string :=
  string_of_list_ascii (title false (strip (list_ascii_of_string s))).

(** * Specifications

    The predicates and counting functions in which the theorems are stated. *)

(** ** The shape of an FP-tree *)

(** [chain h start l]: following [link] from [start] visits the nodes [l] and
    then ends. *)
Inductive chain (h : list FPNode) : option nat → list nat → Prop :=
  | chain_end : chain h None []
  | chain_step a nd l :
      h !! a = Some nd → chain h (link nd) l → chain h (Some a) (a :: l).

(** The count stored at an address. *)
Definition count_at (h : list FPNode) (a : nat) : nat :=
  from_option count 0 (h !! a).

(** The invariant of a tree has two parts.  The ghost list [paths] gives for
    every node the items on the way from the root to it; [cnt p] is the
    number of times the path [p] was walked by [_insert], [occ x] the number
    of times the item [x] was inserted.

    [shape_inv] is about the tree proper: parents, child maps and counts. *)
Record shape_inv (h : list FPNode) (paths : list (list string))
    (cnt : list string → nat) : Prop := {
  inv_length : length paths = length h;
  inv_root : paths !! 0 = Some [] ∧ ∃ r, h !! 0 = Some r ∧ item r = None;
  inv_node : ∀ a nd, 0 < a → h !! a = Some nd →
    ∃ x pa pp, item nd = Some x ∧ parent nd = Some pa ∧ pa < a ∧
               paths !! pa = Some pp ∧ paths !! a = Some (pp ++ [x]);
  inv_nodup : NoDup paths;
  inv_children : ∀ a nd p x b, h !! a = Some nd → paths !! a = Some p →
    (dict_get x (children nd) = Some b ↔ paths !! b = Some (p ++ [x]));
  inv_count : ∀ a nd p, 0 < a → h !! a = Some nd → paths !! a = Some p →
    count nd = cnt p ∧ 0 < cnt p;
  inv_complete : ∀ p, p ≠ [] → 0 < cnt p → p ∈ paths;
}.

(** [chains_inv] is about the header table: the chain of an item visits
    every node of that item once. *)
Record chains_inv (h : list FPNode) (hd : list (string * nat))
    (occ : string → nat) : Prop := {
  inv_chain : ∀ x, ∃ l,
    chain h (dict_get x hd) l ∧ NoDup l ∧
    (∀ a, a ∈ l ↔ ∃ nd, h !! a = Some nd ∧ item nd = Some x) ∧
    sum_list (count_at h <$> l) = occ x;
  inv_header : NoDup hd.*1;
}.

Definition tree_inv (t : FPTree) (paths : list (list string))
    (cnt : list string → nat) (occ : string → nat) : Prop :=
  shape_inv (heap t) paths cnt ∧ chains_inv (heap t) (header t) occ.

(** Occurrences of a pattern among the conditional transactions. *)
Abbreviation count_list := (count_occ (λ x y : list string, decide (x = y))).

(** The pattern that [conditional_pattern_base] records for a node. *)
Definition pattern_at (h : list FPNode) (paths : list (list string)) (a : nat)
    : option (list string * nat) :=
  nd ← h !! a;
  pa ← parent nd;
  pp ← paths !! pa;
  if pp is [] then None else Some (pp, count nd).

(** [bump f k] counts one more at [k]. *)
Definition bump {A : Type} `{EqDecision A} (f : A → nat) (k : A) : A → nat :=
  λ y, if decide (y = k) then S (f y) else f y.

(** ** What a tree records about the inserted transactions *)

(** [path_hits pre s p]: how often inserting the items [s] below the path
    [pre] walks the path [p] (at most once). *)
Fixpoint path_hits (pre s p : list string) : nat :=
  match s with
  | [] => 0
  | x :: s' => (if decide (p = pre ++ [x]) then 1 else 0) + path_hits (pre ++ [x]) s' p
  end.

(** How often the insertion of the sequences [ss] walks the path [p]. *)
Definition walked (ss : list (list string)) (p : list string) : nat :=
  sum_list ((λ s, path_hits [] s p) <$> ss).

(** Occurrences of an item in a sequence. *)
Abbreviation count_of := (count_occ (λ x y : string, decide (x = y))).

(** How often the item [x] occurs in the sequences [ss]. *)
Definition inserted (ss : list (list string)) (x : string) : nat :=
  sum_list ((λ s, count_of s x) <$> ss).

(** The frequency table of [_build] and the sequences it inserts. *)
Definition frequencies (transactions : list (list string)) (min_support : nat)
    : list (string * nat) :=
  filter (λ kv, min_support ≤ kv.2) (count_frequencies transactions).

Definition sorted_transactions (transactions : list (list string)) (min_support : nat)
    : list (list string) :=
  filter_and_sort (frequencies transactions min_support) <$> transactions.

(** [fr] is the table of the counting function [f]. *)
Definition freq_table (fr : list (string * nat)) (f : string → nat) : Prop :=
  NoDup fr.*1 ∧
  ∀ x, dict_get x fr = if decide (f x = 0) then None else Some (f x).

(** ** Mining *)

(** Both computations return, and their results are permutations of each
    other. *)
Definition operm {B : Type} (o o' : option (list B)) : Prop :=
  ∃ r r', o = Some r ∧ o' = Some r' ∧ r ≡ₚ r'.

(** [t] and [t'] satisfy the invariant with the same counters and the same
    frequencies, and no walked path is longer than [bound]. *)
Definition same_record (t t' : FPTree) (bound : nat) : Prop :=
  ∃ paths paths' cnt cnt' occ occ',
    tree_inv t paths cnt occ ∧ tree_inv t' paths' cnt' occ' ∧
    (∀ p, cnt p = cnt' p) ∧ (∀ x, occ x = occ' x) ∧
    (∀ x, dict_get x (freq t) = dict_get x (freq t')) ∧
    (∀ p, 0 < cnt p → length p ≤ bound).

(** The entry of the result for a mined itemset, if it is short enough. *)
Definition result_entry (n : nat) (max_len : Z) (e : gset string * nat)
    : option FrequentItemset :=
  if (Z.of_nat (size e.1) <=? max_len)%Z
  then Some (mkFrequentItemset
               (py_round (inject_Z (Z.of_nat e.2) / inject_Z (Z.of_nat n)) 6) e.1)
  else None.

(** ** Mining: duplicates within a basket *)

(** Both runs return, and they return the same itemsets with the same
    supports. *)
Definition same_itemsets (r r' : option (list FrequentItemset)) : Prop :=
  ∃ l l', r = Some l ∧ r' = Some l' ∧ ∀ fi, fi ∈ l ↔ fi ∈ l'.

(** Replacing any basket by its duplicate-free version does not change the
    frequent itemsets and their supports. *)
Definition duplicates_collapse (transactions : list (list string)) (min_support : Q)
    (max_len : Z) : Prop :=
  ∀ i basket, transactions !! i = Some basket →
    same_itemsets (fpgrowth transactions min_support max_len)
                  (fpgrowth (<[i := remove_dups basket]> transactions)
                            min_support max_len).

(** ** Rule generation *)

(** Frequent itemsets on which the rule [{a} -> {b}] has confidence 0.9995. *)
Definition example_itemsets : list FrequentItemset :=
  [mkFrequentItemset (1 # 5) {["a"]};
   mkFrequentItemset (1999 # 10000) {["b"]};
   mkFrequentItemset (1999 # 10000) ({["a"]} ∪ {["b"]})].

(** The rule that [association_rules] emits for them. *)
Definition example_rule_a_b : Rule :=
  mkRule {["a"]} {["b"]} (1999 # 10000) (1999 # 2000) 5 (1999 # 12500) (finite 999).

(** The same with an itemset [{c, d}] whose subsets are not in the list. *)
Definition example_itemsets_with_miss : list FrequentItemset :=
  example_itemsets ++ [mkFrequentItemset (1 # 10) ({["c"]} ∪ {["d"]})].

(** [min(conviction, 999.0)] on a finite conviction. *)
Definition cap_999 (v : Q) : Q := if Qlt_le_dec 999 v then 999%Q else v.

(** The reading of conviction in the rule generator's description: the plain
    quotient below confidence 1, the sentinel at confidence 1, never more
    than the sentinel. *)
Definition conviction_as_stated (cons_support conf : Q) (stored : float) : Prop :=
  ((conf < 1)%Q →
   ∃ q, stored = finite q ∧ (q == (1 - cons_support) / (1 - conf))%Q) ∧
  ((conf == 1)%Q → stored = finite 999) ∧
  ∃ q, stored = finite q ∧ (q <= 999)%Q.

(** That reading, for every rule that is emitted. *)
Definition conviction_claim (fis : list FrequentItemset) (metric : string) (thr : Q)
    : Prop :=
  ∀ fs tuple r,
    fs ∈ fis → 2 ≤ size (itemsets fs) → tuple ∈ splits (itemsets fs) →
    rule_of_split (build_support_map fis) metric thr fs tuple = Some r →
    conviction_as_stated
      (default 0%Q (build_support_map fis !! consequents r))
      (support fs / default 0%Q (build_support_map fis !! antecedents r))
      (conviction r).

(** ** The matcher *)

(** Rule [rule] fires on the basket, survives the live filters and proposes
    the item [p], which is not in the basket. *)
Definition contributes (input_set : gset string) (min_confidence min_lift : Q)
    (rule : Rule) (p : string) : Prop :=
  antecedents rule ⊆ input_set ∧
  (min_confidence <= confidence rule)%Q ∧ (min_lift <= lift rule)%Q ∧
  p ∈ consequents rule ∧ p ∉ input_set.

(** One rule, of lift 1.23456. *)
Definition example_rules : list Rule :=
  [mkRule {["Bread"]} {["Butter"]} (3 # 10) (9 # 10) (123456 # 100000) (1 # 10)
          (finite 5)].

(** The matcher contract.  [carried rule] is the lift that a recommendation
    made from [rule] carries. *)
Definition matcher_contract (carried : Rule → Q) (rules : list Rule)
    (input_set : gset string) (minc minl : Q) (out : list Recommendation) : Prop :=
  (∀ rule p, rule ∈ rules →
     (∃ c, c ∈ candidates_of_rule input_set minc minl rule ∧ product c = p) ↔
     contributes input_set minc minl rule p) ∧
  (∀ rec, rec ∈ out → product rec ∉ input_set) ∧
  NoDup (product <$> out) ∧
  (∀ rec, rec ∈ out →
     (∃ rule, rule ∈ rules ∧ contributes input_set minc minl rule (product rec) ∧
              (rec_lift rec == carried rule)%Q) ∧
     (∀ rule, rule ∈ rules → contributes input_set minc minl rule (product rec) →
              (carried rule <= rec_lift rec)%Q)).

(** ** Notions of the further properties *)

(** ** Support counts *)

(** The number of baskets that contain every item of [S]. *)
Definition support_count (ts : list (list string)) (S : gset string) : nat :=
  length (filter (λ tr, S ⊆ (list_to_set tr : gset string)) ts).

(** The items of [s] in front of the first [x]. *)
Fixpoint before (x : string) (s : list string) : option (list string) :=
  match s with
  | [] => None
  | y :: s' => if decide (y = x) then Some [] else cons y <$> before x s'
  end.

(** The conditional transaction that a sequence of the tree gives for the
    item [x]: the items in front of [x], when there are any. *)
Definition cond_transaction (x : string) (s : list string) : option (list string) :=
  q ← before x s; if q is [] then None else Some q.

(** ** The conditional transactions of an item *)

(** The conditional transactions of [x], read off the baskets. *)
Definition cond_transactions_of (fr : list (string * nat)) (ts : list (list string))
    (x : string) : list (list string) :=
  omap (λ tr, cond_transaction x (filter_and_sort fr tr)) ts.

(** ** The frequent itemsets *)

(** [raw] lists every frequent itemset of the baskets [ts] once, with its
    support count: the non-empty sets of items that at least [m] baskets
    contain. *)
Definition frequent_itemsets_of (ts : list (list string)) (m : nat)
    (raw : list (gset string * nat)) : Prop :=
  NoDup raw.*1 ∧
  ∀ S c, (S, c) ∈ raw ↔ S ≠ ∅ ∧ c = support_count ts S ∧ m ≤ c.

(** [b] lists the frequent itemsets whose last item, in the order of the
    tree, is [x]. *)
Definition block_of (fr : list (string * nat)) (ts : list (list string)) (m : nat)
    (x : string) (b : list (gset string * nat)) : Prop :=
  NoDup b.*1 ∧
  ∀ S c, (S, c) ∈ b ↔
    x ∈ S ∧ (∀ y, y ∈ S → key_le fr y x = true) ∧ c = support_count ts S ∧ m ≤ c.

(** The itemsets mined below the prefix [prefix]. *)
Definition with_prefix (prefix : gset string) (raw : list (gset string * nat))
    : list (gset string * nat) :=
  (λ e, (prefix ∪ e.1, e.2)) <$> raw.

(** ** recommender.py: the catalogue search *)

(** [s.startswith(q)] *)
Fixpoint is_prefix (q s : string) : bool :=
  match q, s with
  | EmptyString, _ => true
  | String c q', String d s' => Ascii.eqb c d && is_prefix q' s'
  | String _ _, EmptyString => false
  end.

(** [q in s] on strings: [q] occurs in [s]. *)
Fixpoint is_substring (q s : string) : bool :=
  is_prefix q s ||
  match s with
  | EmptyString => false
  | String _ s' => is_substring q s'
  end.

(** [l[:k]]: the first [k] elements, or all but the last [-k] for [k < 0]. *)
Definition slice_to {A : Type} (k : Z) (l : list A) : list A :=
  if (0 <=? k)%Z then take (Z.to_nat k) l
  else take (length l - Z.to_nat (- k)) l.

Section search_items.
(** The two library functions of the search are parameters: [strip] is
    [str.strip] and [lower] is [str.lower]. *)
Variable strip : string → string.
Variable lower : string → string.

(** [search_items]; [all_items] is [self.all_items], [None] when no
    catalogue is loaded. *)
Definition search_items (all_items : option (list string)) (query : string)
    (max_results : Z) : list string :=
  let q := lower (strip query) in
  match all_items with
  | None | Some [] => []
  | Some items =>
      slice_to max_results (filter (λ item, is_substring q (lower item) = true) items)
  end.
End search_items.

(** * Verification *)

(** ** Lists, sorting and combinations *)

Section sorted_facts.
Context {A : Type} (le : A → A → bool).

Lemma sorted_insert_perm (x : A) (l : list A) : sorted_insert le x l ≡ₚ x :: l.
Proof.
  induction l as [|y l IH]; simpl; [done|].
  destruct (le x y); [done|]. rewrite IH. apply Permutation_swap.
Qed.

Lemma sorted_perm (l : list A) : sorted le l ≡ₚ l.
Proof.
  induction l as [|x l IH]; simpl; [done|].
  rewrite sorted_insert_perm. by rewrite IH.
Qed.

Lemma elem_of_sorted (x : A) (l : list A) : x ∈ sorted le l ↔ x ∈ l.
Proof. by rewrite sorted_perm. Qed.

(** When [le] is total and transitive the result is sorted. *)
Lemma sorted_insert_sorted (x : A) (l : list A) :
  (∀ a b, le a b = false → le b a = true) →
  (∀ a b c, le a b = true → le b c = true → le a c = true) →
  StronglySorted (λ a b, le a b = true) l →
  StronglySorted (λ a b, le a b = true) (sorted_insert le x l).
Proof.
  intros Htot Htrans. induction 1 as [|y l Hs IH Hy]; simpl.
  - repeat constructor.
  - destruct (le x y) eqn:Hxy.
    + constructor; [by constructor|].
      constructor; [done|]. eapply Forall_impl; [exact Hy|].
      intros z Hz. by eapply Htrans.
    + constructor; [done|].
      rewrite sorted_insert_perm. constructor; [by apply Htot|done].
Qed.

Lemma sorted_sorted (l : list A) :
  (∀ a b, le a b = false → le b a = true) →
  (∀ a b c, le a b = true → le b c = true → le a c = true) →
  StronglySorted (λ a b, le a b = true) (sorted le l).
Proof.
  intros Htot Htrans. induction l as [|x l IH]; simpl; [constructor|].
  by apply sorted_insert_sorted.
Qed.
End sorted_facts.

(** Sorting only looks at the comparison of the elements it is given. *)
Lemma sorted_ext {A : Type} (le1 le2 : A → A → bool) (l : list A) :
  (∀ a b, a ∈ l → b ∈ l → le1 a b = le2 a b) → sorted le1 l = sorted le2 l.
Proof.
  induction l as [|x l IH]; intros Hext; simpl; [done|].
  rewrite <- IH by (intros; apply Hext; by constructor).
  assert (Hin : ∀ b, b ∈ sorted le1 l → b ∈ l) by (intros b; by rewrite elem_of_sorted).
  revert Hin. generalize (sorted le1 l). intros s. induction s as [|y s IHs]; intros Hin; simpl; [done|].
  rewrite Hext; [|by left|right; apply Hin; by left].
  destruct (le2 x y); [done|]. f_equal. apply IHs. intros b Hb. apply Hin. by right.
Qed.

Lemma omap_pointwise {A B : Type} (f g : A → option B) (l : list A) :
  (∀ x, f x = g x) → omap f l = omap g l.
Proof.
  intros H. induction l as [|x l IH]; simpl; [done|].
  rewrite H. destruct (g x); [f_equal|]; exact IH.
Qed.

(** ** Insertion-ordered dicts *)

Section dict_facts.
Context {K V : Type} `{EqDecision K}.
Implicit Types (d : list (K * V)) (k : K) (v : V).

Lemma dict_get_set_eq k v d : dict_get k (dict_set k v d) = Some v.
Proof.
  induction d as [|[k' v'] d IH]; simpl.
  - by rewrite decide_True.
  - destruct (decide (k = k')) as [->|Hne]; simpl.
    + by rewrite decide_True.
    + by rewrite decide_False.
Qed.

Lemma dict_get_set_ne k k' v d : k ≠ k' → dict_get k' (dict_set k v d) = dict_get k' d.
Proof.
  intros Hne. induction d as [|[k1 v1] d IH]; simpl.
  - by rewrite decide_False.
  - destruct (decide (k = k1)) as [->|Hne1]; simpl.
    + by rewrite !decide_False.
    + by rewrite IH.
Qed.

Lemma dict_get_None k d : dict_get k d = None ↔ k ∉ d.*1.
Proof.
  induction d as [|[k' v'] d IH]; simpl.
  - split; [intros _; apply not_elem_of_nil|done].
  - rewrite not_elem_of_cons. destruct (decide (k = k')) as [->|Hne].
    + split; [done|]. by intros [? _].
    + rewrite IH. tauto.
Qed.

Lemma dict_get_Some_elem k v d : dict_get k d = Some v → (k, v) ∈ d.
Proof.
  induction d as [|[k' v'] d IH]; simpl; [done|].
  destruct (decide (k = k')) as [->|Hne].
  - intros [= ->]. by left.
  - intros H. right. by apply IH.
Qed.

Lemma dict_get_elem k v d : NoDup d.*1 → (k, v) ∈ d → dict_get k d = Some v.
Proof.
  induction d as [|[k' v'] d IH]; simpl; [by intros _ ?%elem_of_nil|].
  intros [Hk Hnd]%NoDup_cons [[= -> ->]|Hin]%elem_of_cons.
  - by rewrite decide_True.
  - rewrite decide_False; [by apply IH|].
    intros ->. apply Hk. apply list_elem_of_fmap. by exists (k', v).
Qed.

Lemma dict_set_keys k v d :
  (dict_set k v d).*1 = if dict_get k d is Some _ then d.*1 else d.*1 ++ [k].
Proof.
  induction d as [|[k' v'] d IH]; csimpl; [done|].
  destruct (decide (k = k')) as [->|Hne]; csimpl; [done|].
  rewrite IH. by destruct (dict_get k d).
Qed.

Lemma dict_set_keys_NoDup k v d : NoDup d.*1 → NoDup (dict_set k v d).*1.
Proof.
  intros Hnd. rewrite dict_set_keys. destruct (dict_get k d) eqn:Hg; [done|].
  apply NoDup_app. split; [done|]. split; [|apply NoDup_singleton].
  intros x Hx ->%list_elem_of_singleton. by apply dict_get_None in Hg.
Qed.
End dict_facts.

(** ** The FP-tree invariant *)

(** *** Chains *)

Lemma chain_lookup h s l a : chain h s l → a ∈ l → is_Some (h !! a).
Proof.
  induction 1 as [|b nd l Hb Hc IH]; [by intros ?%elem_of_nil|].
  intros [->|Ha]%elem_of_cons; [by eexists|by apply IH].
Qed.

Lemma chain_length h s l : chain h s l → NoDup l → length l ≤ length h.
Proof.
  intros Hc Hnd.
  assert (Hsub : l ⊆+ seq 0 (length h)).
  { apply NoDup_submseteq; [done|]. intros a Ha.
    apply elem_of_seq. destruct (chain_lookup _ _ _ _ Hc Ha) as [nd Hnd'].
    apply lookup_lt_Some in Hnd'. lia. }
  apply submseteq_length in Hsub. by rewrite length_seq in Hsub.
Qed.

(** A chain only depends on the links of its nodes. *)
Lemma chain_frame h h' s l :
  (∀ a nd, a ∈ l → h !! a = Some nd → ∃ nd', h' !! a = Some nd' ∧ link nd' = link nd) →
  chain h s l → chain h' s l.
Proof.
  intros Hf Hc. induction Hc as [|a nd l Ha Hc IH]; [constructor|].
  destruct (Hf a nd) as (nd' & Ha' & Hl); [by left|done|].
  econstructor; [exact Ha'|]. rewrite Hl. apply IH.
  intros b ndb Hb. apply Hf. by right.
Qed.

Lemma chain_support_S fuel h a :
  chain_support (S fuel) h (Some a)
  = nd ← h !! a; rest ← chain_support fuel h (link nd); Some (count nd + rest).
Proof. reflexivity. Qed.

Lemma chain_last_S fuel h a :
  chain_last (S fuel) h a
  = nd ← h !! a;
    match link nd with Some next => chain_last fuel h next | None => Some a end.
Proof. reflexivity. Qed.

Lemma chain_support_spec h s l fuel :
  chain h s l → length l ≤ fuel →
  chain_support fuel h s = Some (sum_list (count_at h <$> l)).
Proof.
  intros Hc. revert fuel. induction Hc as [|a nd l Ha Hc IH]; intros fuel Hf.
  - by destruct fuel.
  - destruct fuel as [|fuel]; [simpl in Hf; lia|].
    assert (Hca : count_at h a = count nd) by (unfold count_at; by rewrite Ha).
    rewrite chain_support_S, Ha. simpl. rewrite IH by (simpl in Hf; lia). simpl.
    by rewrite Hca.
Qed.

Lemma chain_last_spec h a l fuel :
  chain h (Some a) l → length l ≤ fuel →
  ∃ b nd, chain_last fuel h a = Some b ∧ last l = Some b ∧
          h !! b = Some nd ∧ link nd = None.
Proof.
  remember (Some a) as s eqn:Hs. intros Hc. revert a Hs fuel.
  induction Hc as [|a' nd l Ha Hc IH]; intros a [= <-] fuel Hf.
  destruct fuel as [|fuel]; [simpl in Hf; lia|]. rewrite chain_last_S, Ha. simpl.
  destruct (link nd) as [next|] eqn:Hl.
  - destruct (IH next eq_refl fuel) as (b & ndb & Hb & Hlast & Hnb & Hlb);
      [simpl in Hf; lia|].
    exists b, ndb. split; [done|]. split; [|done].
    inversion Hc; subst. simpl in *. done.
  - inversion Hc; subst. by exists a', nd.
Qed.

(** Appending a fresh node at the end of a chain. *)
Lemma chain_snoc h s l b ndb new ndn :
  chain h s l → last l = Some b → h !! b = Some ndb → link ndb = None →
  NoDup l → new = length h → link ndn = None →
  chain (<[b := set_link (Some new) ndb]> h ++ [ndn]) s (l ++ [new]).
Proof.
  intros Hc. revert b ndb. induction Hc as [|a nd l Ha Hc IH];
    intros b ndb Hlast Hb Hlb Hnd -> Hln; [done|].
  apply NoDup_cons in Hnd as [Hal Hnd].
  assert (Hlen : length (<[b := set_link (Some (length h)) ndb]> h) = length h)
    by apply length_insert.
  destruct l as [|a2 l].
  - simpl in Hlast. injection Hlast as <-. simpl.
    assert (nd = ndb) as -> by congruence.
    econstructor.
    { rewrite lookup_app_l by (rewrite Hlen; by eapply lookup_lt_Some).
      apply list_lookup_insert_eq. by eapply lookup_lt_Some. }
    simpl. econstructor.
    { rewrite lookup_app_r by lia. rewrite Hlen, Nat.sub_diag. done. }
    rewrite Hln. constructor.
  - assert (Hab : a ≠ b).
    { intros ->. apply Hal. change (last (a2 :: l) = Some b) in Hlast.
      by apply last_Some_elem_of. }
    simpl. econstructor.
    { rewrite lookup_app_l by (rewrite Hlen; by eapply lookup_lt_Some).
      rewrite list_lookup_insert_ne by done. exact Ha. }
    apply (IH b ndb); done.
Qed.

(** *** Sums *)

Lemma sum_list_zero {A : Type} (f : A → nat) (l : list A) :
  (∀ a, a ∈ l → f a = 0) → sum_list (f <$> l) = 0.
Proof.
  induction l as [|x l IH]; intros H; csimpl; [done|].
  rewrite H by (by left). rewrite IH; [done|]. intros a Ha. apply H. by right.
Qed.

Lemma sum_list_unique {A : Type} (f : A → nat) (l : list A) (a0 : A) :
  NoDup l → a0 ∈ l → (∀ a, a ∈ l → a ≠ a0 → f a = 0) →
  sum_list (f <$> l) = f a0.
Proof.
  induction l as [|x l IH]; intros Hnd Hin H; [by apply elem_of_nil in Hin|].
  apply NoDup_cons in Hnd as [Hx Hnd]. csimpl.
  apply elem_of_cons in Hin as [->|Hin].
  - rewrite sum_list_zero; [lia|]. intros a Ha. apply H; [by right|].
    intros ->. done.
  - rewrite (H x); [|by left|by intros ->]. simpl. apply IH; [done..|].
    intros a Ha. apply H. by right.
Qed.

Lemma count_list_replicate (n : nat) (p q : list string) :
  count_list (replicate n p) q = if decide (p = q) then n else 0.
Proof.
  induction n as [|n IH]; simpl; [by destruct (decide (p = q))|].
  rewrite IH. by destruct (decide (p = q)).
Qed.

Lemma count_list_expand (q : list string) (cps : list (list string * nat)) :
  count_list (expand_patterns cps) q
  = sum_list ((λ pc, if decide (pc.1 = q) then pc.2 else 0) <$> cps).
Proof.
  unfold expand_patterns. induction cps as [|[p n] cps IH]; csimpl; [done|].
  by rewrite count_occ_app, count_list_replicate, IH.
Qed.

Lemma sum_list_omap {A B : Type} (g : B → nat) (F : A → option B) (l : list A) :
  sum_list (g <$> omap F l) = sum_list ((λ a, from_option g 0 (F a)) <$> l).
Proof.
  induction l as [|x l IH]; csimpl; [done|].
  destruct (F x); csimpl; by rewrite IH.
Qed.

Lemma omap_cons_eq {A B : Type} (f : A → option B) (x : A) (l : list A) :
  omap f (x :: l) = match f x with Some y => y :: omap f l | None => omap f l end.
Proof. reflexivity. Qed.

(** *** Reading a tree that satisfies the invariant *)

Section reading.
Context (t : FPTree) (paths : list (list string)).
Context (cnt : list string → nat) (occ : string → nat).
Hypothesis Hinv : tree_inv t paths cnt occ.
Let Hshape : shape_inv (heap t) paths cnt := proj1 Hinv.
Let Hchains : chains_inv (heap t) (header t) occ := proj2 Hinv.

Lemma inv_depth (a : nat) (p : list string) :
  paths !! a = Some p → length p ≤ a.
Proof.
  revert p. induction (lt_wf a) as [a _ IH]. intros p Hp.
  destruct a as [|a].
  { destruct (inv_root _ _ _ Hshape) as [H0 _]. by simplify_eq. }
  assert (Hlt : S a < length (heap t)).
  { rewrite <- (inv_length _ _ _ Hshape). by eapply lookup_lt_Some. }
  destruct (lookup_lt_is_Some_2 _ _ Hlt) as [nd Hnd].
  destruct (inv_node _ _ _ Hshape (S a) nd) as (x & pa & pp & _ & _ & Hpa & Hpp & Hpx);
    [lia|done|].
  simplify_eq. rewrite length_app. simpl.
  specialize (IH pa Hpa pp Hpp). lia.
Qed.

Lemma inv_path_nil (a : nat) : paths !! a = Some [] → a = 0.
Proof.
  intros Ha. destruct (inv_root _ _ _ Hshape) as [H0 _].
  eapply NoDup_lookup; [apply (inv_nodup _ _ _ Hshape)|done..].
Qed.

Lemma walk_up_spec (fuel a : nat) (p : list string) :
  paths !! a = Some p → length p < fuel →
  walk_up fuel (heap t) a = Some (rev p).
Proof.
  revert a p. induction fuel as [|fuel IH]; intros a p Ha Hf; [lia|].
  assert (Hlt : a < length (heap t)).
  { rewrite <- (inv_length _ _ _ Hshape). by eapply lookup_lt_Some. }
  destruct (lookup_lt_is_Some_2 _ _ Hlt) as [nd Hnd].
  change (walk_up (S fuel) (heap t) a) with
    (pn ← heap t !! a;
     match item pn with
     | None => Some []
     | Some it => pp ← parent pn; rest ← walk_up fuel (heap t) pp; Some (it :: rest)
     end).
  rewrite Hnd. simpl. destruct a as [|a].
  - destruct (inv_root _ _ _ Hshape) as [H0 (r & Hr & Hi)]. simplify_eq.
    by rewrite Hi.
  - destruct (inv_node _ _ _ Hshape (S a) nd) as (x & pa & pp & Hi & Hp & Hpa & Hpp & Hpx);
      [lia|done|].
    simplify_eq. rewrite Hi, Hp. simpl.
    rewrite length_app in Hf. simpl in Hf.
    rewrite (IH pa pp) by (done || lia). simpl. by rewrite rev_unit.
Qed.

Lemma pattern_loop_spec (fuel : nat) (s : option nat) (l : list nat) :
  chain (heap t) s l → (∀ a, a ∈ l → 0 < a) → length l ≤ fuel →
  pattern_loop fuel (heap t) s = Some (omap (pattern_at (heap t) paths) l).
Proof.
  intros Hc. revert fuel. induction Hc as [|a nd l Ha Hc IH]; intros fuel Hpos Hf.
  { by destruct fuel. }
  destruct fuel as [|fuel]; [simpl in Hf; lia|].
  change (pattern_loop (S fuel) (heap t) (Some a)) with
    (nd ← heap t !! a;
     pp ← parent nd;
     pre ← walk_up (length (heap t)) (heap t) pp;
     rest ← pattern_loop fuel (heap t) (link nd);
     Some (if pre is [] then rest else (rev pre, count nd) :: rest)).
  destruct (inv_node _ _ _ Hshape a nd) as (x & pa & pp & Hi & Hp & Hpa & Hpp & Hpx);
    [apply Hpos; by left|done|].
  assert (Hpat : pattern_at (heap t) paths a
                 = if pp is [] then None else Some (pp, count nd)).
  { unfold pattern_at. rewrite Ha. simpl. rewrite Hp. simpl. by rewrite Hpp. }
  rewrite omap_cons_eq, Hpat. clear Hpat.
  rewrite Ha. simpl. rewrite Hp. simpl.
  assert (Hlt : a < length (heap t)) by (by eapply lookup_lt_Some).
  rewrite (walk_up_spec _ pa pp) by (done || pose proof (inv_depth _ _ Hpp); lia).
  simpl. rewrite IH; [|intros b Hb; apply Hpos; by right|simpl in Hf; lia]. simpl.
  destruct pp as [|y pp]; [done|].
  rewrite rev_involutive.
  destruct (rev (y :: pp)) eqn:Hrev; [|done].
  apply (f_equal (@length _)) in Hrev. rewrite length_rev in Hrev. done.
Qed.

(** The nodes of the chain of [x] are not the root. *)
Lemma chain_nodes_positive (x : string) (l : list nat) :
  (∀ a, a ∈ l ↔ ∃ nd, heap t !! a = Some nd ∧ item nd = Some x) →
  ∀ a, a ∈ l → 0 < a.
Proof.
  intros Hl a [nd [Ha Hi]]%Hl. destruct a; [|lia].
  destruct (inv_root _ _ _ Hshape) as [_ (r & Hr & Hir)]. congruence.
Qed.

(** The support summed along the chain of an item is the number of its
    insertions. *)
Lemma chain_support_header (x : string) :
  chain_support (length (heap t)) (heap t) (dict_get x (header t)) = Some (occ x).
Proof.
  destruct (inv_chain _ _ _ Hchains x) as (l & Hch & Hnd & Hl & Hsum).
  rewrite (chain_support_spec _ _ l); [by rewrite Hsum|done|].
  by eapply chain_length.
Qed.

(** An item is in the header table iff it was inserted. *)
Lemma header_keys (x : string) : x ∈ (header t).*1 ↔ 0 < occ x.
Proof.
  destruct (inv_chain _ _ _ Hchains x) as (l & Hch & Hnd & Hl & Hsum).
  split.
  - intros Hx. destruct (dict_get x (header t)) as [a|] eqn:Hg;
      [|by apply dict_get_None in Hg].
    inversion Hch as [|a' nd l' Ha Hc']; subst.
    assert (Hpos : 0 < a) by (eapply chain_nodes_positive; [done|by left]).
    assert (Hlt : a < length paths).
    { rewrite (inv_length _ _ _ Hshape). by eapply lookup_lt_Some. }
    destruct (lookup_lt_is_Some_2 _ _ Hlt) as [p Hp].
    destruct (inv_count _ _ _ Hshape a nd p) as [Hcn Hcp]; [done..|].
    assert (Hca : count_at (heap t) a = count nd) by (unfold count_at; by rewrite Ha).
    rewrite <- Hsum. csimpl. rewrite Hca. lia.
  - intros Ho. destruct (dict_get x (header t)) as [a|] eqn:Hg.
    + apply dict_get_Some_elem in Hg. apply list_elem_of_fmap. by exists (x, a).
    + inversion Hch; subst. simpl in Hsum. lia.
Qed.

(** The conditional transactions of an item: the pattern [q] occurs as
    often as the path [q ++ [x]] was walked. *)
Lemma conditional_pattern_base_spec (x : string) :
  ∃ cpb, conditional_pattern_base t x = Some cpb ∧
    ∀ q, count_list (expand_patterns cpb) q
         = if decide (q = []) then 0 else cnt (q ++ [x]).
Proof.
  destruct (inv_chain _ _ _ Hchains x) as (l & Hch & Hnd & Hl & Hsum).
  exists (omap (pattern_at (heap t) paths) l). split.
  { unfold conditional_pattern_base. apply pattern_loop_spec; [done|..].
    - by eapply chain_nodes_positive.
    - by eapply chain_length. }
  intros q. rewrite count_list_expand, sum_list_omap.
  set (f := λ a, from_option _ 0 (pattern_at (heap t) paths a)).
  (* what [f] is on a node of the chain *)
  assert (Hf : ∀ a, a ∈ l → ∃ nd pp,
    heap t !! a = Some nd ∧ paths !! a = Some (pp ++ [x]) ∧
    f a = if decide (pp = q ∧ pp ≠ []) then count nd else 0).
  { intros a Ha. assert (Hpos : 0 < a) by (by eapply chain_nodes_positive).
    apply Hl in Ha as (nd & Ha & Hi).
    destruct (inv_node _ _ _ Hshape a nd) as (x' & pa & pp & Hi' & Hp & Hpa & Hpp & Hpx);
      [done..|].
    assert (x' = x) as -> by congruence.
    exists nd, pp. split; [done|]. split; [done|].
    unfold f, pattern_at. rewrite Ha. simpl. rewrite Hp. simpl. rewrite Hpp. simpl.
    destruct pp as [|y pp]; simpl.
    - rewrite decide_False; [done|]. by intros [_ ?].
    - destruct (decide (y :: pp = q)) as [Heq|Hne].
      + rewrite decide_True; [done|]. by split.
      + rewrite decide_False; [done|]. by intros [? _]. }
  destruct (decide (q = [])) as [->|Hq].
  { apply sum_list_zero. intros a Ha. destruct (Hf a Ha) as (nd & pp & _ & _ & ->).
    rewrite decide_False; [done|]. intros [-> ?]. done. }
  destruct (decide (0 < cnt (q ++ [x]))) as [Hpos|Hzero].
  - assert (Hne : q ++ [x] ≠ []) by (by destruct q).
    pose proof (inv_complete _ _ _ Hshape _ Hne Hpos) as Hin.
    apply list_elem_of_lookup in Hin as [a0 Ha0].
    assert (Ha0pos : 0 < a0).
    { destruct a0; [|lia]. destruct (inv_root _ _ _ Hshape) as [H0 _]. congruence. }
    assert (Hlt : a0 < length (heap t)).
    { rewrite <- (inv_length _ _ _ Hshape). by eapply lookup_lt_Some. }
    destruct (lookup_lt_is_Some_2 _ _ Hlt) as [nd0 Hnd0].
    destruct (inv_node _ _ _ Hshape a0 nd0) as (x' & pa & pp & Hi' & Hp & Hpa & Hpp & Hpx);
      [done..|].
    rewrite Ha0 in Hpx. injection Hpx as Hpx. apply app_inj_tail in Hpx as [<- <-].
    assert (Hin0 : a0 ∈ l) by (apply Hl; by exists nd0).
    rewrite (sum_list_unique f l a0); [|done..|].
    + destruct (Hf a0 Hin0) as (nd & pp & Hnd' & Hpp' & ->).
      rewrite Ha0 in Hpp'. injection Hpp' as Hpp'. apply app_inj_tail in Hpp' as [<- _].
      rewrite decide_True by done. simplify_eq.
      by destruct (inv_count _ _ _ Hshape a0 nd0 (q ++ [x])) as [-> _].
    + intros a Ha Hne0. destruct (Hf a Ha) as (nd & pp & Hnd' & Hpp' & ->).
      rewrite decide_False; [done|]. intros [-> _]. apply Hne0.
      eapply NoDup_lookup; [apply (inv_nodup _ _ _ Hshape)|done..].
  - replace (cnt (q ++ [x])) with 0 by lia.
    apply sum_list_zero. intros a Ha.
    destruct (Hf a Ha) as (nd & pp & Hnd' & Hpp' & ->).
    rewrite decide_False; [done|]. intros [-> _]. apply Hzero.
    assert (Hpos : 0 < a) by (by eapply chain_nodes_positive).
    by destruct (inv_count _ _ _ Hshape a nd (q ++ [x])) as [_ ?].
Qed.

(** The tree is empty iff no path was walked. *)
Lemma is_empty_spec :
  ∃ b, is_empty t = Some b ∧ (b = true ↔ ∀ x, cnt [x] = 0).
Proof.
  destruct (inv_root _ _ _ Hshape) as [H0 (r & Hr & Hir)].
  unfold is_empty, root. rewrite Hr. simpl. eexists. split; [done|].
  rewrite bool_decide_eq_true. split.
  - intros Hlen x. destruct (decide (0 < cnt [x])) as [Hpos|]; [|lia].
    assert (Hin : [x] ∈ paths) by (by apply (inv_complete _ _ _ Hshape)).
    apply list_elem_of_lookup in Hin as [b Hb].
    apply (inv_children _ _ _ Hshape 0 r [] x b Hr H0) in Hb.
    destruct (children r); [done|]. simpl in Hlen. lia.
  - intros Hall. destruct (children r) as [|[x b] ch] eqn:Hch; [done|].
    assert (Hg : dict_get x (children r) = Some b).
    { rewrite Hch. simpl. by rewrite decide_True. }
    apply (inv_children _ _ _ Hshape 0 r [] x b Hr H0) in Hg. simpl in Hg.
    assert (Hb : 0 < b).
    { destruct b; [|lia]. congruence. }
    assert (Hlt : b < length (heap t)).
    { rewrite <- (inv_length _ _ _ Hshape). by eapply lookup_lt_Some. }
    destruct (lookup_lt_is_Some_2 _ _ Hlt) as [nd Hnd].
    destruct (inv_count _ _ _ Hshape b nd [x]) as [_ Hpos]; [done..|].
    specialize (Hall x). lia.
Qed.
End reading.

(** *** One round of [_insert] keeps the invariant *)

(** Replacing a node by one with the same item, parent and children. *)
Lemma shape_update h paths cnt cnt' c cn cn' :
  shape_inv h paths cnt → h !! c = Some cn →
  item cn' = item cn → parent cn' = parent cn → children cn' = children cn →
  (∀ p, 0 < c → paths !! c = Some p → count cn' = cnt' p ∧ 0 < cnt' p) →
  (∀ a p, a ≠ c → paths !! a = Some p → cnt' p = cnt p) →
  (∀ p, p ≠ [] → 0 < cnt' p → p ∈ paths) →
  shape_inv (<[c := cn']> h) paths cnt'.
Proof.
  intros Hs Hc Hi Hp Hch Hcount Hother Hcomplete.
  assert (Hlook : ∀ a nd', <[c := cn']> h !! a = Some nd' →
    ∃ nd, h !! a = Some nd ∧ item nd' = item nd ∧ parent nd' = parent nd ∧
          children nd' = children nd ∧ (a ≠ c → nd' = nd) ∧ (a = c → nd' = cn')).
  { intros a nd' [(-> & <- & _)|(Hne & Hl)]%list_lookup_insert_Some.
    - exists cn. by repeat split.
    - exists nd'. by repeat split. }
  constructor.
  - rewrite length_insert. apply Hs.
  - destruct (inv_root _ _ _ Hs) as [H0 (r & Hr & Hir)]. split; [done|].
    destruct (decide (c = 0)) as [->|Hne].
    + exists cn'. split; [|congruence]. apply list_lookup_insert_eq.
      by eapply lookup_lt_Some.
    + exists r. by rewrite list_lookup_insert_ne.
  - intros a nd' Ha Hl. destruct (Hlook a nd' Hl) as (nd & Hnd & Hi' & Hp' & _).
    rewrite Hi', Hp'. by apply (inv_node _ _ _ Hs).
  - apply Hs.
  - intros a nd' p x b Hl Hpa. destruct (Hlook a nd' Hl) as (nd & Hnd & _ & _ & Hch' & _).
    rewrite Hch'. by apply (inv_children _ _ _ Hs a).
  - intros a nd' p Ha Hl Hpa.
    destruct (Hlook a nd' Hl) as (nd & Hnd & _ & _ & _ & Hne & Heq).
    destruct (decide (a = c)) as [->|Hac].
    + rewrite (Heq eq_refl). by apply Hcount.
    + rewrite (Hne Hac), (Hother a p Hac Hpa). by apply (inv_count _ _ _ Hs a).
  - done.
Qed.

(** An existing child is incremented. *)
Lemma shape_increment h paths cnt c cn p :
  shape_inv h paths cnt → h !! c = Some cn → paths !! c = Some p → p ≠ [] →
  shape_inv (<[c := increment cn]> h) paths (bump cnt p).
Proof.
  intros Hs Hc Hp Hne.
  assert (Hpos : 0 < c).
  { destruct c; [|lia]. destruct (inv_root _ _ _ Hs) as [H0 _]. congruence. }
  apply (shape_update h paths cnt _ c cn); try done.
  - intros p' _ Hp'. assert (p' = p) as -> by congruence.
    unfold bump. rewrite decide_True by done. simpl.
    destruct (inv_count _ _ _ Hs c cn p) as [-> _]; [done..|]. lia.
  - intros a p' Hac Hp'. unfold bump. rewrite decide_False; [done|].
    intros ->. apply Hac. eapply NoDup_lookup; [apply (inv_nodup _ _ _ Hs)|done..].
  - intros p' Hp' Hpos'. unfold bump in Hpos'.
    destruct (decide (p' = p)) as [->|_].
    + apply list_elem_of_lookup. by exists c.
    + by apply (inv_complete _ _ _ Hs).
Qed.

(** The link of a node is set. *)
Lemma shape_set_link h paths cnt b ndb l :
  shape_inv h paths cnt → h !! b = Some ndb →
  shape_inv (<[b := set_link l ndb]> h) paths cnt.
Proof.
  intros Hs Hb. apply (shape_update h paths cnt cnt b ndb); try done.
  - intros p Hpos Hp. simpl. by apply (inv_count _ _ _ Hs b ndb).
  - apply Hs.
Qed.

(** A new child is allocated. *)
Lemma shape_new_child h paths cnt node nd pre x :
  shape_inv h paths cnt → h !! node = Some nd → paths !! node = Some pre →
  dict_get x (children nd) = None →
  shape_inv
    (<[node := set_children (dict_set x (length h) (children nd)) nd]> h
       ++ [mkFPNode (Some x) 1 (Some node) [] None])
    (paths ++ [pre ++ [x]]) (bump cnt (pre ++ [x])).
Proof.
  intros Hs Hnode Hpre Hnone.
  set (nd1 := set_children (dict_set x (length h) (children nd)) nd).
  set (nn := mkFPNode (Some x) 1 (Some node) [] None).
  pose proof (inv_length _ _ _ Hs) as Hlen.
  assert (Hnlt : node < length h) by (by eapply lookup_lt_Some).
  assert (Hfresh : ∀ b, paths !! b ≠ Some (pre ++ [x])).
  { intros b Hb. apply (inv_children _ _ _ Hs node nd pre x b Hnode Hpre) in Hb.
    congruence. }
  assert (Hzero : cnt (pre ++ [x]) = 0).
  { destruct (decide (0 < cnt (pre ++ [x]))) as [Hpos|]; [|lia].
    apply (inv_complete _ _ _ Hs) in Hpos; [|by destruct pre].
    apply list_elem_of_lookup in Hpos as [b Hb]. by apply Hfresh in Hb. }
  assert (Hclosed : ∀ b q y, paths !! b = Some (q ++ [y]) → ∃ pb, paths !! pb = Some q).
  { intros b q y Hb.
    assert (Hpos : 0 < b).
    { destruct b; [|lia]. destruct (inv_root _ _ _ Hs) as [H0 _].
      rewrite H0 in Hb. by destruct q. }
    assert (Hblt : b < length h) by (rewrite <- Hlen; by eapply lookup_lt_Some).
    destruct (lookup_lt_is_Some_2 _ _ Hblt) as [ndb Hndb].
    destruct (inv_node _ _ _ Hs b ndb) as (x' & pa & pp & _ & _ & _ & Hpp & Hpx);
      [done..|].
    rewrite Hb in Hpx. injection Hpx as Hpx. apply app_inj_tail in Hpx as [-> _].
    by exists pa. }
  (* the nodes of the new heap *)
  assert (Hlook : ∀ a nd', (<[node := nd1]> h ++ [nn]) !! a = Some nd' →
    (a = length h ∧ nd' = nn) ∨
    (a < length h ∧ ∃ nd0, h !! a = Some nd0 ∧ item nd' = item nd0 ∧
       parent nd' = parent nd0 ∧ count nd' = count nd0 ∧
       (a = node → nd0 = nd ∧ nd' = nd1) ∧ (a ≠ node → nd' = nd0))).
  { intros a nd' [Hl|[Hge Hl]]%lookup_app_Some.
    - right. split; [apply lookup_lt_Some in Hl; by rewrite length_insert in Hl|].
      apply list_lookup_insert_Some in Hl as [(-> & <- & _)|(Hne & Hl)].
      + exists nd. by repeat split.
      + exists nd'. by repeat split.
    - left. rewrite length_insert in Hge, Hl.
      destruct (a - length h) as [|k] eqn:Hk; [|by destruct k].
      simpl in Hl. injection Hl as <-. split; [lia|done]. }
  (* the paths of the new heap *)
  assert (Hpath : ∀ a p, (paths ++ [pre ++ [x]]) !! a = Some p →
    (a < length h ∧ paths !! a = Some p) ∨ (a = length h ∧ p = pre ++ [x])).
  { intros a p [Hl|[Hge Hl]]%lookup_app_Some.
    - left. split; [|done]. rewrite <- Hlen. by eapply lookup_lt_Some.
    - right. rewrite Hlen in Hge, Hl.
      destruct (a - length h) as [|k] eqn:Hk; [|by destruct k].
      simpl in Hl. injection Hl as <-. split; [lia|done]. }
  assert (Hold : ∀ a p, paths !! a = Some p → (paths ++ [pre ++ [x]]) !! a = Some p).
  { intros a p Ha. by apply lookup_app_l_Some. }
  assert (Hnew : (paths ++ [pre ++ [x]]) !! length h = Some (pre ++ [x])).
  { rewrite lookup_app_r by lia. by rewrite Hlen, Nat.sub_diag. }
  constructor.
  - rewrite !length_app, length_insert. simpl. lia.
  - destruct (inv_root _ _ _ Hs) as [H0 (r & Hr & Hir)]. split; [by apply Hold|].
    destruct (decide (node = 0)) as [->|Hne].
    + exists nd1. split.
      * rewrite lookup_app_l by (rewrite length_insert; lia).
        by apply list_lookup_insert_eq.
      * simpl. congruence.
    + exists r. split; [|done].
      rewrite lookup_app_l by (rewrite length_insert; lia).
      by rewrite list_lookup_insert_ne.
  - intros a nd' Ha Hl.
    destruct (Hlook a nd' Hl) as [[-> ->]|(Hlt & nd0 & Hnd0 & Hi & Hp & _)].
    + exists x, node, pre. simpl. repeat split; [lia|by apply Hold|done].
    + rewrite Hi, Hp.
      destruct (inv_node _ _ _ Hs a nd0) as (x' & pa & pp & ? & ? & ? & ? & ?); [done..|].
      exists x', pa, pp. repeat split; try done; by apply Hold.
  - apply NoDup_app. split; [apply Hs|]. split; [|apply NoDup_singleton].
    intros p Hp ->%list_elem_of_singleton.
    apply list_elem_of_lookup in Hp as [b Hb]. by apply Hfresh in Hb.
  - intros a nd' p x' b Hnd' Hp.
    assert (Hrhs : (paths ++ [pre ++ [x]]) !! b = Some (p ++ [x']) ↔
                   paths !! b = Some (p ++ [x']) ∨
                   (b = length h ∧ p = pre ∧ x' = x)).
    { split.
      - intros Hb'. destruct (Hpath _ _ Hb') as [[_ Hb]|[-> Heq]]; [by left|].
        right. apply app_inj_tail in Heq as [-> ->]. done.
      - intros [Hb|(-> & -> & ->)]; [by apply Hold|done]. }
    rewrite Hrhs. clear Hrhs.
    destruct (Hlook a nd' Hnd') as [[-> ->]|(Hlt & nd0 & Hnd0 & _ & _ & _ & Heq & Hne)].
    + (* the new node has no children *)
      destruct (Hpath _ _ Hp) as [[Hlt _]|[_ ->]]; [lia|]. simpl. split; [done|].
      intros [Hb|(_ & Heq & _)].
      * apply Hclosed in Hb as [pb Hpb]. by apply Hfresh in Hpb.
      * apply (f_equal (@length _)) in Heq. rewrite length_app in Heq. simpl in Heq. lia.
    + destruct (Hpath _ _ Hp) as [[_ Hp']|[-> _]]; [|lia]. clear Hp. rename Hp' into Hp.
      destruct (decide (a = node)) as [->|Han].
      * destruct (Heq eq_refl) as [-> ->]. simpl.
        assert (p = pre) as -> by congruence.
        destruct (decide (x' = x)) as [->|Hx].
        -- rewrite dict_get_set_eq. split.
           ++ intros [= <-]. by right.
           ++ intros [Hb|(-> & _)]; [by apply Hfresh in Hb|done].
        -- rewrite dict_get_set_ne by done.
           rewrite (inv_children _ _ _ Hs node nd pre x' b Hnode Hpre).
           split; [by left|]. intros [Hb|(_ & _ & ->)]; done.
      * rewrite (Hne Han).
        rewrite (inv_children _ _ _ Hs a nd0 p x' b Hnd0 Hp).
        split; [by left|]. intros [Hb|(_ & -> & _)]; [done|].
        exfalso. apply Han.
        eapply NoDup_lookup; [apply (inv_nodup _ _ _ Hs)|done..].
  - intros a nd' p Ha Hnd' Hp. unfold bump.
    destruct (Hlook a nd' Hnd') as [[-> ->]|(Hlt & nd0 & Hnd0 & _ & _ & Hc & _)].
    + destruct (Hpath _ _ Hp) as [[Hlt _]|[_ ->]]; [lia|].
      rewrite decide_True by done. simpl. rewrite Hzero. lia.
    + destruct (Hpath _ _ Hp) as [[_ Hp']|[-> _]]; [|lia]. clear Hp. rename Hp' into Hp.
      rewrite decide_False by (intros ->; by apply Hfresh in Hp).
      rewrite Hc. by apply (inv_count _ _ _ Hs a).
  - intros p Hp Hpos. unfold bump in Hpos. apply elem_of_app.
    destruct (decide (p = pre ++ [x])) as [->|_].
    + right. by apply list_elem_of_singleton.
    + left. by apply (inv_complete _ _ _ Hs).
Qed.

Lemma sum_count_at_ext h h' (l : list nat) :
  (∀ a, a ∈ l → count_at h' a = count_at h a) →
  sum_list (count_at h' <$> l) = sum_list (count_at h <$> l).
Proof.
  induction l as [|a l IH]; intros H; csimpl; [done|].
  rewrite H by (by left). rewrite IH; [done|]. intros b Hb. apply H. by right.
Qed.

Lemma sum_count_at_update h c cn cn' k (l : list nat) :
  h !! c = Some cn → count cn' = count cn + k → NoDup l →
  sum_list (count_at (<[c := cn']> h) <$> l)
  = sum_list (count_at h <$> l) + (if decide (c ∈ l) then k else 0).
Proof.
  intros Hc Hk. induction l as [|a l IH]; intros Hnd; csimpl.
  { destruct (decide (c ∈ [])) as [Hin|_]; [by apply elem_of_nil in Hin|done]. }
  apply NoDup_cons in Hnd as [Ha Hnd]. rewrite IH by done.
  destruct (decide (a = c)) as [->|Hac].
  - assert (count_at (<[c := cn']> h) c = count cn') as ->.
    { unfold count_at. rewrite list_lookup_insert_eq; [done|]. by eapply lookup_lt_Some. }
    assert (count_at h c = count cn) as -> by (unfold count_at; by rewrite Hc).
    destruct (decide (c ∈ c :: l)) as [_|Hn]; [|exfalso; apply Hn; by left].
    destruct (decide (c ∈ l)); [done|]. lia.
  - assert (count_at (<[c := cn']> h) a = count_at h a) as ->.
    { unfold count_at. by rewrite list_lookup_insert_ne. }
    destruct (decide (c ∈ l)) as [Hin|Hnin].
    + destruct (decide (c ∈ a :: l)) as [_|Hn]; [lia|]. exfalso. apply Hn. by right.
    + destruct (decide (c ∈ a :: l)) as [[->|?]%elem_of_cons|_]; [done..|lia].
Qed.

(** Replacing a node by one with the same item and link, and a count that is
    [k] larger. *)
Lemma chains_update h hd occ occ' c cn cn' k :
  chains_inv h hd occ → h !! c = Some cn →
  item cn' = item cn → link cn' = link cn → count cn' = count cn + k →
  (∀ y, occ' y = occ y + (if decide (item cn = Some y) then k else 0)) →
  chains_inv (<[c := cn']> h) hd occ'.
Proof.
  intros Hch Hc Hi Hl Hk Hocc.
  assert (Hclt : c < length h) by (by eapply lookup_lt_Some).
  constructor; [|apply Hch].
  intros x. destruct (inv_chain _ _ _ Hch x) as (l & Hchain & Hnd & Hmem & Hsum).
  exists l. split; [|split; [done|split]].
  - eapply chain_frame; [|exact Hchain]. intros a nd _ Ha.
    destruct (decide (a = c)) as [->|Hac].
    + exists cn'. rewrite list_lookup_insert_eq by done. split; [done|]. congruence.
    + exists nd. by rewrite list_lookup_insert_ne.
  - intros a. rewrite Hmem. split.
    + intros (nd & Ha & Hia). destruct (decide (a = c)) as [->|Hac].
      * exists cn'. rewrite list_lookup_insert_eq by done. split; [done|]. congruence.
      * exists nd. by rewrite list_lookup_insert_ne.
    + intros (nd' & [(-> & <- & _)|(Hac & Ha)]%list_lookup_insert_Some & Hia).
      * exists cn. split; [done|]. congruence.
      * by exists nd'.
  - rewrite (sum_count_at_update h c cn cn' k) by done. rewrite Hsum, Hocc.
    f_equal. destruct (decide (c ∈ l)) as [Hin|Hnin].
    + apply Hmem in Hin as (nd & Hnd' & Hix). rewrite decide_True; [done|]. congruence.
    + rewrite decide_False; [done|]. intros Hix. apply Hnin, Hmem. by exists cn.
Qed.

(** A new node of item [x] is allocated at the end of the heap and linked
    at the end of the chain of [x]. *)
Lemma chains_extend h hd occ x hF hdF :
  chains_inv h hd occ →
  length hF = S (length h) →
  (∀ a nd0, h !! a = Some nd0 →
     ∃ nd', hF !! a = Some nd' ∧ item nd' = item nd0 ∧ count nd' = count nd0 ∧
            (item nd0 ≠ Some x → link nd' = link nd0)) →
  (∃ nn, hF !! length h = Some nn ∧ item nn = Some x ∧ count nn = 1) →
  (∀ y, y ≠ x → dict_get y hdF = dict_get y hd) →
  NoDup hdF.*1 →
  (∀ lx, chain h (dict_get x hd) lx → NoDup lx →
         (∀ a, a ∈ lx ↔ ∃ nd, h !! a = Some nd ∧ item nd = Some x) →
         chain hF (dict_get x hdF) (lx ++ [length h])) →
  chains_inv hF hdF (bump occ x).
Proof.
  intros Hch Hlen Hold (nn & Hnn & Hin & Hcn) Hhd Hnodup Hnewchain.
  assert (Hback : ∀ a nd', hF !! a = Some nd' → a ≠ length h →
    ∃ nd0, h !! a = Some nd0 ∧ item nd' = item nd0 ∧ count nd' = count nd0).
  { intros a nd' Ha Hne.
    assert (Hlt : a < length h) by (apply lookup_lt_Some in Ha; lia).
    destruct (lookup_lt_is_Some_2 _ _ Hlt) as [nd0 Hnd0].
    destruct (Hold a nd0 Hnd0) as (nd'' & Ha'' & Hi & Hc & _).
    exists nd0. assert (nd'' = nd') as -> by congruence. done. }
  assert (Hcount : ∀ a, a < length h → count_at hF a = count_at h a).
  { intros a Hlt. destruct (lookup_lt_is_Some_2 _ _ Hlt) as [nd0 Hnd0].
    destruct (Hold a nd0 Hnd0) as (nd' & Ha' & _ & Hc & _).
    unfold count_at. by rewrite Ha', Hnd0. }
  constructor; [|done].
  intros y. destruct (inv_chain _ _ _ Hch y) as (l & Hchain & Hnd & Hmem & Hsum).
  assert (Hllt : ∀ a, a ∈ l → a < length h).
  { intros a (nd & Ha & _)%Hmem. by eapply lookup_lt_Some. }
  destruct (decide (y = x)) as [->|Hyx].
  - exists (l ++ [length h]). split; [by apply Hnewchain|]. split; [|split].
    + apply NoDup_app. split; [done|]. split; [|apply NoDup_singleton].
      intros a Ha ->%list_elem_of_singleton. apply Hllt in Ha. lia.
    + intros a. rewrite elem_of_app, list_elem_of_singleton, Hmem. split.
      * intros [(nd0 & Ha & Hi)| ->].
        -- destruct (Hold a nd0 Ha) as (nd' & Ha' & Hi' & _). exists nd'.
           split; [done|]. congruence.
        -- by exists nn.
      * intros (nd' & Ha & Hi). destruct (decide (a = length h)) as [->|Hne]; [by right|].
        left. destruct (Hback a nd' Ha Hne) as (nd0 & Hnd0 & Hi0 & _).
        exists nd0. split; [done|]. congruence.
    + rewrite fmap_app, sum_list_with_app. csimpl.
      rewrite (sum_count_at_ext h hF) by (intros a Ha; apply Hcount; by apply Hllt).
      rewrite Hsum. unfold bump. rewrite decide_True by done.
      unfold count_at at 1. rewrite Hnn. simpl. lia.
  - exists l. split; [|split; [done|split]].
    + rewrite Hhd by done. eapply chain_frame; [|exact Hchain].
      intros a nd Ha Hnda. destruct (Hold a nd Hnda) as (nd' & Ha' & _ & _ & Hl).
      exists nd'. split; [done|]. apply Hl.
      apply Hmem in Ha as (nd1 & Hnd1 & Hi1). assert (nd1 = nd) as -> by congruence.
      congruence.
    + intros a. rewrite Hmem. split.
      * intros (nd0 & Ha & Hi). destruct (Hold a nd0 Ha) as (nd' & Ha' & Hi' & _).
        exists nd'. split; [done|]. congruence.
      * intros (nd' & Ha & Hi). destruct (decide (a = length h)) as [->|Hne].
        { congruence. }
        destruct (Hback a nd' Ha Hne) as (nd0 & Hnd0 & Hi0 & _).
        exists nd0. split; [done|]. congruence.
    + rewrite (sum_count_at_ext h hF) by (intros a Ha; apply Hcount; by apply Hllt).
      rewrite Hsum. unfold bump. by rewrite decide_False.
Qed.

(** The counters only matter pointwise. *)
Lemma shape_inv_ext h paths cnt cnt' :
  (∀ p, cnt p = cnt' p) → shape_inv h paths cnt → shape_inv h paths cnt'.
Proof.
  intros Heq Hs. constructor; try apply Hs.
  - intros a nd p Ha Hnd Hp. rewrite <- Heq. by apply (inv_count _ _ _ Hs a).
  - intros p Hp Hpos. rewrite <- Heq in Hpos. by apply (inv_complete _ _ _ Hs).
Qed.

Lemma chains_inv_ext h hd occ occ' :
  (∀ x, occ x = occ' x) → chains_inv h hd occ → chains_inv h hd occ'.
Proof.
  intros Heq Hc. constructor; [|apply Hc].
  intros x. destruct (inv_chain _ _ _ Hc x) as (l & ? & ? & ? & ?).
  exists l. rewrite <- Heq. done.
Qed.

Lemma tree_inv_ext t paths cnt cnt' occ occ' :
  (∀ p, cnt p = cnt' p) → (∀ x, occ x = occ' x) →
  tree_inv t paths cnt occ → tree_inv t paths cnt' occ'.
Proof.
  intros Hc Ho [Hs Hch]. split; [by eapply shape_inv_ext|by eapply chains_inv_ext].
Qed.

Lemma chain_app_r h nn s l : chain h s l → chain (h ++ [nn]) s l.
Proof.
  apply chain_frame. intros a nd _ Ha. exists nd. split; [|done].
  by apply lookup_app_l_Some.
Qed.

(** One round of the loop of [_insert]. *)
Lemma insert_item_inv t paths cnt occ node pre x :
  tree_inv t paths cnt occ → paths !! node = Some pre →
  ∃ t' node' paths',
    insert_item t node x = Some (t', node') ∧ freq t' = freq t ∧
    paths' !! node' = Some (pre ++ [x]) ∧
    tree_inv t' paths' (bump cnt (pre ++ [x])) (bump occ x).
Proof.
  intros [Hs Hc] Hpre.
  assert (Hnlt : node < length (heap t)).
  { rewrite <- (inv_length _ _ _ Hs). by eapply lookup_lt_Some. }
  destruct (lookup_lt_is_Some_2 _ _ Hnlt) as [nd Hnd].
  unfold insert_item. rewrite Hnd. simpl.
  destruct (dict_get x (children nd)) as [c|] eqn:Hg.
  - (* the child exists *)
    assert (Hpc : paths !! c = Some (pre ++ [x])).
    { by apply (inv_children _ _ _ Hs node nd pre x c Hnd Hpre). }
    assert (Hclt : c < length (heap t)).
    { rewrite <- (inv_length _ _ _ Hs). by eapply lookup_lt_Some. }
    destruct (lookup_lt_is_Some_2 _ _ Hclt) as [cn Hcn].
    rewrite Hcn. simpl.
    assert (Hcpos : 0 < c).
    { destruct c; [|lia]. destruct (inv_root _ _ _ Hs) as [H0 _].
      rewrite H0 in Hpc. by destruct pre. }
    assert (Hix : item cn = Some x).
    { destruct (inv_node _ _ _ Hs c cn) as (x' & pa & pp & Hi & _ & _ & _ & Hpx);
        [done..|].
      rewrite Hpc in Hpx. injection Hpx as Hpx. apply app_inj_tail in Hpx as [_ ->].
      done. }
    eexists _, c, paths. split; [done|]. split; [done|]. split; [done|].
    split; simpl.
    + apply (shape_increment _ _ _ c cn); [done..|by destruct pre].
    + apply (chains_update _ _ occ _ c cn (increment cn) 1); try done.
      intros y. unfold bump. rewrite Hix.
      destruct (decide (y = x)) as [->|Hne].
      * rewrite decide_True by done. lia.
      * rewrite decide_False; [lia|]. by intros [= ->].
  - (* a new child *)
    set (nd1 := set_children (dict_set x (length (heap t)) (children nd)) nd).
    set (nn := mkFPNode (Some x) 1 (Some node) [] None).
    set (h0 := <[node := nd1]> (heap t)).
    assert (Hlen0 : length h0 = length (heap t)) by apply length_insert.
    assert (Hshape : shape_inv (h0 ++ [nn]) (paths ++ [pre ++ [x]])
                       (bump cnt (pre ++ [x]))).
    { by apply shape_new_child. }
    assert (Hchains0 : chains_inv h0 (header t) occ).
    { apply (chains_update _ _ occ _ node nd nd1 0); try done.
      intros y. destruct (decide (item nd = Some y)); lia. }
    assert (Hpnew : (paths ++ [pre ++ [x]]) !! length (heap t) = Some (pre ++ [x])).
    { rewrite lookup_app_r by (rewrite (inv_length _ _ _ Hs); lia).
      by rewrite (inv_length _ _ _ Hs), Nat.sub_diag. }
    assert (Hnnlook : (h0 ++ [nn]) !! length h0 = Some nn).
    { rewrite lookup_app_r by lia. by rewrite Nat.sub_diag. }
    destruct (dict_get x (header t)) as [first|] eqn:Hh.
    + (* the chain of [x] gets a new last node *)
      destruct (inv_chain _ _ _ Hchains0 x) as (lx & Hch & Hndl & Hmem & _).
      rewrite Hh in Hch.
      assert (Hfuel : length lx ≤ length (h0 ++ [nn])).
      { rewrite length_app. simpl. pose proof (chain_length _ _ _ Hch Hndl). lia. }
      destruct (chain_last_spec (h0 ++ [nn]) first lx _ (chain_app_r _ nn _ _ Hch) Hfuel)
        as (b & ndb & Hlast & Hlastb & Hb & Hlb).
      rewrite Hlast. simpl. rewrite Hb. simpl.
      assert (Hbin : b ∈ lx) by (by apply last_Some_elem_of).
      assert (Hb0 : h0 !! b = Some ndb ∧ item ndb = Some x).
      { apply Hmem in Hbin as (nd' & Hnd' & Hi').
        rewrite (lookup_app_l_Some _ _ _ _ Hnd') in Hb. by simplify_eq. }
      destruct Hb0 as [Hb0 Hib].
      assert (Hblt : b < length h0) by (by eapply lookup_lt_Some).
      eexists _, (length (heap t)), (paths ++ [pre ++ [x]]).
      split; [done|]. split; [done|]. split; [done|]. split; simpl.
      * by apply shape_set_link.
      * rewrite insert_app_l by done. rewrite <- Hlen0.
        apply (chains_extend h0 (header t) occ x); try done.
        -- rewrite length_app, length_insert. simpl. lia.
        -- intros a nd0 Ha. destruct (decide (a = b)) as [->|Hab].
           ++ exists (set_link (Some (length h0)) ndb).
              assert (nd0 = ndb) as -> by congruence.
              split; [|by repeat split].
              rewrite lookup_app_l by (by rewrite length_insert).
              by apply list_lookup_insert_eq.
           ++ exists nd0. split; [|done].
              apply lookup_app_l_Some. by rewrite list_lookup_insert_ne.
        -- exists nn. split; [|done].
           rewrite lookup_app_r by (rewrite length_insert; lia).
           by rewrite length_insert, Nat.sub_diag.
        -- apply Hc.
        -- intros lx' Hch' Hnd' Hmem'. rewrite Hh in Hch' |- *.
           assert (Hfuel' : length lx' ≤ length (h0 ++ [nn])).
           { rewrite length_app. simpl. pose proof (chain_length _ _ _ Hch' Hnd'). lia. }
           destruct (chain_last_spec (h0 ++ [nn]) first lx' _
                       (chain_app_r _ nn _ _ Hch') Hfuel')
             as (b' & ndb' & Hlast' & Hlastb' & _ & _).
           assert (b' = b) as -> by congruence.
           by eapply chain_snoc.
    + (* the first node of the chain of [x] *)
      eexists _, (length (heap t)), (paths ++ [pre ++ [x]]).
      split; [done|]. split; [done|]. split; [done|]. split; simpl; [done|].
      rewrite <- Hlen0.
      apply (chains_extend h0 (header t) occ x); try done.
      * rewrite length_app. simpl. lia.
      * intros a nd0 Ha. exists nd0. split; [|done]. by apply lookup_app_l_Some.
      * by exists nn.
      * intros y Hy. by apply dict_get_set_ne.
      * apply dict_set_keys_NoDup, Hc.
      * intros lx' Hch' _ _. rewrite Hh in Hch'. inversion Hch'; subst.
        rewrite dict_get_set_eq. simpl. econstructor; [exact Hnnlook|]. constructor.
Qed.

(** *** What a tree records about the inserted transactions *)

Lemma walked_snoc ss s p : walked (ss ++ [s]) p = walked ss p + path_hits [] s p.
Proof. unfold walked. rewrite fmap_app, sum_list_with_app. csimpl. lia. Qed.

Lemma inserted_snoc ss s x : inserted (ss ++ [s]) x = inserted ss x + count_of s x.
Proof. unfold inserted. rewrite fmap_app, sum_list_with_app. csimpl. lia. Qed.

(** The loop of [_insert]. *)
Lemma insert_from_inv items : ∀ t paths cnt occ node pre,
  tree_inv t paths cnt occ → paths !! node = Some pre →
  ∃ t' paths', insert_from t node items = Some t' ∧ freq t' = freq t ∧
    tree_inv t' paths' (λ p, cnt p + path_hits pre items p)
                       (λ y, occ y + count_of items y).
Proof.
  induction items as [|x items IH]; intros t paths cnt occ node pre Hinv Hpre.
  - exists t, paths. split; [done|]. split; [done|].
    eapply tree_inv_ext; [| |exact Hinv]; intros; simpl; lia.
  - destruct (insert_item_inv t paths cnt occ node pre x Hinv Hpre)
      as (t1 & node1 & paths1 & Hins & Hfr & Hp1 & Hinv1).
    destruct (IH t1 paths1 _ _ node1 (pre ++ [x]) Hinv1 Hp1)
      as (t' & paths' & Hins' & Hfr' & Hinv').
    exists t', paths'. split; [|split; [congruence|]].
    { simpl. rewrite Hins. simpl. exact Hins'. }
    eapply tree_inv_ext; [| |exact Hinv'].
    + intros p. simpl. unfold bump. destruct (decide (p = pre ++ [x])); lia.
    + intros y. simpl. unfold bump.
      destruct (decide (x = y)) as [->|Hne].
      * rewrite decide_True by done. lia.
      * rewrite decide_False by done. lia.
Qed.

Lemma build_loop_inv trs : ∀ t paths ss,
  tree_inv t paths (walked ss) (inserted ss) →
  ∃ t' paths', build_loop t trs = Some t' ∧ freq t' = freq t ∧
    tree_inv t' paths' (walked (ss ++ (filter_and_sort (freq t) <$> trs)))
                       (inserted (ss ++ (filter_and_sort (freq t) <$> trs))).
Proof.
  induction trs as [|tr trs IH]; intros t paths ss Hinv.
  { exists t, paths. simpl. by rewrite app_nil_r. }
  assert (Hstep : ∃ t1 paths1,
    (if filter_and_sort (freq t) tr is [] then Some t
     else _insert t (filter_and_sort (freq t) tr)) = Some t1 ∧
    freq t1 = freq t ∧
    tree_inv t1 paths1 (walked (ss ++ [filter_and_sort (freq t) tr]))
                       (inserted (ss ++ [filter_and_sort (freq t) tr]))).
  { destruct (filter_and_sort (freq t) tr) as [|x s] eqn:Hf.
    - exists t, paths. split; [done|]. split; [done|].
      eapply tree_inv_ext; [| |exact Hinv].
      + intros p. rewrite walked_snoc. simpl. lia.
      + intros y. rewrite inserted_snoc. simpl. lia.
    - destruct (inv_root _ _ _ (proj1 Hinv)) as [H0 _].
      destruct (insert_from_inv (x :: s) t paths _ _ root [] Hinv H0)
        as (t1 & paths1 & Hins & Hfr & Hinv1).
      exists t1, paths1. split; [done|]. split; [done|].
      eapply tree_inv_ext; [| |exact Hinv1].
      + intros p. by rewrite walked_snoc.
      + intros y. by rewrite inserted_snoc. }
  destruct Hstep as (t1 & paths1 & Hstep & Hfr1 & Hinv1).
  destruct (IH t1 paths1 _ Hinv1) as (t' & paths' & Hb & Hfr' & Hinv').
  exists t', paths'. split; [|split; [congruence|]].
  { change (build_loop t (tr :: trs)) with
      (t' ← (if filter_and_sort (freq t) tr is [] then Some t
             else _insert t (filter_and_sort (freq t) tr));
       build_loop t' trs).
    rewrite Hstep. simpl. exact Hb. }
  rewrite Hfr1 in Hinv'. rewrite <- app_assoc in Hinv'. exact Hinv'.
Qed.

Lemma empty_tree_inv (fr : list (string * nat)) :
  tree_inv (mkFPTree (heap empty_tree) (header empty_tree) fr) [[]]
           (walked []) (inserted []).
Proof.
  split; simpl.
  - constructor; simpl.
    + done.
    + split; [done|]. by eexists.
    + intros [|a] nd Ha Hl; [lia|done].
    + apply NoDup_singleton.
    + intros [|a] nd p x b Hl Hp; [|done]. simpl in *. simplify_eq. simpl.
      split; [done|]. destruct b; simpl; [|done]. by intros [= ?].
    + intros [|a] nd p Ha Hl; [lia|done].
    + intros p _ Hpos. unfold walked in Hpos. simpl in Hpos. lia.
  - constructor; simpl; [|constructor].
    intros x. exists []. split; [constructor|]. split; [constructor|].
    split; [|done]. intros a. split; [by intros ?%elem_of_nil|].
    intros (nd & Hl & Hi). destruct a; simpl in Hl; [|done].
    by simplify_eq.
Qed.

(** [FPTree(transactions, min_support)] returns a tree that satisfies the
    invariant for the filtered and sorted transactions. *)
Lemma new_FPTree_inv (transactions : list (list string)) (min_support : nat) :
  ∃ t paths,
    new_FPTree transactions min_support = Some t ∧
    freq t = frequencies transactions min_support ∧
    tree_inv t paths (walked (sorted_transactions transactions min_support))
                     (inserted (sorted_transactions transactions min_support)).
Proof.
  unfold new_FPTree, _build.
  destruct (build_loop_inv transactions _ [[]] [] (empty_tree_inv
              (frequencies transactions min_support)))
    as (t & paths & Hb & Hfr & Hinv).
  exists t, paths. split; [exact Hb|]. split; [exact Hfr|]. exact Hinv.
Qed.

(** ** The frequency table *)

Lemma freq_table_ext fr f g : (∀ x, f x = g x) → freq_table fr f → freq_table fr g.
Proof. intros Heq [Hnd Hl]. split; [done|]. intros x. by rewrite <- Heq. Qed.

Lemma count_item_table fr f x :
  freq_table fr f → freq_table (count_item fr x) (bump f x).
Proof.
  intros [Hnd Hl]. unfold count_item. split; [by apply dict_set_keys_NoDup|].
  intros y. unfold bump. destruct (decide (y = x)) as [->|Hne].
  - rewrite dict_get_set_eq, Hl.
    destruct (decide (S (f x) = 0)) as [|_]; [lia|].
    destruct (decide (f x = 0)) as [->|]; simpl; f_equal; lia.
  - by rewrite dict_get_set_ne.
Qed.

Lemma count_items_table t : ∀ fr f,
  freq_table fr f → freq_table (foldl count_item fr t) (λ y, f y + count_of t y).
Proof.
  induction t as [|x t IH]; intros fr f Hfr; simpl.
  - eapply freq_table_ext; [|exact Hfr]. intros; simpl; lia.
  - eapply freq_table_ext; [|apply IH, count_item_table, Hfr].
    intros y. simpl. unfold bump. destruct (decide (x = y)) as [->|Hne].
    + rewrite decide_True by done. lia.
    + rewrite decide_False by done. lia.
Qed.

Lemma count_frequencies_table ts : freq_table (count_frequencies ts) (inserted ts).
Proof.
  unfold count_frequencies.
  assert (H : ∀ fr f, freq_table fr f →
    freq_table (foldl (foldl count_item) fr ts) (λ y, f y + inserted ts y)).
  { induction ts as [|t ts IH]; intros fr f Hfr; simpl.
    - eapply freq_table_ext; [|exact Hfr]. intros y. unfold inserted. simpl. lia.
    - eapply freq_table_ext; [|apply IH, count_items_table, Hfr].
      intros y. unfold inserted. csimpl. lia. }
  eapply freq_table_ext; [|apply (H [] (λ _, 0))].
  - done.
  - split; [constructor|done].
Qed.

Lemma dict_get_filter (P : string * nat → Prop) `{∀ kv, Decision (P kv)}
    (fr : list (string * nat)) (x : string) :
  NoDup fr.*1 →
  dict_get x (filter P fr)
  = match dict_get x fr with
    | Some v => if decide (P (x, v)) then Some v else None
    | None => None
    end.
Proof.
  induction fr as [|[k v] fr IH]; intros Hnd; [done|].
  apply NoDup_cons in Hnd as [Hk Hnd]. rewrite filter_cons. simpl.
  destruct (decide (x = k)) as [->|Hne].
  - destruct (decide (P (k, v))) as [HP|HP]; simpl.
    + by rewrite decide_True.
    + apply dict_get_None. intros (kv & Hkv & Hin)%list_elem_of_fmap.
      apply list_elem_of_filter in Hin as [_ Hin]. apply Hk.
      apply list_elem_of_fmap. by exists kv.
  - destruct (decide (P (k, v))); simpl; [rewrite decide_False by done|]; by apply IH.
Qed.

(** The frequency table of a tree: the items that occur at least
    [min_support] times, with the number of their occurrences. *)
Lemma frequencies_lookup ts m x :
  dict_get x (frequencies ts m)
  = if decide (0 < inserted ts x ∧ m ≤ inserted ts x) then Some (inserted ts x)
    else None.
Proof.
  destruct (count_frequencies_table ts) as [Hnd Hl].
  unfold frequencies. rewrite dict_get_filter by done. rewrite Hl. simpl.
  destruct (decide (inserted ts x = 0)) as [Hz|Hnz].
  - rewrite decide_False; [done|]. lia.
  - destruct (decide (m ≤ inserted ts x)).
    + rewrite decide_True; [done|]. lia.
    + rewrite decide_False; [done|]. lia.
Qed.

Lemma inserted_perm ts ts' x : ts ≡ₚ ts' → inserted ts x = inserted ts' x.
Proof. intros Hp. unfold inserted. by rewrite Hp. Qed.

Lemma walked_perm ss ss' p : ss ≡ₚ ss' → walked ss p = walked ss' p.
Proof. intros Hp. unfold walked. by rewrite Hp. Qed.

Lemma frequencies_perm ts ts' m x :
  ts ≡ₚ ts' → dict_get x (frequencies ts m) = dict_get x (frequencies ts' m).
Proof. intros Hp. by rewrite !frequencies_lookup, (inserted_perm ts ts' x Hp). Qed.

(** Filtering and sorting a transaction only looks the items up. *)
Lemma filter_and_sort_ext fr fr' tr :
  (∀ x, dict_get x fr = dict_get x fr') →
  filter_and_sort fr tr = filter_and_sort fr' tr.
Proof.
  intros Heq. unfold filter_and_sort.
  rewrite (list_filter_iff _ (λ it, is_Some (dict_get it fr')))
    by (intros x; by rewrite Heq).
  apply sorted_ext. intros a b _ _. unfold key_le. by rewrite !Heq.
Qed.

Lemma sorted_transactions_perm ts ts' m :
  ts ≡ₚ ts' → sorted_transactions ts m ≡ₚ sorted_transactions ts' m.
Proof.
  intros Hp. unfold sorted_transactions.
  transitivity (filter_and_sort (frequencies ts m) <$> ts').
  { by apply fmap_Permutation. }
  assert (Heq : filter_and_sort (frequencies ts m) <$> ts'
                = filter_and_sort (frequencies ts' m) <$> ts').
  { apply list_fmap_ext. intros i tr _.
    apply filter_and_sort_ext. intros x. by apply frequencies_perm. }
  by rewrite Heq.
Qed.

(** ** Mining *)

Lemma operm_trans {B : Type} (o1 o2 o3 : option (list B)) :
  operm o1 o2 → operm o2 o3 → operm o1 o3.
Proof.
  intros (r1 & r2 & -> & -> & H12) (r2' & r3 & [= <-] & -> & H23).
  exists r1, r3. split; [done|]. split; [done|]. by etrans.
Qed.

Section for_extend_facts.
Context {A B : Type}.
Implicit Types (f g : A → option (list B)) (l : list A).

Lemma for_extend_cons f x l :
  for_extend f (x :: l) = r ← f x; rest ← for_extend f l; Some (r ++ rest).
Proof. reflexivity. Qed.

Lemma for_extend_pointwise f g l :
  (∀ x, x ∈ l → operm (f x) (g x)) → operm (for_extend f l) (for_extend g l).
Proof.
  induction l as [|x l IH]; intros H.
  { exists [], []. by repeat split. }
  destruct (H x) as (r & r' & Hf & Hg & Hr); [by left|].
  destruct IH as (s & s' & Hfs & Hgs & Hs); [intros y Hy; apply H; by right|].
  exists (r ++ s), (r' ++ s'). rewrite !for_extend_cons, Hf, Hg. simpl.
  rewrite Hfs, Hgs. simpl. split; [done|]. split; [done|]. by apply Permutation_app.
Qed.

Lemma for_extend_permutation g l l' r :
  l ≡ₚ l' → for_extend g l = Some r →
  ∃ r', for_extend g l' = Some r' ∧ r ≡ₚ r'.
Proof.
  intros Hp. revert r. induction Hp as [|x l l' Hp IH|x y l|l1 l2 l3 _ IH1 _ IH2];
    intros r Hr.
  - by exists r.
  - rewrite for_extend_cons in Hr. destruct (g x) as [rx|] eqn:Hx; [|done].
    simpl in Hr. destruct (for_extend g l) as [s|] eqn:Hs; [|done].
    simpl in Hr. injection Hr as <-.
    destruct (IH s eq_refl) as (s' & Hs' & Hss).
    exists (rx ++ s'). rewrite for_extend_cons, Hx. simpl. rewrite Hs'. simpl.
    split; [done|]. by apply Permutation_app.
  - rewrite !for_extend_cons in Hr. destruct (g y) as [ry|] eqn:Hy; [|done].
    simpl in Hr. destruct (g x) as [rx|] eqn:Hx; [|done].
    simpl in Hr. destruct (for_extend g l) as [s|] eqn:Hs; [|done].
    simpl in Hr. injection Hr as <-.
    exists (rx ++ ry ++ s). rewrite !for_extend_cons, Hx. simpl. rewrite Hy. simpl.
    rewrite Hs. simpl. split; [done|].
    rewrite !app_assoc. apply Permutation_app; [|done]. apply Permutation_app_comm.
  - destruct (IH1 r Hr) as (r2 & Hr2 & H12).
    destruct (IH2 r2 Hr2) as (r3 & Hr3 & H23).
    exists r3. split; [done|]. by etrans.
Qed.

Lemma for_extend_ext f g l :
  (∀ x, x ∈ l → f x = g x) → for_extend f l = for_extend g l.
Proof.
  induction l as [|x l IH]; intros H; [done|].
  rewrite !for_extend_cons, H by (by left).
  rewrite IH; [done|]. intros y Hy. apply H. by right.
Qed.

Lemma for_extend_elem_of f l r e :
  for_extend f l = Some r →
  (e ∈ r ↔ ∃ x rx, x ∈ l ∧ f x = Some rx ∧ e ∈ rx).
Proof.
  revert r. induction l as [|x l IH]; intros r Hr.
  { injection Hr as <-. split; [by intros ?%elem_of_nil|].
    by intros (x & rx & ?%elem_of_nil & _). }
  rewrite for_extend_cons in Hr. destruct (f x) as [rx|] eqn:Hx; [|done].
  simpl in Hr. destruct (for_extend f l) as [s|] eqn:Hs; [|done].
  simpl in Hr. injection Hr as <-. rewrite elem_of_app, (IH s eq_refl). split.
  - intros [He|(y & ry & Hy & Hfy & He)].
    + exists x, rx. split; [by left|done].
    + exists y, ry. split; [by right|done].
  - intros (y & ry & [->|Hy]%elem_of_cons & Hfy & He).
    + left. by simplify_eq.
    + right. by exists y, ry.
Qed.
End for_extend_facts.

Lemma for_extend_fmap {A B C : Type} (h : A → C) (g : C → option (list B))
    (l : list A) :
  for_extend (λ x, g (h x)) l = for_extend g (h <$> l).
Proof.
  induction l as [|x l IH]; [done|].
  rewrite fmap_cons, !for_extend_cons. by rewrite IH.
Qed.

(** *** Paths that are walked are prefixes of an inserted sequence *)

Lemma path_hits_length pre s p : 0 < path_hits pre s p → length p ≤ length pre + length s.
Proof.
  revert pre. induction s as [|x s IH]; intros pre; simpl; [lia|].
  destruct (decide (p = pre ++ [x])) as [->|_].
  - intros _. rewrite length_app. simpl. lia.
  - intros H. apply IH in H. rewrite length_app in H. simpl in H. lia.
Qed.

Lemma walked_length ss p :
  0 < walked ss p → ∃ s, s ∈ ss ∧ length p ≤ length s.
Proof.
  unfold walked. induction ss as [|s ss IH]; csimpl; [lia|].
  intros H. destruct (decide (0 < path_hits [] s p)) as [Hs|Hs].
  - exists s. split; [by left|]. by apply path_hits_length in Hs.
  - destruct IH as (s' & Hin & Hl); [lia|]. exists s'. split; [by right|done].
Qed.

Lemma filter_and_sort_length fr tr : length (filter_and_sort fr tr) ≤ length tr.
Proof.
  unfold filter_and_sort. rewrite (Permutation_length (sorted_perm _ _)).
  apply length_filter.
Qed.

(** The paths of the tree of [transactions] are at most as long as the
    longest transaction. *)
Lemma sorted_transactions_depth ts m bound p :
  (∀ tr, tr ∈ ts → length tr ≤ bound) →
  0 < walked (sorted_transactions ts m) p → length p ≤ bound.
Proof.
  intros Hb (s & Hs & Hl)%walked_length.
  apply list_elem_of_fmap in Hs as (tr & -> & Htr).
  pose proof (filter_and_sort_length (frequencies ts m) tr).
  specialize (Hb tr Htr). lia.
Qed.

(** *** Trees that record the same insertions are mined alike *)

Lemma operm_nil {B : Type} : operm (Some ([] : list B)) (Some []).
Proof. exists [], []. split; [done|]. split; [done|]. constructor. Qed.

Lemma new_FPTree_same_record ts ts' m bound :
  ts ≡ₚ ts' → (∀ tr, tr ∈ ts → length tr ≤ bound) →
  ∃ t t', new_FPTree ts m = Some t ∧ new_FPTree ts' m = Some t' ∧
          same_record t t' bound.
Proof.
  intros Hp Hb.
  destruct (new_FPTree_inv ts m) as (t & paths & Ht & Hfr & Hinv).
  destruct (new_FPTree_inv ts' m) as (t' & paths' & Ht' & Hfr' & Hinv').
  exists t, t'. split; [done|]. split; [done|].
  exists paths, paths', (walked (sorted_transactions ts m)),
    (walked (sorted_transactions ts' m)), (inserted (sorted_transactions ts m)),
    (inserted (sorted_transactions ts' m)).
  split; [exact Hinv|]. split; [exact Hinv'|].
  pose proof (sorted_transactions_perm ts ts' m Hp) as Hsp.
  split; [intros p; by apply walked_perm|].
  split; [intros x; by apply inserted_perm|].
  split; [intros x; rewrite Hfr, Hfr'; by apply frequencies_perm|].
  intros p. by apply sorted_transactions_depth.
Qed.

Lemma is_empty_same t t' bound :
  same_record t t' bound → ∃ b, is_empty t = Some b ∧ is_empty t' = Some b.
Proof.
  intros (paths & paths' & cnt & cnt' & occ & occ' & Hinv & Hinv' & Hc & _).
  destruct (is_empty_spec t paths cnt occ Hinv) as (b & Hb & Hbs).
  destruct (is_empty_spec t' paths' cnt' occ' Hinv') as (b' & Hb' & Hbs').
  exists b. split; [done|]. rewrite Hb'. f_equal.
  destruct b, b'; try done.
  - apply Hbs'. intros x. rewrite <- Hc. by apply Hbs.
  - symmetry. apply Hbs. intros x. rewrite Hc. by apply Hbs'.
Qed.

Lemma mine_conditional_operm R m itemset cts cts' bound :
  cts ≡ₚ cts' → (∀ tr, tr ∈ cts → length tr ≤ bound) →
  (∀ tc tc', same_record tc tc' bound → operm (R tc itemset) (R tc' itemset)) →
  operm (mine_conditional R m itemset cts) (mine_conditional R m itemset cts').
Proof.
  intros Hp Hb HR.
  destruct (new_FPTree_same_record cts cts' m bound Hp Hb) as (tc & tc' & Ht & Ht' & Hsame).
  destruct (is_empty_same _ _ _ Hsame) as (b & He & He').
  destruct cts as [|tr cts].
  { apply Permutation_nil_l in Hp as <-. apply operm_nil. }
  destruct cts' as [|tr' cts'].
  { by apply Permutation_nil_r in Hp. }
  unfold mine_conditional. rewrite Ht, Ht'. simpl. rewrite He, He'. simpl.
  destruct b; [apply operm_nil|]. by apply HR.
Qed.

Lemma mine_item_operm R m prefix t t' bound x a a' :
  same_record t t' bound →
  dict_get x (header t) = Some a → dict_get x (header t') = Some a' →
  (0 < bound → ∀ itemset tc tc', same_record tc tc' (bound - 1) →
     operm (R tc itemset) (R tc' itemset)) →
  operm (mine_item R t m prefix (x, a)) (mine_item R t' m prefix (x, a')).
Proof.
  intros (paths & paths' & cnt & cnt' & occ & occ' & Hinv & Hinv' & Hc & Ho & _ & Hd)
    Ha Ha' HR.
  unfold mine_item. simpl.
  rewrite <- Ha, <- Ha'.
  rewrite (chain_support_header t paths cnt occ Hinv x).
  rewrite (chain_support_header t' paths' cnt' occ' Hinv' x). simpl.
  rewrite <- Ho. destruct (occ x <? m); [apply operm_nil|].
  destruct (conditional_pattern_base_spec t paths cnt occ Hinv x) as (cpb & Hcpb & Hcount).
  destruct (conditional_pattern_base_spec t' paths' cnt' occ' Hinv' x)
    as (cpb' & Hcpb' & Hcount').
  rewrite Hcpb, Hcpb'. simpl.
  assert (Hp : expand_patterns cpb ≡ₚ expand_patterns cpb').
  { apply (Permutation_count_occ (λ x y : list string, decide (x = y))).
    intros q. rewrite Hcount, Hcount'. destruct (decide (q = [])); [done|apply Hc]. }
  assert (Hlen : ∀ tr, tr ∈ expand_patterns cpb → 0 < bound ∧ length tr ≤ bound - 1).
  { intros tr Htr%list_elem_of_In.
    apply (count_occ_In (λ x y : list string, decide (x = y))) in Htr.
    rewrite Hcount in Htr. destruct (decide (tr = [])); [lia|].
    assert (Hl : length (tr ++ [x]) ≤ bound) by (apply Hd; lia).
    rewrite length_app in Hl. simpl in Hl. lia. }
  assert (Hsub : operm
    (mine_conditional R m (prefix ∪ {[x]}) (expand_patterns cpb))
    (mine_conditional R m (prefix ∪ {[x]}) (expand_patterns cpb'))).
  { destruct (expand_patterns cpb) as [|tr cts] eqn:Hcts.
    - apply Permutation_nil_l in Hp as <-. apply operm_nil.
    - destruct (Hlen tr) as [Hpos _]; [by left|].
      apply (mine_conditional_operm _ _ _ _ _ (bound - 1)); [done| |].
      + intros tr' Htr'. by apply Hlen.
      + intros tc tc'. by apply HR. }
  destruct Hsub as (s & s' & -> & -> & Hs). simpl.
  eexists _, _. split; [done|]. split; [done|]. by constructor.
Qed.

Lemma header_order_keys t : (header_order t).*1 ≡ₚ (header t).*1.
Proof. unfold header_order. apply fmap_Permutation, sorted_perm. Qed.

Lemma header_entry t paths cnt occ x a :
  tree_inv t paths cnt occ → (x, a) ∈ header t → dict_get x (header t) = Some a.
Proof. intros [_ Hc]. apply dict_get_elem, Hc. Qed.

(** The result of mining, up to the order of the itemsets, only depends on
    what the tree records; with fuel above the longest path, mining
    returns. *)
Lemma fpgrowth_mine_operm fuel : ∀ bound t t' m prefix,
  same_record t t' bound → bound < fuel →
  operm (fpgrowth_mine fuel t m prefix) (fpgrowth_mine fuel t' m prefix).
Proof.
  induction fuel as [|fuel IH]; intros bound t t' m prefix Hsame Hfuel; [lia|].
  set (R := λ ct ni, fpgrowth_mine fuel ct m ni).
  change (operm (for_extend (mine_item R t m prefix) (header_order t))
                (for_extend (mine_item R t' m prefix) (header_order t'))).
  pose proof Hsame as
    (paths & paths' & cnt & cnt' & occ & occ' & Hinv & Hinv' & Hc & Ho & Hfr & Hd).
  set (G := λ x, mine_item R t m prefix (x, default 0 (dict_get x (header t)))).
  set (G' := λ x, mine_item R t' m prefix (x, default 0 (dict_get x (header t')))).
  assert (HG : for_extend (mine_item R t m prefix) (header_order t)
               = for_extend G (header_order t).*1).
  { rewrite <- for_extend_fmap. apply for_extend_ext. intros [x a] Hin.
    apply elem_of_sorted in Hin. unfold G. simpl.
    by rewrite (header_entry _ _ _ _ _ _ Hinv Hin). }
  assert (HG' : for_extend (mine_item R t' m prefix) (header_order t')
                = for_extend G' (header_order t').*1).
  { rewrite <- for_extend_fmap. apply for_extend_ext. intros [x a] Hin.
    apply elem_of_sorted in Hin. unfold G'. simpl.
    by rewrite (header_entry _ _ _ _ _ _ Hinv' Hin). }
  rewrite HG, HG'.
  assert (Hkeys : (header_order t).*1 ≡ₚ (header_order t').*1).
  { rewrite !header_order_keys. apply NoDup_Permutation.
    - apply Hinv.
    - apply Hinv'.
    - intros x. rewrite (header_keys _ _ _ _ Hinv), (header_keys _ _ _ _ Hinv').
      by rewrite Ho. }
  assert (Hpt : operm (for_extend G (header_order t).*1)
                      (for_extend G' (header_order t).*1)).
  { apply for_extend_pointwise. intros x Hx. rewrite header_order_keys in Hx.
    assert (Hx' : x ∈ (header t').*1).
    { apply (header_keys _ _ _ _ Hinv'). rewrite <- Ho.
      by apply (header_keys _ _ _ _ Hinv). }
    destruct (dict_get x (header t)) as [a|] eqn:Ha;
      [|by apply dict_get_None in Ha].
    destruct (dict_get x (header t')) as [a'|] eqn:Ha';
      [|by apply dict_get_None in Ha'].
    unfold G, G'. rewrite Ha, Ha'. simpl.
    apply (mine_item_operm R m prefix t t' bound); [done..|].
    intros Hpos itemset tc tc' Hsc. unfold R. apply (IH (bound - 1)); [done|lia]. }
  destruct Hpt as (r & r1 & Hr & Hr1 & Hrr1).
  destruct (for_extend_permutation G' _ _ r1 Hkeys Hr1) as (r' & Hr' & Hr1r').
  exists r, r'. split; [done|]. split; [done|]. by etrans.
Qed.

(** *** The supports that are mined *)

Lemma mine_conditional_counts R m itemset cts sub e :
  (∀ tc ni r, R tc ni = Some r → ∀ e, e ∈ r → m ≤ e.2) →
  mine_conditional R m itemset cts = Some sub → e ∈ sub → m ≤ e.2.
Proof.
  intros HR. unfold mine_conditional. destruct cts as [|tr cts].
  { intros [= <-] ?%elem_of_nil. done. }
  destruct (new_FPTree (tr :: cts) m) as [tc|]; [|done]. simpl.
  destruct (is_empty tc) as [[|]|]; simpl; [|by eauto|done].
  intros [= <-] ?%elem_of_nil. done.
Qed.

(** What one round of the loop of [fpgrowth_mine] appends. *)
Lemma mine_item_Some R t m prefix entry rx :
  mine_item R t m prefix entry = Some rx →
  ∃ s, chain_support (length (heap t)) (heap t) (Some entry.2) = Some s ∧
    ((s < m ∧ rx = []) ∨
     (m ≤ s ∧ ∃ cpb sub,
        conditional_pattern_base t entry.1 = Some cpb ∧
        mine_conditional R m (prefix ∪ {[entry.1]}) (expand_patterns cpb) = Some sub ∧
        rx = (prefix ∪ {[entry.1]}, s) :: sub)).
Proof.
  unfold mine_item.
  destruct (chain_support _ _ _) as [s|]; [|done]. simpl.
  intros H. exists s. split; [done|].
  destruct (s <? m) eqn:Hs.
  - apply Nat.ltb_lt in Hs. left. split; [done|]. by injection H as <-.
  - apply Nat.ltb_ge in Hs. right. split; [done|].
    destruct (conditional_pattern_base t entry.1) as [cpb|]; [|done]. simpl in H.
    destruct (mine_conditional _ _ _ _) as [sub|] eqn:Hsub; [|done]. simpl in H.
    injection H as <-. by exists cpb, sub.
Qed.

Lemma mine_item_counts R t m prefix entry rx e :
  (∀ tc ni r, R tc ni = Some r → ∀ e, e ∈ r → m ≤ e.2) →
  mine_item R t m prefix entry = Some rx → e ∈ rx → m ≤ e.2.
Proof.
  intros HR (s & _ & [[_ ->]|(Hs & cpb & sub & _ & Hsub & ->)])%mine_item_Some.
  { by intros ?%elem_of_nil. }
  intros [->|He]%elem_of_cons; [done|]. by eapply mine_conditional_counts.
Qed.

(** Every mined itemset has a support count of at least [min_support]. *)
Lemma fpgrowth_mine_counts fuel : ∀ t m prefix raw,
  fpgrowth_mine fuel t m prefix = Some raw → ∀ e, e ∈ raw → m ≤ e.2.
Proof.
  induction fuel as [|fuel IH]; intros t m prefix raw Hraw e He; [discriminate Hraw|].
  change (fpgrowth_mine (S fuel) t m prefix) with
    (for_extend (mine_item (λ ct ni, fpgrowth_mine fuel ct m ni) t m prefix)
       (header_order t)) in Hraw.
  apply (for_extend_elem_of _ _ _ e Hraw) in He as (entry & rx & _ & Hrx & He).
  eapply mine_item_counts; [|exact Hrx|exact He].
  intros tc ni r Hr. exact (IH tc m ni r Hr).
Qed.

(** *** The result loop *)

Lemma result_loop_spec raw n max_len :
  n ≠ 0 → result_loop raw n max_len = Some (omap (result_entry n max_len) raw).
Proof.
  intros Hn. induction raw as [|[itemset c] raw IH]; [done|].
  rewrite omap_cons_eq. unfold result_entry at 1. simpl.
  destruct (Z.of_nat (size itemset) <=? max_len)%Z; [|done].
  rewrite decide_False by done. by rewrite IH.
Qed.

Lemma max_list_perm (l l' : list nat) : l ≡ₚ l' → max_list l = max_list l'.
Proof. induction 1; simpl; lia. Qed.

Lemma recursion_depth_perm (ts ts' : list (list string)) :
  ts ≡ₚ ts' → recursion_depth ts = recursion_depth ts'.
Proof.
  intros Hp. unfold recursion_depth. f_equal. apply max_list_perm.
  by apply fmap_Permutation.
Qed.

Lemma recursion_depth_bound (ts : list (list string)) (tr : list string) :
  tr ∈ ts → length tr ≤ max_list (length <$> ts).
Proof.
  intros Htr. apply max_list_elem_of_le, list_elem_of_fmap. by exists tr.
Qed.

(** Mining the tree of a transaction list returns, and a permutation of the
    list gives a permutation of the mined itemsets. *)
Lemma mine_transactions_perm ts ts' m :
  ts ≡ₚ ts' →
  ∃ t t' raw raw',
    new_FPTree ts m = Some t ∧ new_FPTree ts' m = Some t' ∧
    fpgrowth_mine (recursion_depth ts) t m ∅ = Some raw ∧
    fpgrowth_mine (recursion_depth ts') t' m ∅ = Some raw' ∧ raw ≡ₚ raw'.
Proof.
  intros Hp.
  destruct (new_FPTree_same_record ts ts' m (max_list (length <$> ts)) Hp)
    as (t & t' & Ht & Ht' & Hsame); [apply recursion_depth_bound|].
  destruct (fpgrowth_mine_operm (recursion_depth ts) _ t t' m ∅ Hsame)
    as (raw & raw' & Hraw & Hraw' & Hperm); [unfold recursion_depth; lia|].
  exists t, t', raw, raw'. rewrite <- (recursion_depth_perm ts ts' Hp). done.
Qed.

(** [fpgrowth] returns: the fuel suffices and the division is safe. *)
Lemma fpgrowth_returns ts min_support max_len :
  ∃ t raw,
    new_FPTree ts (min_count_of min_support (length ts)) = Some t ∧
    fpgrowth_mine (recursion_depth ts) t (min_count_of min_support (length ts)) ∅
    = Some raw ∧
    fpgrowth ts min_support max_len
    = Some (omap (result_entry (length ts) max_len) raw).
Proof.
  destruct (mine_transactions_perm ts ts (min_count_of min_support (length ts)))
    as (t & t' & raw & raw' & Ht & _ & Hraw & _); [done|].
  exists t, raw. split; [done|]. split; [done|].
  unfold fpgrowth. rewrite Ht. cbn [mbind option_bind]. rewrite Hraw.
  cbn [mbind option_bind].
  destruct ts as [|tr ts]; [|by apply result_loop_spec].
  assert (Ht0 : ∀ m, new_FPTree [] m = Some empty_tree) by reflexivity.
  assert (Hm0 : ∀ m, fpgrowth_mine (recursion_depth []) empty_tree m ∅ = Some [])
    by reflexivity.
  rewrite Ht0 in Ht. injection Ht as <-. rewrite Hm0 in Hraw. by injection Hraw as <-.
Qed.

(** *** The support floor and the order of the transactions *)

Lemma min_count_of_pos (min_support : Q) (n : nat) : 1 ≤ min_count_of min_support n.
Proof. unfold min_count_of. lia. Qed.

(** C2: [fpgrowth] returns, every mined itemset has a support count of at
    least the count floor [max(1, int(min_support * n))], the support of
    every returned itemset is the rounded fraction of such a count, and the
    loop body appends nothing, whatever the recursive call, for an item
    whose chain sums to less than the floor. *)
Theorem fpgrowth_support_floor (transactions : list (list string)) (min_support : Q)
    (max_len : Z) :
  let n := length transactions in
  let min_count := min_count_of min_support n in
  1 ≤ min_count ∧
  ∃ tree raw result,
    new_FPTree transactions min_count = Some tree ∧
    fpgrowth_mine (recursion_depth transactions) tree min_count ∅ = Some raw ∧
    fpgrowth transactions min_support max_len = Some result ∧
    (∀ itemset c, (itemset, c) ∈ raw → min_count ≤ c) ∧
    (∀ fi, fi ∈ result →
       ∃ c, (itemsets fi, c) ∈ raw ∧ min_count ≤ c ∧
            support fi = py_round (inject_Z (Z.of_nat c) / inject_Z (Z.of_nat n)) 6) ∧
    (∀ recurse t prefix entry s,
       chain_support (length (heap t)) (heap t) (Some entry.2) = Some s →
       s < min_count →
       mine_item recurse t min_count prefix entry = Some []).
Proof.
  intros n min_count. split; [apply min_count_of_pos|].
  destruct (fpgrowth_returns transactions min_support max_len)
    as (tree & raw & Ht & Hraw & Hres).
  exists tree, raw, (omap (result_entry n max_len) raw).
  split; [done|]. split; [done|]. split; [done|].
  assert (Hcounts : ∀ itemset c, (itemset, c) ∈ raw → min_count ≤ c).
  { intros itemset c Hin. by apply (fpgrowth_mine_counts _ _ _ _ _ Hraw (itemset, c)). }
  split; [done|]. split.
  - intros fi ([itemset c] & Hin & He)%list_elem_of_omap.
    unfold result_entry in He. simpl in He.
    destruct (Z.of_nat (size itemset) <=? max_len)%Z; [|done].
    injection He as <-. exists c. simpl. split; [done|]. split; [by eapply Hcounts|done].
  - intros recurse t prefix entry s Hs Hlt. unfold mine_item. rewrite Hs. simpl.
    apply Nat.ltb_lt in Hlt. by rewrite Hlt.
Qed.

(** C6: mining does not depend on the order of the transactions: a
    permutation of the list gives the same itemsets with the same supports,
    each as often, and the same list gives the same result. *)
Theorem fpgrowth_order_independent (transactions transactions' : list (list string))
    (min_support : Q) (max_len : Z) :
  transactions ≡ₚ transactions' →
  ∃ result result',
    fpgrowth transactions min_support max_len = Some result ∧
    fpgrowth transactions' min_support max_len = Some result' ∧
    result ≡ₚ result' ∧ (∀ fi, fi ∈ result ↔ fi ∈ result') ∧
    (transactions = transactions' → result = result').
Proof.
  intros Hp. pose proof (Permutation_length Hp) as Hlen.
  destruct (fpgrowth_returns transactions min_support max_len)
    as (t & raw & Ht & Hraw & Hres).
  destruct (fpgrowth_returns transactions' min_support max_len)
    as (t' & raw' & Ht' & Hraw' & Hres').
  destruct (mine_transactions_perm transactions transactions'
              (min_count_of min_support (length transactions)) Hp)
    as (t1 & t1' & raw1 & raw1' & Ht1 & Ht1' & Hraw1 & Hraw1' & Hperm).
  rewrite <- Hlen in Ht', Hraw', Hres'. simplify_eq.
  exists (omap (result_entry (length transactions) max_len) raw),
         (omap (result_entry (length transactions) max_len) raw').
  split; [done|]. split; [done|].
  assert (Hr : omap (result_entry (length transactions) max_len) raw
               ≡ₚ omap (result_entry (length transactions) max_len) raw')
    by (by rewrite Hperm).
  split; [done|]. split; [intros fi; by rewrite Hr|].
  intros <-. congruence.
Qed.

(** Two orders of three baskets. *)
Lemma fpgrowth_order_independent_witness :
  ∃ result result',
    fpgrowth [["a"; "b"]; ["b"; "c"]; ["a"]] (2 # 100) 4 = Some result ∧
    fpgrowth [["a"]; ["b"; "c"]; ["a"; "b"]] (2 # 100) 4 = Some result' ∧
    result ≡ₚ result'.
Proof.
  destruct (fpgrowth_order_independent
              [["a"; "b"]; ["b"; "c"]; ["a"]] [["a"]; ["b"; "c"]; ["a"; "b"]]
              (2 # 100) 4) as (r & r' & H1 & H2 & H3 & _).
  - etrans; [apply perm_swap|]. etrans; [apply perm_skip, perm_swap|]. apply perm_swap.
  - by exists r, r'.
Defined.

(** *** Duplicates within a basket *)

Lemma count_of_filter (P : string → Prop) `{∀ x, Decision (P x)} (l : list string)
    (x : string) :
  count_of (filter P l) x = if decide (P x) then count_of l x else 0.
Proof.
  induction l as [|y l IH]; simpl; [by destruct (decide (P x))|].
  rewrite filter_cons. destruct (decide (P y)) as [Hy|Hy]; simpl; rewrite IH.
  - destruct (decide (y = x)) as [<-|]; [|done]. by destruct (decide (P y)).
  - destruct (decide (y = x)) as [<-|]; [|done]. by destruct (decide (P y)).
Qed.

Lemma count_of_filter_and_sort fr tr x :
  count_of (filter_and_sort fr tr) x
  = if decide (is_Some (dict_get x fr)) then count_of tr x else 0.
Proof.
  unfold filter_and_sort.
  pose proof (count_of_filter (λ it, is_Some (dict_get it fr)) tr x) as Hf.
  simpl in Hf. rewrite <- Hf.
  apply (Permutation_count_occ (λ x y : string, decide (x = y))), sorted_perm.
Qed.

(** A frequent item is inserted as often as it occurs in the baskets. *)
Lemma inserted_sorted_transactions ts m x :
  0 < inserted ts x → m ≤ inserted ts x →
  inserted (sorted_transactions ts m) x = inserted ts x.
Proof.
  intros Hpos Hm. unfold sorted_transactions.
  change (sum_list ((λ s, count_of s x) <$> (filter_and_sort (frequencies ts m) <$> ts))
          = inserted ts x).
  rewrite <- list_fmap_compose.
  unfold inserted at 1.
  f_equal. apply list_fmap_ext. intros i tr _. simpl.
  rewrite count_of_filter_and_sort, frequencies_lookup.
  rewrite (decide_True (P := 0 < inserted ts x ∧ m ≤ inserted ts x)) by done.
  by rewrite decide_True.
Qed.

Lemma for_extend_Some_elem {A B : Type} (f : A → option (list B)) (l : list A)
    (r : list B) (x : A) :
  for_extend f l = Some r → x ∈ l → ∃ rx, f x = Some rx ∧ ∀ e, e ∈ rx → e ∈ r.
Proof.
  revert r. induction l as [|y l IH]; intros r Hr Hx; [by apply elem_of_nil in Hx|].
  rewrite for_extend_cons in Hr. destruct (f y) as [ry|] eqn:Hy; [|done].
  simpl in Hr. destruct (for_extend f l) as [s|] eqn:Hs; [|done].
  simpl in Hr. injection Hr as <-.
  apply elem_of_cons in Hx as [->|Hx].
  - exists ry. split; [done|]. intros e He. apply elem_of_app. by left.
  - destruct (IH s eq_refl Hx) as (rx & Hrx & Hsub). exists rx. split; [done|].
    intros e He. apply elem_of_app. right. by apply Hsub.
Qed.

Lemma remove_dups_NoDup {A : Type} `{EqDecision A} (l : list A) :
  NoDup l → remove_dups l = l.
Proof.
  induction 1 as [|x l Hx Hl IH]; simpl; [done|].
  destruct (decide_rel (∈) x l); [done|]. by rewrite IH.
Qed.

(** C3, amended: [fpgrowth] does not collapse duplicates, it counts every
    occurrence of an item.  Replacing a basket that has no duplicates by its
    duplicate-free version changes nothing; and an item that occurs [c]
    times in all baskets together, duplicates included, with [c] at least the
    count floor, is returned as a one-item itemset with support
    [round(c / n, 6)]. *)
Theorem fpgrowth_counts_occurrences (transactions : list (list string))
    (min_support : Q) (max_len : Z) :
  (∀ i basket, transactions !! i = Some basket → NoDup basket →
     fpgrowth (<[i := remove_dups basket]> transactions) min_support max_len
     = fpgrowth transactions min_support max_len) ∧
  (∀ x,
     let n := length transactions in
     let c := inserted transactions x in
     min_count_of min_support n ≤ c → (1 ≤ max_len)%Z →
     ∃ result,
       fpgrowth transactions min_support max_len = Some result ∧
       mkFrequentItemset (py_round (inject_Z (Z.of_nat c) / inject_Z (Z.of_nat n)) 6)
                         {[x]} ∈ result).
Proof.
  split.
  { intros i basket Hi Hnd. rewrite remove_dups_NoDup by done.
    by rewrite list_insert_id. }
  intros x n c Hc Hlen. set (m := min_count_of min_support n) in *.
  pose proof (min_count_of_pos min_support n) as Hm.
  destruct (fpgrowth_returns transactions min_support max_len)
    as (t & raw & Ht & Hraw & Hres).
  destruct (new_FPTree_inv transactions m) as (t2 & paths & Ht2 & Hfr & Hinv).
  assert (t2 = t) as -> by (unfold m, n in Ht2; congruence).
  eexists. split; [exact Hres|].
  assert (Hocc : inserted (sorted_transactions transactions m) x = c).
  { apply inserted_sorted_transactions; fold c; fold m in Hm; lia. }
  assert (Hkey : x ∈ (header t).*1).
  { apply (header_keys _ _ _ _ Hinv). rewrite Hocc. fold m in Hm. lia. }
  apply list_elem_of_fmap in Hkey as ([x' a] & Hx & Hin). simpl in Hx. subst x'.
  pose proof (header_entry _ _ _ _ _ _ Hinv Hin) as Hget.
  assert (Hin' : (x, a) ∈ header_order t) by (by apply elem_of_sorted).
  unfold recursion_depth in Hraw.
  change (for_extend
            (mine_item (λ ct ni, fpgrowth_mine (max_list (length <$> transactions)) ct
                                   (min_count_of min_support (length transactions)) ni)
               t (min_count_of min_support (length transactions)) ∅)
            (header_order t) = Some raw) in Hraw.
  destruct (for_extend_Some_elem _ _ _ _ Hraw Hin') as (rx & Hrx & Hsub).
  apply mine_item_Some in Hrx as (s & Hs & Hcases). simpl in Hs.
  rewrite <- Hget, (chain_support_header _ _ _ _ Hinv x), Hocc in Hs.
  injection Hs as <-.
  destruct Hcases as [[Hlt _]|(_ & cpb & sub & _ & _ & ->)].
  { fold n in Hlt. fold m in Hlt. lia. }
  apply list_elem_of_omap. exists ({[x]}, c). split.
  - apply Hsub. simpl. rewrite (left_id_L ∅ (∪)). by left.
  - unfold result_entry. cbn [fst snd]. rewrite size_singleton.
    change (Z.of_nat 1) with 1%Z. by rewrite (proj2 (Z.leb_le _ _) Hlen).
Qed.

(** The basket [a, a]: the item [a] is returned with support 2. *)
Lemma fpgrowth_counts_occurrences_witness :
  ∃ result,
    fpgrowth [["a"; "a"]] (2 # 100) 4 = Some result ∧
    mkFrequentItemset 2 {["a"]} ∈ result.
Proof.
  destruct (fpgrowth_counts_occurrences [["a"; "a"]] (2 # 100) 4) as [_ H].
  destruct (H "a") as (result & Hres & Hin).
  - vm_compute. lia.
  - lia.
  - exists result. split; [exact Hres|]. exact Hin.
Defined.

(** ** Mining: the empty transaction list *)

(** C10: on the empty transaction list the count floor is 1, the tree has no
    node but its root, nothing is mined, and [fpgrowth] returns the empty
    list; the division [count / n] is not reached. *)
Theorem fpgrowth_empty (min_support : Q) (max_len : Z) :
  min_count_of min_support (length ([] : list (list string))) = 1 ∧
  new_FPTree [] 1 = Some empty_tree ∧
  is_empty empty_tree = Some true ∧
  fpgrowth_mine (recursion_depth []) empty_tree 1 ∅ = Some [] ∧
  fpgrowth [] min_support max_len = Some [].
Proof.
  assert (Hc : min_count_of min_support 0 = 1).
  { unfold min_count_of, py_int. change (inject_Z (Z.of_nat 0)) with 0%Q.
    assert (Hz : (min_support * 0 == 0)%Q) by ring.
    destruct (Qlt_le_dec (min_support * 0) 0) as [Hlt|Hle].
    - rewrite Hz in Hlt. by apply Qlt_irrefl in Hlt.
    - rewrite (Qfloor_comp _ _ Hz). reflexivity. }
  split; [exact Hc|]. split; [reflexivity|]. split; [reflexivity|].
  split; [reflexivity|].
  unfold fpgrowth. simpl length. rewrite Hc. reflexivity.
Qed.

(** C3, as stated, fails: the basket [a, a] yields the itemset {a} with
    supports 2 and 1, the basket [a] yields it with support 1 only. *)
Lemma duplicates_collapse_counterexample :
  ¬ duplicates_collapse [["a"; "a"]] (2 # 100) 4.
Proof.
  intros H. destruct (H 0 ["a"; "a"] eq_refl) as (l & l' & Hl & Hl' & Heq).
  vm_compute in Hl, Hl'. injection Hl as <-. injection Hl' as <-.
  specialize (Heq (mkFrequentItemset 2 {["a"]})).
  destruct Heq as [Heq _].
  assert (Hin : mkFrequentItemset 2 {["a"]} ∈ [mkFrequentItemset 1 {["a"]}]).
  { apply Heq. apply list_elem_of_In. vm_compute. left. reflexivity. }
  apply list_elem_of_singleton in Hin. discriminate.
Qed.

Lemma combinations_sublist {A : Type} (l : list A) (r : nat) (c : list A) :
  c ∈ combinations l r → sublist c l ∧ length c = r.
Proof.
  revert r c. induction l as [|x l IH]; intros [|r] c; simpl.
  - intros ->%list_elem_of_singleton. split; [constructor|done].
  - by intros ?%elem_of_nil.
  - intros ->%list_elem_of_singleton. split; [apply sublist_nil_l|done].
  - rewrite elem_of_app, list_elem_of_fmap.
    intros [(c' & -> & Hc')|Hc].
    + destruct (IH _ _ Hc') as [Hs Hl]. split; [by constructor|simpl; by rewrite Hl].
    + destruct (IH _ _ Hc) as [Hs Hl]. split; [by constructor|done].
Qed.

(** ** Rule generation *)

(** The rules of the result are exactly the rules of the candidate splits
    of the frequent itemsets of size at least 2. *)
Lemma elem_of_association_rules (fis : list FrequentItemset) (metric : string)
    (thr : Q) (r : Rule) :
  r ∈ association_rules fis metric thr ↔
  ∃ fs tuple, fs ∈ fis ∧ 2 ≤ size (itemsets fs) ∧ tuple ∈ splits (itemsets fs) ∧
    rule_of_split (build_support_map fis) metric thr fs tuple = Some r.
Proof.
  unfold association_rules, sort_by_lift. rewrite elem_of_sorted, list_elem_of_In, in_flat_map.
  split.
  - intros (fs & Hfs%list_elem_of_In & Hr%list_elem_of_In).
    unfold rules_of_itemset in Hr.
    destruct (size (itemsets fs) <? 2) eqn:Hsz; [by apply elem_of_nil in Hr|].
    apply Nat.ltb_ge in Hsz. apply list_elem_of_omap in Hr as (tuple & Ht & Hr).
    by exists fs, tuple.
  - intros (fs & tuple & Hfs & Hsz & Ht & Hr). exists fs.
    split; [by apply list_elem_of_In|]. apply list_elem_of_In.
    unfold rules_of_itemset. apply Nat.ltb_ge in Hsz. rewrite Hsz.
    apply list_elem_of_omap. by exists tuple.
Qed.

(** A candidate antecedent is a non-empty proper subset of its itemset. *)
Lemma splits_spec (itemset : gset string) (tuple : list string) :
  tuple ∈ splits itemset →
  NoDup tuple ∧ (∀ x, x ∈ tuple → x ∈ itemset) ∧
  1 ≤ length tuple ∧ length tuple < size itemset.
Proof.
  unfold splits. rewrite list_elem_of_In, in_flat_map.
  intros (k & Hk%in_seq & Hc%list_elem_of_In).
  apply combinations_sublist in Hc as [Hsub Hlen].
  split; [|split].
  - eapply sublist_NoDup; [apply (NoDup_elements itemset)|exact Hsub].
  - intros x Hx. apply elem_of_elements. by eapply elem_of_sublist.
  - assert (size itemset = length (elements itemset)) by done. lia.
Qed.

(** What a split that yields a rule stores in it. *)
Lemma rule_of_split_Some (sm : gmap (gset string) Q) (metric : string) (thr : Q)
    (fs : FrequentItemset) (tuple : list string) (r : Rule) :
  rule_of_split sm metric thr fs tuple = Some r →
  let ant : gset string := list_to_set tuple in
  let cons := itemsets fs ∖ ant in
  let ant_support := default 0%Q (sm !! ant) in
  let cons_support := default 0%Q (sm !! cons) in
  let conf := (support fs / ant_support)%Q in
  ¬ (ant_support == 0)%Q ∧ ¬ (cons_support == 0)%Q ∧
  antecedents r = ant ∧ consequents r = cons ∧
  lift r = py_round (conf / cons_support) 6 ∧
  conviction r = float_round (float_min (raw_conviction cons_support conf) (finite 999)) 4 ∧
  (thr <= (if String.eqb metric "confidence" then conf else conf / cons_support))%Q.
Proof.
  unfold rule_of_split. intros H. cbv zeta.
  destruct (Qeq_bool (default 0%Q (sm !! list_to_set tuple)) 0) eqn:Ha; [done|].
  destruct (Qeq_bool (default 0%Q (sm !! (itemsets fs ∖ list_to_set tuple))) 0) eqn:Hc;
    [done|].
  simpl in H.
  match type of H with (if ?b then _ else _) = _ => destruct b eqn:Hv; [|done] end.
  injection H as <-. simpl.
  apply Qeq_bool_neq in Ha, Hc. apply Qle_bool_iff in Hv. done.
Qed.

(** C5: every rule of [association_rules] has a non-empty antecedent and a
    non-empty consequent, the two are disjoint, and their union is a frequent
    itemset of the input that has at least two items. *)
Theorem association_rules_split (fis : list FrequentItemset) (metric : string)
    (thr : Q) (r : Rule) :
  r ∈ association_rules fis metric thr →
  antecedents r ≠ ∅ ∧ consequents r ≠ ∅ ∧ antecedents r ## consequents r ∧
  ∃ fs, fs ∈ fis ∧ 2 ≤ size (itemsets fs) ∧
        antecedents r ∪ consequents r = itemsets fs.
Proof.
  intros (fs & tuple & Hfs & Hsz & Ht & Hr)%elem_of_association_rules.
  apply rule_of_split_Some in Hr as (_ & _ & -> & -> & _).
  apply splits_spec in Ht as (Hnd & Hin & Hlen1 & Hlen2).
  assert (Hsub : (list_to_set tuple : gset string) ⊆ itemsets fs).
  { intros x Hx%elem_of_list_to_set. by apply Hin. }
  assert (Hsize : size (list_to_set tuple : gset string) = length tuple)
    by by apply size_list_to_set.
  split; [|split; [|split]].
  - intros He. rewrite He, size_empty in Hsize. lia.
  - intros He. apply (f_equal size) in He. rewrite size_empty in He.
    rewrite size_difference in He by done. lia.
  - intros x Hx1 Hx2. by apply elem_of_difference in Hx2 as [_ Hx2].
  - exists fs. split; [done|]. split; [done|].
    symmetry. by apply union_difference_L.
Qed.

(** The example rule is emitted. *)
Lemma example_rule_a_b_emitted :
  example_rule_a_b ∈ association_rules example_itemsets "confidence" (4 # 10).
Proof. apply list_elem_of_In. vm_compute. left. reflexivity. Qed.

(** An instance: the rule [{a} -> {b}] of the example. *)
Lemma association_rules_split_witness :
  example_rule_a_b ∈ association_rules example_itemsets "confidence" (4 # 10) ∧
  antecedents example_rule_a_b ≠ ∅ ∧ consequents example_rule_a_b ≠ ∅ ∧
  antecedents example_rule_a_b ## consequents example_rule_a_b ∧
  ∃ fs, fs ∈ example_itemsets ∧ 2 ≤ size (itemsets fs) ∧
        antecedents example_rule_a_b ∪ consequents example_rule_a_b = itemsets fs.
Proof.
  split; [exact example_rule_a_b_emitted|].
  apply (association_rules_split example_itemsets "confidence" (4 # 10)).
  apply list_elem_of_In. vm_compute. left. reflexivity.
Defined.

(** *** A lookup miss skips the candidate *)

(** C8: in [association_rules], a candidate split whose antecedent or
    consequent is absent from the support lookup appends no rule, and the run
    goes on: every other candidate split of the run that yields a rule has it
    in the result. *)
Theorem lookup_miss_skips_candidate (fis : list FrequentItemset) (metric : string)
    (thr : Q) (fs : FrequentItemset) (tuple : list string) :
  build_support_map fis !! (list_to_set tuple : gset string) = None ∨
  build_support_map fis !! (itemsets fs ∖ list_to_set tuple) = None →
  rule_of_split (build_support_map fis) metric thr fs tuple = None ∧
  ∀ fs' tuple' r,
    fs' ∈ fis → 2 ≤ size (itemsets fs') → tuple' ∈ splits (itemsets fs') →
    rule_of_split (build_support_map fis) metric thr fs' tuple' = Some r →
    r ∈ association_rules fis metric thr.
Proof.
  intros Hmiss. split.
  - unfold rule_of_split. destruct Hmiss as [-> | ->]; simpl; [done|].
    by rewrite orb_true_r.
  - intros fs' tuple' r ? ? ? ?. apply elem_of_association_rules. by exists fs', tuple'.
Qed.

(** An instance: the itemset [{c, d}] has no subset in the lookup. *)
Lemma lookup_miss_skips_candidate_witness :
  rule_of_split (build_support_map example_itemsets_with_miss) "confidence" (4 # 10)
    (mkFrequentItemset (1 # 10) ({["c"]} ∪ {["d"]})) ["c"] = None ∧
  example_rule_a_b ∈ association_rules example_itemsets_with_miss "confidence" (4 # 10).
Proof.
  pose proof (lookup_miss_skips_candidate example_itemsets_with_miss "confidence"
                (4 # 10) (mkFrequentItemset (1 # 10) ({["c"]} ∪ {["d"]})) ["c"]) as H.
  destruct H as [H1 H2]; [left; vm_compute; reflexivity|].
  split; [exact H1|].
  apply (H2 (mkFrequentItemset (1999 # 10000) ({["a"]} ∪ {["b"]})) ["a"]).
  - apply list_elem_of_In. vm_compute. tauto.
  - vm_compute. lia.
  - apply list_elem_of_In. vm_compute. tauto.
  - vm_compute. reflexivity.
Defined.

(** *** The metric argument *)

(** C9: any [metric] other than the string ["confidence"] selects lift: the
    result is the one for ["lift"]; a candidate whose two supports are found
    and non-zero is kept iff its lift is at least [min_threshold]; the rule
    of a kept candidate split of the input is in the returned list; and
    every rule of the returned list is the rule of a candidate split of the
    input whose lift is at least [min_threshold]. *)
Theorem unknown_metric_selects_lift (fis : list FrequentItemset) (metric : string)
    (thr : Q) :
  metric ≠ "confidence" →
  association_rules fis metric thr = association_rules fis "lift" thr ∧
  (∀ fs tuple,
    let sm := build_support_map fis in
    let ant_support := default 0%Q (sm !! (list_to_set tuple : gset string)) in
    let cons_support := default 0%Q (sm !! (itemsets fs ∖ list_to_set tuple)) in
    ¬ (ant_support == 0)%Q → ¬ (cons_support == 0)%Q →
    (is_Some (rule_of_split sm metric thr fs tuple) ↔
     (thr <= support fs / ant_support / cons_support)%Q)) ∧
  (∀ fs tuple,
    let sm := build_support_map fis in
    let ant_support := default 0%Q (sm !! (list_to_set tuple : gset string)) in
    let cons_support := default 0%Q (sm !! (itemsets fs ∖ list_to_set tuple)) in
    fs ∈ fis → 2 ≤ size (itemsets fs) → tuple ∈ splits (itemsets fs) →
    ¬ (ant_support == 0)%Q → ¬ (cons_support == 0)%Q →
    (thr <= support fs / ant_support / cons_support)%Q →
    ∃ r, r ∈ association_rules fis metric thr ∧
         antecedents r = list_to_set tuple ∧
         consequents r = itemsets fs ∖ list_to_set tuple ∧
         lift r = py_round (support fs / ant_support / cons_support) 6) ∧
  (∀ r, r ∈ association_rules fis metric thr →
    ∃ fs tuple,
      let sm := build_support_map fis in
      let ant_support := default 0%Q (sm !! (list_to_set tuple : gset string)) in
      let cons_support := default 0%Q (sm !! (itemsets fs ∖ list_to_set tuple)) in
      fs ∈ fis ∧ 2 ≤ size (itemsets fs) ∧ tuple ∈ splits (itemsets fs) ∧
      ¬ (ant_support == 0)%Q ∧ ¬ (cons_support == 0)%Q ∧
      antecedents r = list_to_set tuple ∧
      consequents r = itemsets fs ∖ list_to_set tuple ∧
      lift r = py_round (support fs / ant_support / cons_support) 6 ∧
      (thr <= support fs / ant_support / cons_support)%Q).
Proof.
  intros Hm. apply String.eqb_neq in Hm.
  assert (Heq : ∀ sm fs tuple,
    rule_of_split sm metric thr fs tuple = rule_of_split sm "lift" thr fs tuple).
  { intros. unfold rule_of_split. by rewrite Hm. }
  assert (Hkeep : ∀ fs tuple,
    let sm := build_support_map fis in
    let ant_support := default 0%Q (sm !! (list_to_set tuple : gset string)) in
    let cons_support := default 0%Q (sm !! (itemsets fs ∖ list_to_set tuple)) in
    ¬ (ant_support == 0)%Q → ¬ (cons_support == 0)%Q →
    (is_Some (rule_of_split sm metric thr fs tuple) ↔
     (thr <= support fs / ant_support / cons_support)%Q)).
  { intros fs tuple sm ant_support cons_support Ha Hc.
    unfold rule_of_split. fold sm. fold ant_support. fold cons_support.
    rewrite Hm.
    destruct (Qeq_bool ant_support 0) eqn:Ea; [by apply Qeq_bool_iff in Ea|].
    destruct (Qeq_bool cons_support 0) eqn:Ec; [by apply Qeq_bool_iff in Ec|].
    simpl.
    destruct (Qle_bool thr (support fs / ant_support / cons_support)) eqn:Hv.
    + apply Qle_bool_iff in Hv. split; [done|by eexists].
    + split; [by intros [? ?]|]. intros Hle%Qle_bool_iff. congruence. }
  split; [|split; [exact Hkeep|split]].
  - unfold association_rules. f_equal. apply flat_map_ext. intros fs.
    unfold rules_of_itemset. destruct (size (itemsets fs) <? 2); [done|].
    apply omap_pointwise. intros t. apply Heq.
  - intros fs tuple sm ant_support cons_support Hfs Hsz Ht Ha Hc Hle.
    destruct (proj2 (Hkeep fs tuple Ha Hc) Hle) as [r Hr].
    exists r. split.
    + apply elem_of_association_rules. by exists fs, tuple.
    + by apply rule_of_split_Some in Hr as (_ & _ & ? & ? & ? & _).
  - intros r (fs & tuple & Hfs & Hsz & Ht & Hr)%elem_of_association_rules.
    exists fs, tuple. cbv zeta.
    apply rule_of_split_Some in Hr as (Ha & Hc & Hant & Hcons & Hlift & _ & Hv).
    rewrite Hm in Hv. done.
Qed.

(** An instance: under the metric [Lift], with a capital, the rule
    [{a} -> {b}] of the example, of lift 5, is returned. *)
Lemma unknown_metric_selects_lift_witness :
  association_rules example_itemsets "Lift" (4 # 10)
  = association_rules example_itemsets "lift" (4 # 10) ∧
  ∃ r, r ∈ association_rules example_itemsets "Lift" (4 # 10) ∧
       antecedents r = {["a"]} ∧ lift r = 5%Q.
Proof.
  destruct (unknown_metric_selects_lift example_itemsets "Lift" (4 # 10))
    as (H1 & _ & H3 & _); [done|].
  split; [exact H1|].
  destruct (H3 (mkFrequentItemset (1999 # 10000) ({["a"]} ∪ {["b"]})) ["a"])
    as (r & Hr & Hant & _ & Hlift).
  - apply list_elem_of_In. vm_compute. tauto.
  - vm_compute. lia.
  - apply list_elem_of_In. vm_compute. tauto.
  - vm_compute. congruence.
  - vm_compute. congruence.
  - vm_compute. congruence.
  - exists r. split; [exact Hr|]. split.
    + rewrite Hant. apply (right_id_L ∅ (∪)).
    + rewrite Hlift. vm_compute. reflexivity.
Defined.

(** *** The stored conviction *)

Lemma round_half_even_le (q : Q) (z : Z) :
  (q <= inject_Z z)%Q → (round_half_even q ≤ z)%Z.
Proof.
  intros Hq. unfold round_half_even.
  assert (Hf : (Qfloor q ≤ z)%Z).
  { rewrite <- (Qfloor_Z z). by apply Qfloor_resp_le. }
  destruct (decide (Qfloor q = z)) as [Heq|Hne].
  - assert (Hz : (q - inject_Z (Qfloor q) == 0)%Q).
    { pose proof (Qfloor_le q) as Hle. rewrite Heq in *. lra. }
    assert (Hlt : (q - inject_Z (Qfloor q) ?= 1 # 2)%Q = Lt).
    { apply Qlt_alt. rewrite Hz. reflexivity. }
    rewrite Hlt. lia.
  - destruct (q - inject_Z (Qfloor q) ?= 1 # 2)%Q; [destruct (Z.even _)|..]; lia.
Qed.

Lemma py_round_le (x : Q) (ndigits : nat) (z : Z) :
  (x <= inject_Z z)%Q → (py_round x ndigits <= inject_Z z)%Q.
Proof.
  intros Hx. unfold py_round. rewrite Qred_correct.
  set (scale := (10 ^ Z.of_nat ndigits)%Z).
  assert (Hpos : (0 < scale)%Z) by (apply Z.pow_pos_nonneg; lia).
  assert (Hr : (round_half_even (x * inject_Z scale) ≤ z * scale)%Z).
  { apply round_half_even_le. rewrite inject_Z_mult.
    apply Qmult_le_compat_r; [done|]. change 0%Q with (inject_Z 0).
    rewrite <- Zle_Qle. lia. }
  clear Hx. unfold Qle, inject_Z in *. cbn [Qnum Qden]. rewrite Z2Pos.id by done. lia.
Qed.

(** C4, as stated, fails: the rule [{a} -> {b}] of the example has confidence
    0.9995 and consequent support 0.1999, so the quotient is 1600.2, but the
    stored conviction is the cap 999. *)
Lemma conviction_claim_counterexample :
  ¬ conviction_claim example_itemsets "confidence" (4 # 10).
Proof.
  intros H.
  specialize (H (mkFrequentItemset (1999 # 10000) ({["a"]} ∪ {["b"]})) ["a"]
                example_rule_a_b).
  destruct H as [H _].
  - apply list_elem_of_In. vm_compute. tauto.
  - vm_compute. lia.
  - apply list_elem_of_In. vm_compute. tauto.
  - vm_compute. reflexivity.
  - destruct H as (q & Hq & Heq); [vm_compute; reflexivity|].
    injection Hq as <-. vm_compute in Heq. discriminate.
Qed.

(** C4, amended: the stored conviction of every rule is
    [round(min((1 - support(consequent)) / (1 - confidence + 1e-10), 999), 4)]
    when the confidence is below 1 and is 999 otherwise; it is always finite
    and at most 999. *)
Theorem conviction_capped (fis : list FrequentItemset) (metric : string) (thr : Q)
    (r : Rule) :
  r ∈ association_rules fis metric thr →
  ∃ fs, fs ∈ fis ∧ antecedents r ∪ consequents r = itemsets fs ∧
    let cons_support := default 0%Q (build_support_map fis !! consequents r) in
    let conf := (support fs / default 0%Q (build_support_map fis !! antecedents r))%Q in
    ((conf < 1)%Q →
     conviction r
     = finite (py_round (cap_999 ((1 - cons_support) / (1 - conf + (1 # 10000000000)))) 4)) ∧
    ((1 <= conf)%Q → conviction r = finite 999) ∧
    ∃ q, conviction r = finite q ∧ (q <= 999)%Q.
Proof.
  intros Hr.
  apply elem_of_association_rules in Hr as (fs & tuple & Hfs & Hsz & Ht & Hr).
  apply rule_of_split_Some in Hr as (_ & _ & Ha & Hc & _ & Hconv & _).
  exists fs. split; [done|]. split.
  { rewrite Ha, Hc. symmetry. apply union_difference_L.
    intros x Hx%elem_of_list_to_set. by apply splits_spec in Ht as (_ & Hin & _); apply Hin. }
  rewrite Ha, Hc. cbv zeta. rewrite Hconv. clear Hconv.
  set (cs := default 0%Q _). set (conf := (support fs / _)%Q).
  unfold raw_conviction, cap_999.
  destruct (Qlt_le_dec conf 1) as [Hlt|Hge]; simpl.
  - split; [|split].
    + intros _. by destruct (Qlt_le_dec 999 _).
    + intros Hge. exfalso. eapply Qlt_not_le; eauto.
    + destruct (Qlt_le_dec 999 _) as [Hbig|Hsmall]; simpl; eexists; (split; [done|]).
      * by vm_compute.
      * by apply (py_round_le _ 4 999).
  - split; [|split].
    + intros Hlt. exfalso. eapply Qlt_not_le; eauto.
    + done.
    + eexists. split; [done|]. by vm_compute.
Qed.

(** An instance: the rule [{a} -> {b}] of the example. *)
Lemma conviction_capped_witness :
  ∃ q, conviction example_rule_a_b = finite q ∧ (q <= 999)%Q.
Proof.
  destruct (conviction_capped example_itemsets "confidence" (4 # 10) example_rule_a_b)
    as (fs & _ & _ & _ & _ & H).
  - apply list_elem_of_In. vm_compute. left. reflexivity.
  - exact H.
Defined.

(** ** The matcher *)

Lemma elem_of_candidates_of_rule (input_set : gset string) (minc minl : Q)
    (rule : Rule) (c : Recommendation) :
  c ∈ candidates_of_rule input_set minc minl rule ↔
  ∃ p, contributes input_set minc minl rule p ∧ c = candidate_row rule p.
Proof.
  unfold candidates_of_rule, contributes.
  destruct (bool_decide_reflect (antecedents rule ⊆ input_set)) as [Hsub|Hsub].
  2:{ split; [by intros ?%elem_of_nil|]. by intros (p & (? & _) & _). }
  destruct (Qlt_le_dec (confidence rule) minc) as [Hc|Hc].
  { split; [by intros ?%elem_of_nil|]. intros (p & (_ & Hc' & _) & _).
    exfalso. eapply Qlt_not_le; eauto. }
  destruct (Qlt_le_dec (lift rule) minl) as [Hl|Hl].
  { split; [by intros ?%elem_of_nil|]. intros (p & (_ & _ & Hl' & _) & _).
    exfalso. eapply Qlt_not_le; eauto. }
  rewrite list_elem_of_omap. split.
  - intros (p & Hp%elem_of_elements & Hc').
    destruct (bool_decide_reflect (p ∈ input_set)); [done|].
    injection Hc' as <-. by exists p.
  - intros (p & (_ & _ & _ & Hp & Hn) & ->). exists p.
    split; [by apply elem_of_elements|]. by rewrite bool_decide_eq_false_2.
Qed.

Lemma head_sublist {A : Type} (n : Z) (l : list A) : sublist (head n l) l.
Proof. unfold head. destruct (0 <=? n)%Z; apply sublist_take. Qed.

(** After a descending sort, the row kept for a product is one of the rows
    of that product with the greatest lift. *)
Lemma drop_duplicates_spec (seen : list string) (l : list Recommendation) :
  StronglySorted (λ a b, (rec_lift b <= rec_lift a)%Q) l →
  NoDup (product <$> drop_duplicates seen l) ∧
  (∀ r, r ∈ drop_duplicates seen l →
     r ∈ l ∧ (product r ∉ seen) ∧
     (∀ r', r' ∈ l → product r' = product r → (rec_lift r' <= rec_lift r)%Q)).
Proof.
  intros Hs. revert seen. induction Hs as [|x l Hs IH Hx]; intros seen; simpl.
  { split; [constructor|]. by intros r ?%elem_of_nil. }
  destruct (bool_decide_reflect (product x ∈ seen)) as [Hin|Hin].
  - destruct (IH seen) as [Hnd Hall]. split; [done|].
    intros r Hr. destruct (Hall r Hr) as (Hrl & Hns & Hmax).
    split; [by right|]. split; [done|].
    intros r' [->|Hr']%elem_of_cons Hp; [congruence|by apply Hmax].
  - destruct (IH (product x :: seen)) as [Hnd Hall]. split.
    + simpl. constructor; [|done].
      intros (r & Hp & Hr)%list_elem_of_fmap.
      destruct (Hall r Hr) as (_ & Hns & _). apply Hns. rewrite Hp. by left.
    + intros r [->|Hr]%elem_of_cons.
      * split; [by left|]. split; [done|].
        intros r' [->|Hr']%elem_of_cons _; [apply Qle_refl|].
        rewrite Forall_forall in Hx. by apply Hx.
      * destruct (Hall r Hr) as (Hrl & Hns & Hmax).
        split; [by right|]. split; [by intros ?; apply Hns; right|].
        intros r' [->|Hr']%elem_of_cons Hp; [|by apply Hmax].
        exfalso. apply Hns. rewrite Hp. by left.
Qed.

(** C7: when the rule set is empty, or no rule fires, survives the live
    filters and proposes an item outside the basket, [recommend] returns an
    empty data frame. *)
Theorem recommend_no_recommendations (normalize : string → string)
    (sort_values : list Recommendation → list Recommendation)
    (rules : list Rule) (input_items : list string) (top_n : Z) (minc minl : Q) :
  rules = [] ∨
  (∀ rule p, rule ∈ rules →
     ¬ contributes (list_to_set (normalize <$> input_items)) minc minl rule p) →
  ∃ cols,
    recommend normalize sort_values (Some rules) input_items top_n minc minl
    = mkDataFrame cols [].
Proof.
  intros [->|Hno]; [by exists []|].
  destruct rules as [|rule rules]; [by exists []|].
  exists recommendation_columns. unfold recommend.
  destruct (flat_map _ _) as [|c cs] eqn:Hres; [done|].
  exfalso. assert (Hc : c ∈ flat_map
    (candidates_of_rule (list_to_set (normalize <$> input_items)) minc minl)
    (rule :: rules)) by (rewrite Hres; by left).
  apply list_elem_of_In, in_flat_map in Hc as (rl & Hrl%list_elem_of_In & Hc%list_elem_of_In).
  apply elem_of_candidates_of_rule in Hc as (p & Hp & _). by eapply Hno.
Qed.

(** An instance: the only rule fires, but its consequent is in the
    basket. *)
Lemma recommend_no_recommendations_witness :
  ∃ cols,
    recommend strip_title sort_values_stable (Some example_rules)
      ["bread"; " butter "] 5 0 1
    = mkDataFrame cols [].
Proof.
  apply recommend_no_recommendations. right.
  intros rule p ->%list_elem_of_singleton (_ & _ & _ & Hp & Hn).
  apply Hn. simpl in Hp. apply elem_of_singleton in Hp as ->.
  apply elem_of_list_to_set, list_elem_of_In. vm_compute. tauto.
Defined.

(** Without a model ([self.rules is None]) the result is empty as well. *)
Lemma recommend_no_model (normalize : string → string)
    (sort_values : list Recommendation → list Recommendation)
    (input_items : list string) (top_n : Z) (minc minl : Q) :
  recommend normalize sort_values None input_items top_n minc minl = mkDataFrame [] [].
Proof. reflexivity. Qed.

Section matcher.
Context (normalize : string → string).
Context (sort_values : list Recommendation → list Recommendation).
Hypothesis sort_values_perm : ∀ l, sort_values l ≡ₚ l.
Hypothesis sort_values_sorted :
  ∀ l, StronglySorted (λ a b, (rec_lift b <= rec_lift a)%Q) (sort_values l).

(** C1, amended: a rule proposes an item iff its antecedent is a subset of
    the normalized basket, its confidence and lift meet the live filters
    and the item is in its consequent and not in the basket; no returned
    recommendation names an item of the basket; every item is recommended
    at most once, and its recommendation carries the greatest lift, rounded
    to four decimal places, among the rules that propose the item. *)
Theorem recommend_contract (rules : list Rule) (input_items : list string)
    (top_n : Z) (minc minl : Q) :
  matcher_contract (λ rule, py_round (lift rule) 4) rules
    (list_to_set (normalize <$> input_items)) minc minl
    (rows (recommend normalize sort_values (Some rules) input_items top_n minc minl)).
Proof.
  set (input_set := list_to_set (normalize <$> input_items) : gset string).
  set (results := flat_map (candidates_of_rule input_set minc minl) rules).
  assert (Hres : ∀ c, c ∈ results ↔
    ∃ rule p, rule ∈ rules ∧ contributes input_set minc minl rule p ∧
              c = candidate_row rule p).
  { intros c. unfold results. rewrite list_elem_of_In, in_flat_map. split.
    - intros (rule & Hr%list_elem_of_In & Hc%list_elem_of_In).
      apply elem_of_candidates_of_rule in Hc as (p & Hp & ->). by exists rule, p.
    - intros (rule & p & Hr & Hp & ->). exists rule.
      split; [by apply list_elem_of_In|]. apply list_elem_of_In.
      apply elem_of_candidates_of_rule. by exists p. }
  assert (Hkept : sublist
    (rows (recommend normalize sort_values (Some rules) input_items top_n minc minl))
    (drop_duplicates [] (sort_values results))).
  { unfold recommend. destruct rules as [|rule rules']; [apply sublist_nil_l|].
    fold input_set. fold results.
    destruct results; [apply sublist_nil_l|apply head_sublist]. }
  revert Hkept. generalize
    (rows (recommend normalize sort_values (Some rules) input_items top_n minc minl)).
  intros kept Hkept.
  destruct (drop_duplicates_spec [] _ (sort_values_sorted results)) as [Hnd Hall].
  split; [|split; [|split]].
  - intros rule p Hr. split.
    + intros (c & (p' & Hp' & ->)%elem_of_candidates_of_rule & <-). done.
    + intros Hp. exists (candidate_row rule p). split; [|done].
      apply elem_of_candidates_of_rule. by exists p.
  - intros rec Hrec. eapply elem_of_sublist in Hrec; [|exact Hkept].
    destruct (Hall rec Hrec) as (Hin & _). rewrite sort_values_perm in Hin.
    apply Hres in Hin as (rule & p & _ & Hp & ->). apply Hp.
  - eapply sublist_NoDup; [exact Hnd|]. by apply fmap_sublist.
  - intros rec Hrec. eapply elem_of_sublist in Hrec; [|exact Hkept].
    destruct (Hall rec Hrec) as (Hin & _ & Hmax). rewrite sort_values_perm in Hin.
    apply Hres in Hin as (rule & p & Hr & Hp & ->). split.
    + exists rule. split; [done|]. split; [done|]. reflexivity.
    + intros rule' Hr' Hp'.
      apply (Hmax (candidate_row rule' p)); [|done].
      rewrite sort_values_perm. apply Hres. by exists rule', p.
Qed.
End matcher.

Lemma sort_values_stable_perm (l : list Recommendation) : sort_values_stable l ≡ₚ l.
Proof. apply sorted_perm. Qed.

Lemma sort_values_stable_sorted (l : list Recommendation) :
  StronglySorted (λ a b, (rec_lift b <= rec_lift a)%Q) (sort_values_stable l).
Proof.
  unfold sort_values_stable.
  assert (H : StronglySorted
    (λ a b, Qle_bool (rec_lift b) (rec_lift a) = true)
    (sorted (λ a b, Qle_bool (rec_lift b) (rec_lift a)) l)).
  { apply sorted_sorted.
    - intros a b Hab. apply Qle_bool_iff.
      destruct (Qlt_le_dec (rec_lift a) (rec_lift b)) as [Hlt|Hle]; [by apply Qlt_le_weak|].
      apply Qle_bool_iff in Hle. congruence.
    - intros a b c Hab%Qle_bool_iff Hbc%Qle_bool_iff. apply Qle_bool_iff.
      by eapply Qle_trans. }
  induction H as [|x s Hs IH Hx]; constructor; [done|].
  eapply Forall_impl; [exact Hx|]. intros y Hy. by apply Qle_bool_iff.
Qed.

(** C1, as stated, fails: the only rule has lift 1.23456, and the
    recommendation of its consequent carries 1.2346. *)
Lemma recommend_contract_counterexample :
  ¬ matcher_contract lift example_rules (list_to_set (strip_title <$> ["bread"])) 0 1
      (rows (recommend strip_title sort_values_stable (Some example_rules)
               ["bread"] 5 0 1)).
Proof.
  intros (_ & _ & _ & H).
  destruct (H (mkRecommendation "Butter" (9 # 10) (6173 # 5000) (3 # 10) "Bread"))
    as [(rule & Hr & _ & Heq) _].
  - apply list_elem_of_In. vm_compute. left. reflexivity.
  - apply list_elem_of_singleton in Hr as ->. vm_compute in Heq. discriminate.
Qed.

(** The contract on the example rule and the basket [bread]. *)
Lemma recommend_contract_witness :
  matcher_contract (λ rule, py_round (lift rule) 4) example_rules
    (list_to_set (strip_title <$> ["bread"])) 0 1
    (rows (recommend strip_title sort_values_stable (Some example_rules)
             ["bread"] 5 0 1)).
Proof.
  apply (recommend_contract strip_title sort_values_stable
           sort_values_stable_perm sort_values_stable_sorted).
Defined.

(** * Further properties *)

(** ** The order of the items in a tree *)

Lemma string_compare_refl (s : string) : String.compare s s = Eq.
Proof.
  induction s as [|c s IH]; simpl; [done|].
  unfold Ascii.compare. by rewrite N.compare_refl.
Qed.

Lemma string_compare_trans (s1 : string) : ∀ s2 s3,
  String.compare s1 s2 ≠ Gt → String.compare s2 s3 ≠ Gt → String.compare s1 s3 ≠ Gt.
Proof.
  induction s1 as [|c1 s1 IH]; intros [|c2 s2] [|c3 s3]; simpl; try done.
  unfold Ascii.compare.
  destruct (N.compare_spec (N_of_ascii c1) (N_of_ascii c2)) as [H12|H12|H12];
    destruct (N.compare_spec (N_of_ascii c2) (N_of_ascii c3)) as [H23|H23|H23];
    try done; intros Ha Hb.
  - rewrite H12, H23, N.compare_refl. by apply (IH s2).
  - rewrite H12. by rewrite (proj2 (N.compare_lt_iff _ _) H23).
  - rewrite <- H23. by rewrite (proj2 (N.compare_lt_iff _ _) H12).
  - by rewrite (proj2 (N.compare_lt_iff _ _) (N.lt_trans _ _ _ H12 H23)).
Qed.

Lemma string_leb_refl (s : string) : String.leb s s = true.
Proof. unfold String.leb. by rewrite string_compare_refl. Qed.

Lemma string_leb_trans (s1 s2 s3 : string) :
  String.leb s1 s2 = true → String.leb s2 s3 = true → String.leb s1 s3 = true.
Proof.
  unfold String.leb. intros H12 H23.
  pose proof (string_compare_trans s1 s2 s3) as H.
  destruct (String.compare s1 s2); try done;
    destruct (String.compare s2 s3); try done;
    destruct (String.compare s1 s3); try done; by exfalso; apply H.
Qed.

(** The sort key [(-freq[x], x)] is a total order. *)
Lemma key_le_refl fr x : key_le fr x x = true.
Proof.
  unfold key_le. rewrite Nat.ltb_irrefl. apply string_leb_refl.
Qed.

Lemma key_le_total fr x y : key_le fr x y = false → key_le fr y x = true.
Proof.
  unfold key_le.
  destruct (default 0 (dict_get y fr) <? default 0 (dict_get x fr)) eqn:H1; [done|].
  destruct (default 0 (dict_get x fr) <? default 0 (dict_get y fr)) eqn:H2; [done|].
  intros H. destruct (String.leb_total x y); congruence.
Qed.

Lemma key_le_trans fr x y z :
  key_le fr x y = true → key_le fr y z = true → key_le fr x z = true.
Proof.
  unfold key_le.
  set (fx := default 0 (dict_get x fr)). set (fy := default 0 (dict_get y fr)).
  set (fz := default 0 (dict_get z fr)).
  destruct (fy <? fx) eqn:H1; destruct (fx <? fy) eqn:H2;
    destruct (fz <? fy) eqn:H3; destruct (fy <? fz) eqn:H4;
    destruct (fz <? fx) eqn:H5; destruct (fx <? fz) eqn:H6; try done;
    repeat match goal with
    | H : (_ <? _) = true |- _ => apply Nat.ltb_lt in H
    | H : (_ <? _) = false |- _ => apply Nat.ltb_ge in H
    end; try lia.
  apply string_leb_trans.
Qed.

Lemma key_le_antisym fr x y :
  key_le fr x y = true → key_le fr y x = true → x = y.
Proof.
  unfold key_le.
  set (fx := default 0 (dict_get x fr)). set (fy := default 0 (dict_get y fr)).
  destruct (fy <? fx) eqn:H1; destruct (fx <? fy) eqn:H2; try done;
    repeat match goal with
    | H : (_ <? _) = true |- _ => apply Nat.ltb_lt in H
    | H : (_ <? _) = false |- _ => apply Nat.ltb_ge in H
    end; try lia.
  apply String.leb_antisym.
Qed.

(** A filtered and sorted transaction is sorted by the key, and it has the
    frequent items of the transaction. *)
Lemma filter_and_sort_sorted fr tr :
  StronglySorted (λ a b, key_le fr a b = true) (filter_and_sort fr tr).
Proof.
  apply sorted_sorted; [apply key_le_total|apply key_le_trans].
Qed.

Lemma filter_and_sort_perm fr tr :
  filter_and_sort fr tr ≡ₚ filter (λ it, is_Some (dict_get it fr)) tr.
Proof. apply sorted_perm. Qed.

Lemma elem_of_filter_and_sort fr tr x :
  x ∈ filter_and_sort fr tr ↔ is_Some (dict_get x fr) ∧ x ∈ tr.
Proof. by rewrite filter_and_sort_perm, list_elem_of_filter. Qed.

Lemma filter_and_sort_NoDup fr tr : NoDup tr → NoDup (filter_and_sort fr tr).
Proof. intros H. rewrite filter_and_sort_perm. by apply NoDup_filter. Qed.

Lemma path_hits_pos pre s p :
  0 < path_hits pre s p → ∃ q r, q ≠ [] ∧ s = q ++ r ∧ p = pre ++ q.
Proof.
  revert pre. induction s as [|x s IH]; intros pre; simpl; [lia|].
  destruct (decide (p = pre ++ [x])) as [->|_].
  - intros _. by exists [x], s.
  - intros H. destruct (IH (pre ++ [x])) as (q & r & Hq & -> & ->); [lia|].
    exists (x :: q), r. split; [done|]. split; [done|]. by rewrite <- app_assoc.
Qed.

Lemma path_hits_le pre s p : path_hits pre s p ≤ 1.
Proof.
  revert pre. induction s as [|x s IH]; intros pre; simpl; [lia|].
  destruct (decide (p = pre ++ [x])) as [->|_]; [|apply IH].
  destruct (decide (0 < path_hits (pre ++ [x]) s (pre ++ [x]))) as [H|H]; [|lia].
  apply path_hits_pos in H as (q & r & Hq & _ & Heq).
  apply (f_equal length) in Heq. rewrite !length_app in Heq. simpl in Heq.
  destruct q; [done|]. simpl in Heq. lia.
Qed.

Lemma path_hits_prefix pre q r :
  q ≠ [] → 0 < path_hits pre (q ++ r) (pre ++ q).
Proof.
  revert pre. induction q as [|x q IH]; intros pre Hq; [done|]. simpl.
  destruct q as [|y q].
  - rewrite decide_True by done. lia.
  - specialize (IH (pre ++ [x])). rewrite <- app_assoc in IH. simpl in IH.
    simpl. specialize (IH ltac:(done)). lia.
Qed.

Lemma before_Some x s q :
  before x s = Some q ↔ ∃ r, s = q ++ x :: r ∧ x ∉ q.
Proof.
  revert q. induction s as [|y s IH]; intros q; simpl.
  - split; [done|]. intros (r & Hr & _). by destruct q.
  - destruct (decide (y = x)) as [->|Hne].
    + split.
      * intros [= <-]. exists s. split; [done|]. apply not_elem_of_nil.
      * intros (r & Hr & Hq). destruct q as [|z q]; [done|].
        injection Hr as -> _. exfalso. apply Hq. by left.
    + destruct (before x s) as [q'|] eqn:Hb; simpl.
      * split.
        -- intros [= <-]. destruct (proj1 (IH q') eq_refl) as (r & -> & Hq').
           exists r. split; [done|]. by intros [?|?]%elem_of_cons.
        -- intros (r & Hr & Hq). destruct q as [|z q]; [by injection Hr as ->|].
           injection Hr as -> Hr. f_equal. f_equal.
           assert (Some q' = Some q) as [= ->]; [|done].
           apply IH. exists r. split; [done|]. intros ?. apply Hq. by right.
      * split; [done|]. intros (r & Hr & Hq).
        destruct q as [|z q]; [by injection Hr as ->|].
        injection Hr as -> Hr.
        assert (None = Some q); [|done].
        apply IH. exists r. split; [done|]. intros ?. apply Hq. by right.
Qed.

Lemma cond_transaction_Some x s q :
  cond_transaction x s = Some q ↔ q ≠ [] ∧ ∃ r, s = q ++ x :: r ∧ x ∉ q.
Proof.
  unfold cond_transaction. rewrite <- before_Some.
  destruct (before x s) as [[|y q']|]; simpl; split; try done.
  - by intros [? [= <-]].
  - by intros [= <-].
  - by intros [_ [= <-]].
  - by intros [_ ?].
Qed.

(** The path [q ++ [x]] is walked by the insertion of [s] exactly when [q]
    is the conditional transaction of [s]. *)
Lemma path_hits_cond_transaction x s q :
  NoDup s → q ≠ [] →
  path_hits [] s (q ++ [x]) = if decide (cond_transaction x s = Some q) then 1 else 0.
Proof.
  intros Hnd Hq. pose proof (path_hits_le [] s (q ++ [x])) as Hle.
  destruct (decide (cond_transaction x s = Some q)) as [Hc|Hc].
  - apply cond_transaction_Some in Hc as (_ & r & -> & _).
    pose proof (path_hits_prefix [] (q ++ [x]) r) as H. simpl in H.
    rewrite <- app_assoc in H. simpl in H.
    assert (q ++ [x] ≠ []) by (by destruct q). specialize (H ltac:(done)). lia.
  - destruct (decide (0 < path_hits [] s (q ++ [x]))) as [H|H]; [|lia].
    exfalso. apply Hc. apply path_hits_pos in H as (q' & r & _ & -> & Heq).
    simpl in Heq. subst q'. apply cond_transaction_Some. split; [done|].
    exists r. rewrite <- app_assoc. split; [done|].
    rewrite <- app_assoc in Hnd. simpl in Hnd.
    apply NoDup_app in Hnd as (_ & Hd & _). intros Hx. apply (Hd x Hx). by left.
Qed.

Lemma count_list_omap_cons {A : Type} (f : A → option (list string)) (a : A) (l : list A)
    (q : list string) :
  count_list (omap f (a :: l)) q
  = (if decide (f a = Some q) then 1 else 0) + count_list (omap f l) q.
Proof.
  rewrite omap_cons_eq. destruct (f a) as [q'|].
  - cbn [count_occ]. destruct (decide (q' = q)) as [->|Hne].
    + by rewrite decide_True.
    + rewrite decide_False; [done|]. by intros [= ?].
  - by destruct (decide (None = Some q)).
Qed.

(** The conditional transactions of [x], counted on the inserted
    sequences. *)
Lemma count_list_cond_transactions x ss q :
  Forall NoDup ss →
  count_list (omap (cond_transaction x) ss) q
  = if decide (q = []) then 0 else walked ss (q ++ [x]).
Proof.
  unfold walked. induction 1 as [|s ss Hs Hss IH].
  { by destruct (decide (q = [])). }
  rewrite count_list_omap_cons, IH. csimpl.
  destruct (decide (q = [])) as [->|Hq].
  - rewrite decide_False; [done|]. intros (Hne & _)%cond_transaction_Some. done.
  - by rewrite path_hits_cond_transaction.
Qed.

(** *** Counting baskets *)

Lemma length_filter_ext {A : Type} (P Q : A → Prop) `{∀ x, Decision (P x)}
    `{∀ x, Decision (Q x)} (l : list A) :
  (∀ x, x ∈ l → P x ↔ Q x) → length (filter P l) = length (filter Q l).
Proof.
  induction l as [|x l IH]; intros Hext; [done|].
  rewrite !filter_cons.
  assert (Hl : length (filter P l) = length (filter Q l)).
  { apply IH. intros y Hy. apply Hext. by right. }
  destruct (decide (P x)) as [HP|HP]; destruct (decide (Q x)) as [HQ|HQ]; simpl;
    try (by rewrite Hl).
  - exfalso. apply HQ, (Hext x); [by left|done].
  - exfalso. apply HP, (Hext x); [by left|done].
Qed.

Lemma length_filter_omap {A B : Type} (f : A → option B) (P : B → Prop) (Q : A → Prop)
    `{∀ x, Decision (P x)} `{∀ x, Decision (Q x)} (l : list A) :
  (∀ a, a ∈ l → Q a ↔ ∃ b, f a = Some b ∧ P b) →
  length (filter P (omap f l)) = length (filter Q l).
Proof.
  induction l as [|a l IH]; intros Hext; [done|].
  assert (Hl : length (filter P (omap f l)) = length (filter Q l)).
  { apply IH. intros y Hy. apply Hext. by right. }
  rewrite omap_cons_eq, (filter_cons Q).
  pose proof (Hext a ltac:(by left)) as Ha.
  destruct (f a) as [b|].
  - rewrite filter_cons. destruct (decide (P b)) as [Hb|Hb];
      destruct (decide (Q a)) as [Hq|Hq]; simpl; try (by rewrite Hl).
    + exfalso. apply Hq, Ha. by exists b.
    + exfalso. apply Ha in Hq as (b' & [= <-] & ?). done.
  - destruct (decide (Q a)) as [Hq|Hq]; [|done].
    exfalso. by apply Ha in Hq as (b' & ? & ?).
Qed.

Lemma support_count_perm ts ts' S : ts ≡ₚ ts' → support_count ts S = support_count ts' S.
Proof. intros Hp. unfold support_count. by rewrite Hp. Qed.

Lemma support_count_pos ts S :
  0 < support_count ts S ↔ ∃ tr, tr ∈ ts ∧ S ⊆ list_to_set tr.
Proof.
  unfold support_count. split.
  - intros H. destruct (filter _ ts) as [|tr l] eqn:Hf; [simpl in H; lia|].
    assert (Hin : tr ∈ filter (λ tr, S ⊆ (list_to_set tr : gset string)) ts)
      by (rewrite Hf; by left).
    apply list_elem_of_filter in Hin as [? ?]. by exists tr.
  - intros (tr & Hin & Hsub).
    assert (Hf : tr ∈ filter (λ tr, S ⊆ (list_to_set tr : gset string)) ts)
      by (by apply list_elem_of_filter).
    destruct (filter _ ts); [by apply elem_of_nil in Hf|simpl; lia].
Qed.

Lemma support_count_mono ts (S S' : gset string) :
  S ⊆ S' → support_count ts S' ≤ support_count ts S.
Proof.
  intros Hsub. unfold support_count. induction ts as [|tr ts IH]; [done|].
  rewrite !filter_cons.
  destruct (decide (S' ⊆ list_to_set tr)) as [H'|H'];
    destruct (decide (S ⊆ list_to_set tr)) as [H|H]; simpl; try lia.
  exfalso. apply H. by etrans.
Qed.

(** In a basket without duplicates an item occurs once or not at all. *)
Lemma count_of_NoDup (tr : list string) (x : string) :
  NoDup tr → count_of tr x = if decide (x ∈ tr) then 1 else 0.
Proof.
  induction 1 as [|y tr Hy Hnd IH].
  - destruct (decide (x ∈ [])) as [Hin|_]; [by apply elem_of_nil in Hin|done].
  - cbn [count_occ]. rewrite IH.
    destruct (decide (y = x)) as [->|Hne]; destruct (decide (x ∈ tr)) as [Hin|Hin];
      destruct (decide (x ∈ _ :: tr)) as [Hin'|Hin']; try done.
    + exfalso. apply Hin'. by left.
    + exfalso. apply Hin'. by right.
    + apply elem_of_cons in Hin' as [?|?]; congruence.
Qed.

Lemma support_count_singleton ts x :
  Forall NoDup ts → support_count ts {[x]} = inserted ts x.
Proof.
  unfold support_count, inserted. induction 1 as [|tr ts Htr Hts IH]; [done|].
  rewrite filter_cons. csimpl. rewrite count_of_NoDup by done.
  destruct (decide (x ∈ tr)) as [Hin|Hin].
  - rewrite decide_True; [simpl; by rewrite IH|].
    intros y ->%elem_of_singleton. by apply elem_of_list_to_set.
  - rewrite decide_False; [by rewrite IH|].
    intros Hsub. apply Hin.
    apply (proj1 (elem_of_list_to_set (C := gset string) x tr)), Hsub.
    by apply elem_of_singleton.
Qed.

Lemma omap_fmap_compose {A B C : Type} (g : A → B) (f : B → option C) (l : list A) :
  omap f (g <$> l) = omap (λ a, f (g a)) l.
Proof.
  induction l as [|a l IH]; [done|].
  rewrite fmap_cons, !omap_cons_eq, IH. done.
Qed.

(** What a conditional transaction of [x] is made of: frequent items of one
    basket that sort strictly in front of [x]. *)
Lemma cond_transaction_items fr tr x q :
  NoDup tr → cond_transaction x (filter_and_sort fr tr) = Some q →
  q ≠ [] ∧ NoDup q ∧ length q < length tr ∧ x ∈ tr ∧ is_Some (dict_get x fr) ∧
  ∀ y, y ∈ q → y ∈ tr ∧ is_Some (dict_get y fr) ∧ key_le fr y x = true ∧ y ≠ x.
Proof.
  intros Hnd (Hq & r & Hs & Hx)%cond_transaction_Some.
  pose proof (filter_and_sort_NoDup fr tr Hnd) as Hnds.
  pose proof (filter_and_sort_sorted fr tr) as Hsorted.
  pose proof (filter_and_sort_length fr tr) as Hlen.
  assert (Hin : ∀ y, y ∈ q ++ x :: r → is_Some (dict_get y fr) ∧ y ∈ tr).
  { intros y Hy. rewrite <- Hs in Hy. by apply elem_of_filter_and_sort in Hy. }
  rewrite Hs in Hnds, Hsorted, Hlen. rewrite length_app in Hlen. simpl in Hlen.
  split; [done|]. split; [by apply NoDup_app in Hnds as (? & _)|].
  split; [lia|].
  destruct (Hin x) as [Hfx Hxt]; [apply elem_of_app; right; by left|].
  split; [done|]. split; [done|].
  intros y Hy. destruct (Hin y) as [Hfy Hyt]; [apply elem_of_app; by left|].
  split; [done|]. split; [done|]. split.
  - apply (StronglySorted_app_1_elem_of _ _ _ _ _ Hsorted Hy). by left.
  - intros ->. done.
Qed.

(** A basket that has [x] and the items [S], all of which are frequent and
    sort in front of [x], gives a conditional transaction with [S]. *)
Lemma cond_transaction_covers fr tr x (S : gset string) :
  NoDup tr → S ≠ ∅ → is_Some (dict_get x fr) →
  (∀ y, y ∈ S → is_Some (dict_get y fr) ∧ key_le fr y x = true ∧ y ≠ x) →
  S ∪ {[x]} ⊆ list_to_set tr →
  ∃ q, cond_transaction x (filter_and_sort fr tr) = Some q ∧ S ⊆ list_to_set q.
Proof.
  intros Hnd HS Hfx Hbefore Hsub.
  pose proof (filter_and_sort_NoDup fr tr Hnd) as Hnds.
  pose proof (filter_and_sort_sorted fr tr) as Hsorted.
  assert (Hmem : ∀ y, y ∈ S ∪ {[x]} → y ∈ tr).
  { intros y Hy. apply (proj1 (elem_of_list_to_set (C := gset string) y tr)).
    by apply Hsub. }
  assert (Hxs : x ∈ filter_and_sort fr tr).
  { apply elem_of_filter_and_sort. split; [done|].
    apply Hmem, elem_of_union. right. by apply elem_of_singleton. }
  apply list_elem_of_split in Hxs as (q & r & Hs).
  rewrite Hs in Hnds, Hsorted.
  assert (Hxq : x ∉ q).
  { intros Hx. apply NoDup_app in Hnds as (_ & Hd & _). apply (Hd x Hx). by left. }
  assert (HSq : ∀ y, y ∈ S → y ∈ q).
  { intros y Hy. destruct (Hbefore y Hy) as (Hfy & Hle & Hne).
    assert (Hys : y ∈ q ++ x :: r).
    { rewrite <- Hs. apply elem_of_filter_and_sort. split; [done|].
      apply Hmem, elem_of_union. by left. }
    apply elem_of_app in Hys as [?|Hys]; [done|].
    apply elem_of_cons in Hys as [?|Hyr]; [done|].
    exfalso. apply Hne. apply (key_le_antisym fr); [done|].
    apply StronglySorted_app_1_r, StronglySorted_cons in Hsorted as [Hall _].
    by apply (proj1 (Forall_forall _ _) Hall y). }
  exists q. split.
  - apply cond_transaction_Some. split; [|by exists r].
    intros ->. apply HS. apply set_eq. intros y. split; [|by intros ?%elem_of_empty].
    intros Hy. by apply HSq, elem_of_nil in Hy.
  - intros y Hy. apply elem_of_list_to_set. by apply HSq.
Qed.

(** The support of a set of items in the conditional transactions of [x] is
    the support of the set with [x] in the baskets. *)
Lemma support_count_cond fr ts x (S : gset string) :
  Forall NoDup ts → S ≠ ∅ → is_Some (dict_get x fr) →
  (∀ y, y ∈ S → is_Some (dict_get y fr) ∧ key_le fr y x = true ∧ y ≠ x) →
  support_count (cond_transactions_of fr ts x) S = support_count ts (S ∪ {[x]}).
Proof.
  intros Hnd HS Hfx Hbefore. unfold support_count, cond_transactions_of.
  apply length_filter_omap. intros tr Htr.
  pose proof (proj1 (Forall_forall _ _) Hnd tr Htr) as Hndtr. split.
  - intros Hsub. by apply cond_transaction_covers.
  - intros (q & Hq & Hsub).
    destruct (cond_transaction_items fr tr x q Hndtr Hq) as (_ & _ & _ & Hx & _ & Hin).
    intros y [Hy|Hy%elem_of_singleton]%elem_of_union.
    + apply elem_of_list_to_set. apply Hin.
      apply (proj1 (elem_of_list_to_set (C := gset string) y q)). by apply Hsub.
    + subst y. by apply elem_of_list_to_set.
Qed.

(** A set of items that occurs in a conditional transaction of [x] has
    frequent items only, all of which sort in front of [x]. *)
Lemma cond_support_items fr ts x (S : gset string) :
  Forall NoDup ts → 0 < support_count (cond_transactions_of fr ts x) S →
  is_Some (dict_get x fr) ∧
  ∀ y, y ∈ S → is_Some (dict_get y fr) ∧ key_le fr y x = true ∧ y ≠ x.
Proof.
  intros Hnd (q & Hq & Hsub)%support_count_pos.
  apply list_elem_of_omap in Hq as (tr & Htr & Hq).
  pose proof (proj1 (Forall_forall _ _) Hnd tr Htr) as Hndtr.
  destruct (cond_transaction_items fr tr x q Hndtr Hq) as (_ & _ & _ & _ & Hfx & Hin).
  split; [done|]. intros y Hy. apply Hin.
  apply (proj1 (elem_of_list_to_set (C := gset string) y q)). by apply Hsub.
Qed.

Lemma cond_transactions_NoDup fr ts x :
  Forall NoDup ts → Forall NoDup (cond_transactions_of fr ts x).
Proof.
  intros Hnd. apply Forall_forall. intros q (tr & Htr & Hq)%list_elem_of_omap.
  pose proof (proj1 (Forall_forall _ _) Hnd tr Htr) as Hndtr.
  by destruct (cond_transaction_items fr tr x q Hndtr Hq) as (_ & ? & _).
Qed.

Lemma cond_transactions_length fr ts x bound :
  Forall NoDup ts → (∀ tr, tr ∈ ts → length tr < S bound) →
  ∀ q, q ∈ cond_transactions_of fr ts x → length q < bound.
Proof.
  intros Hnd Hb q (tr & Htr & Hq)%list_elem_of_omap.
  pose proof (proj1 (Forall_forall _ _) Hnd tr Htr) as Hndtr.
  destruct (cond_transaction_items fr tr x q Hndtr Hq) as (_ & _ & Hl & _).
  specialize (Hb tr Htr). lia.
Qed.

(** The conditional pattern base of a tree built from baskets without
    duplicates, expanded, has the conditional transactions of the baskets. *)
Lemma conditional_pattern_base_transactions ts m t x :
  Forall NoDup ts → new_FPTree ts m = Some t →
  ∃ cpb, conditional_pattern_base t x = Some cpb ∧
         expand_patterns cpb ≡ₚ cond_transactions_of (freq t) ts x.
Proof.
  intros Hnd Ht.
  destruct (new_FPTree_inv ts m) as (t' & paths & Ht' & Hfr & Hinv).
  assert (t' = t) as -> by congruence.
  destruct (conditional_pattern_base_spec t paths _ _ Hinv x) as (cpb & Hcpb & Hcount).
  exists cpb. split; [done|].
  apply (Permutation_count_occ (λ x y : list string, decide (x = y))). intros q.
  rewrite Hcount. unfold cond_transactions_of. rewrite Hfr.
  rewrite <- (omap_fmap_compose (filter_and_sort (frequencies ts m)) (cond_transaction x)).
  fold (sorted_transactions ts m).
  rewrite count_list_cond_transactions; [done|].
  apply Forall_forall. intros s (tr & -> & Htr)%list_elem_of_fmap.
  apply filter_and_sort_NoDup. by apply (proj1 (Forall_forall _ _) Hnd).
Qed.

Lemma frequent_itemsets_of_perm ts ts' m raw :
  ts ≡ₚ ts' → frequent_itemsets_of ts m raw → frequent_itemsets_of ts' m raw.
Proof.
  intros Hp [Hnd Hmem]. split; [done|]. intros S c.
  rewrite Hmem, (support_count_perm ts ts' S Hp). done.
Qed.

Lemma frequent_itemsets_of_nil ts m :
  1 ≤ m → (∀ S, S ≠ ∅ → support_count ts S < m) → frequent_itemsets_of ts m [].
Proof.
  intros Hm Hnone. split; [constructor|]. intros S c. split.
  - by intros ?%elem_of_nil.
  - intros (HS & -> & Hc). specialize (Hnone S HS). lia.
Qed.

(** An item is in the frequency table iff enough baskets have it. *)
Lemma frequent_lookup ts m x :
  1 ≤ m → Forall NoDup ts →
  is_Some (dict_get x (frequencies ts m)) ↔ m ≤ support_count ts {[x]}.
Proof.
  intros Hm Hnd. rewrite frequencies_lookup, support_count_singleton by done.
  destruct (decide (0 < inserted ts x ∧ m ≤ inserted ts x)) as [[? ?]|Hn].
  - split; [done|]. by eexists.
  - split; [by intros [? ?]|]. intros ?. exfalso. apply Hn. lia.
Qed.

Lemma frequent_subset ts m (S : gset string) y :
  y ∈ S → m ≤ support_count ts S → m ≤ support_count ts {[y]}.
Proof.
  intros Hy Hm. etrans; [exact Hm|]. apply support_count_mono.
  by intros z ->%elem_of_singleton.
Qed.

(** A non-empty set of items has a last item in the order of the tree. *)
Lemma last_item_list fr (l : list string) :
  l ≠ [] → ∃ x, x ∈ l ∧ ∀ y, y ∈ l → key_le fr y x = true.
Proof.
  induction l as [|z l IH]; [done|]. intros _.
  destruct l as [|z' l'].
  { exists z. split; [by left|]. intros y ->%list_elem_of_singleton.
    apply key_le_refl. }
  destruct IH as (x & Hx & Hmax); [done|].
  destruct (key_le fr z x) eqn:Hzx.
  - exists x. split; [by right|]. intros y [->|Hy]%elem_of_cons; [done|by apply Hmax].
  - apply key_le_total in Hzx. exists z. split; [by left|].
    intros y [->|Hy]%elem_of_cons; [apply key_le_refl|].
    eapply key_le_trans; [by apply Hmax|done].
Qed.

Lemma last_item fr (S : gset string) :
  S ≠ ∅ → ∃ x, x ∈ S ∧ ∀ y, y ∈ S → key_le fr y x = true.
Proof.
  intros HS. destruct (last_item_list fr (elements S)) as (x & Hx & Hmax).
  { intros He. by apply elements_empty_inv, leibniz_equiv in He. }
  exists x. split; [by apply elem_of_elements|].
  intros y Hy. by apply Hmax, elem_of_elements.
Qed.

(** The block of [x] is made of [{x}] and of the frequent itemsets of the
    conditional transactions of [x], with [x] added. *)
Lemma block_of_cond ts m x raw :
  1 ≤ m → Forall NoDup ts → m ≤ support_count ts {[x]} →
  frequent_itemsets_of (cond_transactions_of (frequencies ts m) ts x) m raw →
  block_of (frequencies ts m) ts m x
    (({[x]}, support_count ts {[x]}) :: with_prefix {[x]} raw).
Proof.
  intros Hm Hnd Hx [Hndr Hmem]. set (fr := frequencies ts m) in *.
  assert (Hfx : is_Some (dict_get x fr)) by (by apply frequent_lookup).
  assert (Hitems : ∀ S c, (S, c) ∈ raw →
    S ≠ ∅ ∧ c = support_count ts (S ∪ {[x]}) ∧ m ≤ c ∧
    ∀ y, y ∈ S → key_le fr y x = true ∧ y ≠ x).
  { intros S c (HS & Hc & Hmc)%Hmem.
    destruct (cond_support_items fr ts x S Hnd) as [_ Hbefore]; [lia|].
    split; [done|]. split; [rewrite Hc; by apply support_count_cond|]. split; [done|].
    intros y Hy. by destruct (Hbefore y Hy) as (_ & ? & ?). }
  split.
  - rewrite fmap_cons. simpl. apply NoDup_cons. split.
    + intros (e & He & Hin)%list_elem_of_fmap.
      apply list_elem_of_fmap in Hin as ([S c] & -> & Hin). simpl in He.
      destruct (Hitems S c Hin) as (HS & _ & _ & Hbefore).
      apply HS. apply set_eq. intros y. split; [|by intros ?%elem_of_empty].
      intros Hy. exfalso. destruct (Hbefore y Hy) as [_ Hne]. apply Hne.
      assert (Hy' : y ∈ ({[x]} : gset string)).
      { rewrite He. apply elem_of_union. by right. }
      by apply elem_of_singleton in Hy'.
    + unfold with_prefix. rewrite <- list_fmap_compose.
      apply NoDup_fmap_2_strong.
      * intros [S1 c1] [S2 c2] H1 H2 Heq. simpl in Heq.
        destruct (Hitems S1 c1 H1) as (_ & -> & _ & Hb1).
        destruct (Hitems S2 c2 H2) as (_ & -> & _ & Hb2).
        assert (S1 = S2) as ->; [|done].
        apply set_eq. intros y. split; intros Hy.
        -- assert (Hy' : y ∈ {[x]} ∪ S2) by (rewrite <- Heq; apply elem_of_union; by right).
           apply elem_of_union in Hy' as [Hy'%elem_of_singleton|?]; [|done].
           by destruct (Hb1 y Hy).
        -- assert (Hy' : y ∈ {[x]} ∪ S1) by (rewrite Heq; apply elem_of_union; by right).
           apply elem_of_union in Hy' as [Hy'%elem_of_singleton|?]; [|done].
           by destruct (Hb2 y Hy).
      * eapply NoDup_fmap_1. exact Hndr.
  - intros S c. rewrite elem_of_cons. split.
    + intros [[= -> ->]|Hin].
      * split; [by apply elem_of_singleton|]. split; [|done].
        intros y ->%elem_of_singleton. apply key_le_refl.
      * apply list_elem_of_fmap in Hin as ([S' c'] & [= -> ->] & Hin).
        destruct (Hitems S' c' Hin) as (_ & Hc & Hmc & Hbefore).
        split; [apply elem_of_union; left; by apply elem_of_singleton|].
        split; [|by rewrite (comm_L (∪))].
        intros y [->%elem_of_singleton|Hy]%elem_of_union; [apply key_le_refl|].
        by destruct (Hbefore y Hy).
    + intros (HxS & Hmax & -> & Hmc).
      destruct (decide (S = {[x]})) as [->|Hne]; [by left|]. right.
      set (S' := S ∖ {[x]}).
      assert (HS : S = {[x]} ∪ S').
      { apply set_eq. intros y. unfold S'.
        rewrite elem_of_union, elem_of_difference, elem_of_singleton.
        split; [|by intros [->|[? ?]]].
        intros Hy. destruct (decide (y = x)); [by left|by right]. }
      assert (HS' : S' ≠ ∅).
      { intros He. apply Hne. rewrite HS, He. by rewrite (right_id_L ∅ (∪)). }
      apply list_elem_of_fmap. exists (S', support_count ts S). split.
      { simpl. by rewrite <- HS. }
      apply Hmem. split; [done|]. split; [|done].
      rewrite support_count_cond; [by rewrite (comm_L (∪)), <- HS|done..|].
      intros y [Hy Hyx]%elem_of_difference.
      split; [|split; [by apply Hmax|intros Heq; apply Hyx; by apply elem_of_singleton]].
      apply frequent_lookup; [done..|]. by apply (frequent_subset ts m S).
Qed.

Lemma elem_of_blocks fr ts m (l : list (string * nat))
    (bs : list (list (gset string * nat))) S c :
  Forall2 (λ e b, block_of fr ts m e.1 b) l bs →
  (S, c) ∈ concat bs ↔
  ∃ e, e ∈ l ∧ e.1 ∈ S ∧ (∀ y, y ∈ S → key_le fr y e.1 = true) ∧
       c = support_count ts S ∧ m ≤ c.
Proof.
  induction 1 as [|e b l bs [_ Hb] _ IH]; simpl.
  - split; [by intros ?%elem_of_nil|]. by intros (e & ?%elem_of_nil & _).
  - rewrite elem_of_app, IH, Hb. split.
    + intros [?|(e' & ? & ?)]; [exists e; split; [by left|done]|].
      exists e'. split; [by right|done].
    + intros (e' & [->|?]%elem_of_cons & ?); [by left|]. right. by exists e'.
Qed.

Lemma blocks_NoDup fr ts m (l : list (string * nat))
    (bs : list (list (gset string * nat))) :
  NoDup l.*1 → Forall2 (λ e b, block_of fr ts m e.1 b) l bs →
  NoDup (concat bs).*1.
Proof.
  intros Hnd Hblocks.
  induction Hblocks as [|e b l bs [Hb Hbm] Hbs IH]; simpl; [constructor|].
  rewrite fmap_app. apply NoDup_app. apply NoDup_cons in Hnd as [He Hnd].
  split; [done|]. split; [|by apply IH].
  intros S (eb & -> & Hin)%list_elem_of_fmap (er & Heq & Hin')%list_elem_of_fmap.
  destruct eb as [S c], er as [S' c']. simpl in Heq. subst S'.
  apply Hbm in Hin as (HeS & Hmax & _).
  apply (elem_of_blocks fr ts m l bs S c' Hbs) in Hin' as (e' & He' & He'S & Hmax' & _).
  apply He. assert (e.1 = e'.1) as ->.
  { apply (key_le_antisym fr); [by apply Hmax'|by apply Hmax]. }
  apply list_elem_of_fmap. by exists e'.
Qed.

(** The blocks of the frequent items together are the frequent itemsets. *)
Lemma frequent_itemsets_of_blocks fr ts m (l : list (string * nat))
    (bs : list (list (gset string * nat))) :
  NoDup l.*1 → (∀ x, x ∈ l.*1 ↔ m ≤ support_count ts {[x]}) →
  Forall2 (λ e b, block_of fr ts m e.1 b) l bs →
  frequent_itemsets_of ts m (concat bs).
Proof.
  intros Hnd Hkeys Hblocks. split; [by eapply blocks_NoDup|].
  intros S c. rewrite (elem_of_blocks fr ts m l bs S c Hblocks). split.
  - intros (e & _ & HeS & _ & -> & Hmc). split; [|done].
    intros ->. by apply elem_of_empty in HeS.
  - intros (HS & -> & Hmc). destruct (last_item fr S HS) as (x & Hx & Hmax).
    assert (Hxl : x ∈ l.*1) by (apply Hkeys; by apply (frequent_subset ts m S)).
    apply list_elem_of_fmap in Hxl as (e & -> & He). by exists e.
Qed.

(** ** Mining returns the frequent itemsets *)

Lemma sum_list_if {A : Type} (b : bool) (f : A → nat) (l : list A) :
  sum_list ((λ a, if b then f a else 0) <$> l) = if b then sum_list (f <$> l) else 0.
Proof. destruct b; [done|]. induction l; csimpl; [done|]. by rewrite IHl. Qed.

(** Only the frequent items are inserted, each as often as it occurs. *)
Lemma inserted_sorted_transactions_cases ts m x :
  inserted (sorted_transactions ts m) x
  = if decide (is_Some (dict_get x (frequencies ts m))) then inserted ts x else 0.
Proof.
  unfold sorted_transactions.
  change (sum_list ((λ s, count_of s x) <$> (filter_and_sort (frequencies ts m) <$> ts))
          = if decide (is_Some (dict_get x (frequencies ts m)))
            then sum_list ((λ s, count_of s x) <$> ts) else 0).
  rewrite <- list_fmap_compose.
  destruct (decide (is_Some (dict_get x (frequencies ts m)))) as [Hf|Hf].
  - f_equal. apply list_fmap_ext. intros i tr _. simpl.
    by rewrite count_of_filter_and_sort, decide_True.
  - apply sum_list_zero. intros tr _. simpl.
    by rewrite count_of_filter_and_sort, decide_False.
Qed.

Lemma walked_head ss s z s' : s ∈ ss → s = z :: s' → 0 < walked ss [z].
Proof.
  intros Hin ->. unfold walked.
  induction ss as [|s ss IH]; [by apply elem_of_nil in Hin|]. csimpl.
  apply elem_of_cons in Hin as [<-|Hin].
  - pose proof (path_hits_prefix [] [z] s') as H. simpl in H.
    specialize (H ltac:(done)). simpl. lia.
  - specialize (IH Hin). lia.
Qed.

(** An empty tree: no itemset is frequent. *)
Lemma is_empty_no_frequent ts m t :
  1 ≤ m → Forall NoDup ts → new_FPTree ts m = Some t → is_empty t = Some true →
  ∀ S, S ≠ ∅ → support_count ts S < m.
Proof.
  intros Hm Hnd Ht He S HS.
  destruct (new_FPTree_inv ts m) as (t' & paths & Ht' & Hfr & Hinv).
  assert (t' = t) as -> by congruence.
  destruct (is_empty_spec t paths _ _ Hinv) as (b & Hb & Hbs).
  assert (b = true) as -> by congruence.
  destruct (decide (support_count ts S < m)) as [|Hge]; [done|]. exfalso.
  apply set_choose_L in HS as [y Hy].
  assert (Hfy : m ≤ support_count ts {[y]}) by (apply (frequent_subset ts m S); [done|lia]).
  destruct (proj1 (support_count_pos ts {[y]})) as (tr & Htr & Hsub); [lia|].
  assert (Hys : y ∈ filter_and_sort (frequencies ts m) tr).
  { apply elem_of_filter_and_sort. split; [by apply frequent_lookup|].
    apply (proj1 (elem_of_list_to_set (C := gset string) y tr)), Hsub.
    by apply elem_of_singleton. }
  destruct (filter_and_sort (frequencies ts m) tr) as [|z s'] eqn:Hs;
    [by apply elem_of_nil in Hys|].
  assert (Hw : 0 < walked (sorted_transactions ts m) [z]).
  { apply (walked_head _ (z :: s') z s'); [|done].
    apply list_elem_of_fmap. exists tr. by rewrite Hs. }
  rewrite (proj1 Hbs eq_refl z) in Hw. lia.
Qed.

(** A loop whose rounds each return a block returns the blocks. *)
Lemma for_extend_blocks {A B C : Type} (f : A → option (list C)) (g : B → C)
    (P : A → list B → Prop) (l : list A) :
  (∀ a, a ∈ l → ∃ b, f a = Some (g <$> b) ∧ P a b) →
  ∃ bs, Forall2 P l bs ∧ for_extend f l = Some (g <$> concat bs).
Proof.
  induction l as [|a l IH]; intros H.
  { exists []. split; [constructor|done]. }
  destruct (H a) as (b & Hb & HP); [by left|].
  destruct IH as (bs & Hbs & Hl); [intros a' Ha'; apply H; by right|].
  exists (b :: bs). split; [by constructor|].
  rewrite for_extend_cons, Hb. simpl. rewrite Hl. simpl. by rewrite fmap_app.
Qed.

Lemma with_prefix_assoc (prefix : gset string) (x : string) raw :
  with_prefix (prefix ∪ {[x]}) raw = with_prefix prefix (with_prefix {[x]} raw).
Proof.
  unfold with_prefix. rewrite <- list_fmap_compose. apply list_fmap_ext.
  intros i [S c] _. simpl. by rewrite (assoc_L (∪)).
Qed.

(** Mining the tree of baskets without duplicates returns every frequent
    itemset once, with its support count, below the prefix. *)
Lemma fpgrowth_mine_frequent fuel : ∀ ts m prefix t,
  1 ≤ m → Forall NoDup ts → 0 < fuel → (∀ tr, tr ∈ ts → length tr < fuel) →
  new_FPTree ts m = Some t →
  ∃ raw, fpgrowth_mine fuel t m prefix = Some (with_prefix prefix raw) ∧
         frequent_itemsets_of ts m raw.
Proof.
  induction fuel as [|fuel IH]; intros ts m prefix t Hm Hnd Hpos Hlen Ht; [lia|].
  destruct (new_FPTree_inv ts m) as (t' & paths & Ht' & Hfr & Hinv).
  assert (t' = t) as -> by congruence.
  set (R := λ ct ni, fpgrowth_mine fuel ct m ni).
  change (fpgrowth_mine (S fuel) t m prefix) with
    (for_extend (mine_item R t m prefix) (header_order t)).
  assert (Hkeys : ∀ x, x ∈ (header t).*1 ↔ m ≤ support_count ts {[x]}).
  { intros x. rewrite (header_keys _ _ _ _ Hinv), inserted_sorted_transactions_cases.
    rewrite <- frequent_lookup by done.
    destruct (decide (is_Some (dict_get x (frequencies ts m)))) as [Hf|Hf].
    - split; [done|]. intros _. rewrite frequencies_lookup in Hf.
      destruct (decide (0 < inserted ts x ∧ m ≤ inserted ts x)) as [[? ?]|?]; [done|].
      by destruct Hf.
    - split; [lia|done]. }
  destruct (for_extend_blocks (mine_item R t m prefix)
              (λ e : gset string * nat, (prefix ∪ e.1, e.2))
              (λ e b, block_of (frequencies ts m) ts m e.1 b) (header_order t))
    as (bs & Hbs & Hres).
  { intros [x a] Hin%elem_of_sorted. simpl.
    pose proof (header_entry _ _ _ _ _ _ Hinv Hin) as Hget.
    assert (Hfx : m ≤ support_count ts {[x]}).
    { apply Hkeys, list_elem_of_fmap. by exists (x, a). }
    assert (Hocc : inserted (sorted_transactions ts m) x = support_count ts {[x]}).
    { rewrite inserted_sorted_transactions_cases, decide_True
        by (by apply frequent_lookup).
      by rewrite support_count_singleton. }
    destruct (conditional_pattern_base_transactions ts m t x Hnd Ht)
      as (cpb & Hcpb & Hperm).
    rewrite Hfr in Hperm.
    set (cts := cond_transactions_of (frequencies ts m) ts x) in *.
    assert (Hndc : Forall NoDup (expand_patterns cpb)).
    { rewrite Hperm. by apply cond_transactions_NoDup. }
    assert (Hlenc : ∀ q, q ∈ expand_patterns cpb → length q < fuel).
    { intros q Hq. rewrite Hperm in Hq.
      by apply (cond_transactions_length (frequencies ts m) ts x fuel). }
    assert (Hsub : ∃ raw,
      mine_conditional R m (prefix ∪ {[x]}) (expand_patterns cpb)
      = Some (with_prefix (prefix ∪ {[x]}) raw) ∧
      frequent_itemsets_of cts m raw).
    { destruct (expand_patterns cpb) as [|q cts'] eqn:Hcts.
      - exists []. split; [done|]. apply frequent_itemsets_of_nil; [done|].
        intros S _. apply Permutation_nil_l in Hperm. rewrite <- Hperm.
        unfold support_count. simpl. lia.
      - destruct (new_FPTree_inv (q :: cts') m) as (tc & pathsc & Htc & _ & Hinvc).
        destruct (is_empty_spec tc pathsc _ _ Hinvc) as (b & Hb & _).
        assert (Hfuel : 0 < fuel).
        { specialize (Hlenc q ltac:(by left)). lia. }
        unfold mine_conditional. rewrite Htc. simpl. rewrite Hb. simpl.
        destruct b.
        + exists []. split; [done|]. apply frequent_itemsets_of_nil; [done|].
          intros S HS. rewrite <- (support_count_perm _ _ S Hperm).
          by apply (is_empty_no_frequent (q :: cts') m tc).
        + destruct (IH (q :: cts') m (prefix ∪ {[x]}) tc) as (raw & Hraw & Hfreq);
            [done..|].
          exists raw. split; [exact Hraw|].
          by apply (frequent_itemsets_of_perm (q :: cts')). }
    destruct Hsub as (raw & Hsub & Hfreq).
    exists (({[x]}, support_count ts {[x]}) :: with_prefix {[x]} raw). split.
    - unfold mine_item. simpl. rewrite <- Hget.
      rewrite (chain_support_header t paths _ _ Hinv x), Hocc. simpl.
      rewrite (proj2 (Nat.ltb_ge _ _) Hfx). rewrite Hcpb. simpl. rewrite Hsub. simpl.
      by rewrite with_prefix_assoc.
    - by apply block_of_cond. }
  exists (concat bs). split; [exact Hres|].
  apply (frequent_itemsets_of_blocks (frequencies ts m) ts m (header_order t)).
  - rewrite header_order_keys. apply Hinv.
  - intros x. rewrite header_order_keys. apply Hkeys.
  - exact Hbs.
Qed.

Lemma with_prefix_empty raw : with_prefix ∅ raw = raw.
Proof.
  unfold with_prefix. rewrite <- (list_fmap_id raw) at 2. apply list_fmap_ext.
  intros i [S c] _. simpl. by rewrite (left_id_L ∅ (∪)).
Qed.

Lemma result_entry_itemsets n max_len raw :
  sublist (itemsets <$> omap (result_entry n max_len) raw) raw.*1.
Proof.
  induction raw as [|[S c] raw IH]; [done|].
  rewrite omap_cons_eq. unfold result_entry at 1. simpl.
  destruct (Z.of_nat (size S) <=? max_len)%Z; simpl.
  - by apply sublist_skip.
  - by apply sublist_cons.
Qed.

(** X1: on baskets without duplicates [fpgrowth] returns exactly the
    frequent itemsets: every non-empty set of at most [max_len] items that
    at least [max(1, int(min_support * n))] baskets contain, once each, with
    the fraction of the baskets that contain it, rounded to six places. *)
Theorem fpgrowth_frequent_itemsets (transactions : list (list string))
    (min_support : Q) (max_len : Z) :
  Forall NoDup transactions →
  let n := length transactions in
  ∃ result,
    fpgrowth transactions min_support max_len = Some result ∧
    NoDup (itemsets <$> result) ∧
    ∀ fi, fi ∈ result ↔
      itemsets fi ≠ ∅ ∧ (Z.of_nat (size (itemsets fi)) ≤ max_len)%Z ∧
      min_count_of min_support n ≤ support_count transactions (itemsets fi) ∧
      support fi
      = py_round (inject_Z (Z.of_nat (support_count transactions (itemsets fi)))
                  / inject_Z (Z.of_nat n)) 6.
Proof.
  intros Hnd n. set (m := min_count_of min_support n).
  destruct (fpgrowth_returns transactions min_support max_len)
    as (t & raw & Ht & Hraw & Hres).
  destruct (fpgrowth_mine_frequent (recursion_depth transactions) transactions m ∅ t)
    as (raw0 & Hraw0 & Hnd0 & Hmem); [apply min_count_of_pos|done| | |done|].
  { unfold recursion_depth. lia. }
  { intros tr Htr. apply recursion_depth_bound in Htr. unfold recursion_depth. lia. }
  rewrite with_prefix_empty in Hraw0.
  assert (raw = raw0) as -> by (unfold m, n in Hraw0; congruence).
  eexists. split; [exact Hres|]. split.
  { eapply sublist_NoDup; [exact Hnd0|apply result_entry_itemsets]. }
  intros fi. rewrite list_elem_of_omap. split.
  - intros ([S c] & Hin & He). apply Hmem in Hin as (HS & -> & Hc).
    unfold result_entry in He. simpl in He.
    destruct (Z.of_nat (size S) <=? max_len)%Z eqn:Hl; [|done].
    injection He as <-. simpl. apply Z.leb_le in Hl. done.
  - intros (HS & Hl & Hc & Hsupp).
    exists (itemsets fi, support_count transactions (itemsets fi)). split.
    + by apply Hmem.
    + unfold result_entry. simpl. rewrite (proj2 (Z.leb_le _ _) Hl).
      fold n. rewrite <- Hsupp. by destruct fi.
Qed.

(** Three baskets: the pair [{a, b}] is in two of them. *)
Lemma fpgrowth_frequent_itemsets_witness :
  ∃ result,
    fpgrowth [["a"; "b"]; ["b"; "c"]; ["a"; "b"; "c"]] (1 # 2) 4 = Some result ∧
    mkFrequentItemset (666667 # 1000000) ({["a"]} ∪ {["b"]}) ∈ result.
Proof.
  destruct (fpgrowth_frequent_itemsets [["a"; "b"]; ["b"; "c"]; ["a"; "b"; "c"]]
              (1 # 2) 4) as (result & Hres & _ & Hmem).
  - refine (bool_decide_unpack _ _). vm_compute. exact I.
  - exists result. split; [exact Hres|]. apply Hmem. cbn [itemsets support].
    split; [refine (bool_decide_unpack _ _); vm_compute; exact I|].
    split; [vm_compute; discriminate|].
    split; [vm_compute; lia|].
    vm_compute. reflexivity.
Defined.

(** ** The tree that [FPTree(transactions, min_support)] builds *)

Lemma inserted_pos ts x : 0 < inserted ts x → ∃ tr, tr ∈ ts ∧ x ∈ tr.
Proof.
  unfold inserted. induction ts as [|tr ts IH]; csimpl; [lia|]. intros H.
  destruct (decide (0 < count_of tr x)) as [Hc|Hc].
  - exists tr. split; [by left|].
    apply list_elem_of_In, (count_occ_In (λ x y : string, decide (x = y))). lia.
  - destruct IH as (tr' & ? & ?); [lia|]. exists tr'. split; [by right|done].
Qed.

(** X2: [FPTree(transactions, min_support)] is built without error.  Its
    frequency table and its header table have exactly the items that occur
    at least once and at least [min_support] times in the transactions, all
    occurrences counted; the table gives that number, and so does the sum of
    the counts along the header chain of the item. *)
Theorem new_FPTree_tables (transactions : list (list string)) (min_support : nat) :
  ∃ t, new_FPTree transactions min_support = Some t ∧
    ∀ x, let c := inserted transactions x in
      dict_get x (freq t)
      = (if decide (0 < c ∧ min_support ≤ c) then Some c else None) ∧
      (is_Some (dict_get x (header t)) ↔ 0 < c ∧ min_support ≤ c) ∧
      chain_support (length (heap t)) (heap t) (dict_get x (header t))
      = Some (if decide (0 < c ∧ min_support ≤ c) then c else 0).
Proof.
  destruct (new_FPTree_inv transactions min_support) as (t & paths & Ht & Hfr & Hinv).
  exists t. split; [done|]. intros x c.
  pose proof (chain_support_header t paths _ _ Hinv x) as Hsum.
  pose proof (header_keys t paths _ _ Hinv x) as Hkey.
  rewrite inserted_sorted_transactions_cases in Hsum, Hkey.
  rewrite frequencies_lookup in Hsum, Hkey. fold c in Hsum, Hkey.
  rewrite Hfr, frequencies_lookup. fold c.
  split; [done|]. split.
  - rewrite <- not_eq_None_Some, dict_get_None.
    destruct (decide (0 < c ∧ min_support ≤ c)) as [Hc|Hc].
    + rewrite decide_True in Hkey by (by eexists). split; [done|].
      intros _ Hn. apply Hn, Hkey. lia.
    + rewrite decide_False in Hkey by (by intros [? ?]). split; [|done].
      intros Hn. exfalso. destruct (decide (x ∈ (header t).*1)) as [Hin|Hin]; [|done].
      apply Hkey in Hin. lia.
  - rewrite Hsum. f_equal.
    destruct (decide (0 < c ∧ min_support ≤ c)) as [Hc|Hc].
    + by rewrite decide_True by (by eexists).
    + by rewrite decide_False by (by intros [? ?]).
Qed.

(** X3: the tree that is built is empty, in the sense of [is_empty], iff no
    item occurs at least once and at least [min_support] times. *)
Theorem new_FPTree_is_empty (transactions : list (list string)) (min_support : nat) :
  ∃ t b, new_FPTree transactions min_support = Some t ∧ is_empty t = Some b ∧
    (b = true ↔
     ∀ x, ¬ (0 < inserted transactions x ∧ min_support ≤ inserted transactions x)).
Proof.
  destruct (new_FPTree_inv transactions min_support) as (t & paths & Ht & Hfr & Hinv).
  destruct (is_empty_spec t paths _ _ Hinv) as (b & Hb & Hbs).
  exists t, b. split; [done|]. split; [done|]. rewrite Hbs. split.
  - intros Hnone x Hx.
    destruct (inserted_pos transactions x) as (tr & Htr & Hin); [lia|].
    assert (Hxs : x ∈ filter_and_sort (frequencies transactions min_support) tr).
    { apply elem_of_filter_and_sort. split; [|done].
      rewrite frequencies_lookup. rewrite decide_True by done. by eexists. }
    destruct (filter_and_sort (frequencies transactions min_support) tr)
      as [|z s'] eqn:Hs; [by apply elem_of_nil in Hxs|].
    assert (Hw : 0 < walked (sorted_transactions transactions min_support) [z]).
    { apply (walked_head _ (z :: s') z s'); [|done].
      apply list_elem_of_fmap. exists tr. by rewrite Hs. }
    rewrite (Hnone z) in Hw. lia.
  - intros Hnone x.
    destruct (decide (0 < walked (sorted_transactions transactions min_support) [x]))
      as [Hw|Hw]; [|lia]. exfalso.
    apply walked_length in Hw as (s & Hs & Hl).
    apply list_elem_of_fmap in Hs as (tr & -> & Htr).
    destruct (filter_and_sort (frequencies transactions min_support) tr)
      as [|z s'] eqn:Hs; [simpl in Hl; lia|].
    assert (Hz : z ∈ filter_and_sort (frequencies transactions min_support) tr)
      by (rewrite Hs; by left).
    apply elem_of_filter_and_sort in Hz as [Hfz _].
    rewrite frequencies_lookup in Hfz.
    destruct (decide (0 < inserted transactions z ∧ min_support ≤ inserted transactions z))
      as [Hc|Hc]; [by apply (Hnone z)|by destruct Hfz].
Qed.

(** X4: the nodes of the tree that is built form a tree below the root.
    The root has no item.  Every other node has an item, a count of at
    least 1 and a parent that was allocated before it, and it is the child
    of its parent for its item; conversely the child of a node for an item
    is a node of that item whose parent is the node. *)
Theorem new_FPTree_shape (transactions : list (list string)) (min_support : nat) :
  ∃ t, new_FPTree transactions min_support = Some t ∧
    (∃ r, heap t !! root = Some r ∧ item r = None) ∧
    (∀ a nd, 0 < a → heap t !! a = Some nd →
       1 ≤ count nd ∧
       ∃ x pa pn, item nd = Some x ∧ parent nd = Some pa ∧ pa < a ∧
                  heap t !! pa = Some pn ∧ dict_get x (children pn) = Some a) ∧
    (∀ a nd x b, heap t !! a = Some nd → dict_get x (children nd) = Some b →
       ∃ nb, heap t !! b = Some nb ∧ item nb = Some x ∧ parent nb = Some a).
Proof.
  destruct (new_FPTree_inv transactions min_support) as (t & paths & Ht & _ & Hs & _).
  exists t. split; [done|].
  pose proof (inv_length _ _ _ Hs) as Hlen.
  destruct (inv_root _ _ _ Hs) as (Hp0 & r & Hr & Hir).
  split; [by exists r|]. split.
  - intros a nd Ha Hnd.
    destruct (inv_node _ _ _ Hs a nd Ha Hnd) as (x & pa & pp & Hi & Hpar & Hlt & Hpp & Hpa).
    destruct (inv_count _ _ _ Hs a nd _ Ha Hnd Hpa) as [Hc Hpos].
    split; [lia|].
    assert (Hpalt : pa < length (heap t)).
    { rewrite <- Hlen. by eapply lookup_lt_Some. }
    destruct (lookup_lt_is_Some_2 _ _ Hpalt) as [pn Hpn].
    exists x, pa, pn. repeat (split; [done|]).
    by apply (inv_children _ _ _ Hs pa pn pp x a).
  - intros a nd x b Hnd Hch.
    assert (Halt : a < length paths).
    { rewrite Hlen. by eapply lookup_lt_Some. }
    destruct (lookup_lt_is_Some_2 _ _ Halt) as [p Hp].
    pose proof (proj1 (inv_children _ _ _ Hs a nd p x b Hnd Hp) Hch) as Hpb.
    assert (Hb0 : 0 < b).
    { destruct b; [|lia]. rewrite Hp0 in Hpb. injection Hpb as Hpb. by destruct p. }
    assert (Hblt : b < length (heap t)).
    { rewrite <- Hlen. by eapply lookup_lt_Some. }
    destruct (lookup_lt_is_Some_2 _ _ Hblt) as [nb Hnb].
    destruct (inv_node _ _ _ Hs b nb Hb0 Hnb)
      as (x' & pa & pp & Hi & Hpar & _ & Hpp & Hpb').
    rewrite Hpb in Hpb'. injection Hpb' as Heq. apply app_inj_tail in Heq as [-> ->].
    exists nb. split; [done|]. split; [done|]. rewrite Hpar. f_equal.
    by apply (NoDup_lookup paths pa a pp (inv_nodup _ _ _ Hs)).
Qed.

(** X5: in the tree that is built, the header chain of an item ends, and
    it visits every node of the item exactly once and no other node. *)
Theorem new_FPTree_chains (transactions : list (list string)) (min_support : nat) :
  ∃ t, new_FPTree transactions min_support = Some t ∧
    ∀ x, ∃ l, chain (heap t) (dict_get x (header t)) l ∧ NoDup l ∧
              ∀ a, a ∈ l ↔ ∃ nd, heap t !! a = Some nd ∧ item nd = Some x.
Proof.
  destruct (new_FPTree_inv transactions min_support) as (t & paths & Ht & _ & _ & Hc).
  exists t. split; [done|]. intros x.
  destruct (inv_chain _ _ _ Hc x) as (l & Hl & Hnd & Hmem & _). by exists l.
Qed.

(** ** Rounding is monotone *)

Lemma round_half_even_mono (q q' : Q) :
  (q <= q')%Q → (round_half_even q ≤ round_half_even q')%Z.
Proof.
  intros Hq. unfold round_half_even.
  pose proof (Qfloor_resp_le q q' Hq) as Hf.
  destruct (Qcompare_spec (q - inject_Z (Qfloor q)) (1 # 2)) as [Hc|Hc|Hc];
    destruct (Qcompare_spec (q' - inject_Z (Qfloor q')) (1 # 2)) as [Hc'|Hc'|Hc'];
    try (destruct (Z.even (Qfloor q)) eqn:He);
    try (destruct (Z.even (Qfloor q')) eqn:He');
    try lia;
    (destruct (decide (Qfloor q = Qfloor q')) as [Heq|Hne]; [|lia]);
    exfalso; rewrite <- ?Heq in *; try congruence; lra.
Qed.

Lemma py_round_mono (x y : Q) (ndigits : nat) :
  (x <= y)%Q → (py_round x ndigits <= py_round y ndigits)%Q.
Proof.
  intros Hx. unfold py_round. rewrite !Qred_correct.
  set (scale := (10 ^ Z.of_nat ndigits)%Z).
  assert (Hpos : (0 < scale)%Z) by (apply Z.pow_pos_nonneg; lia).
  assert (Hr : (round_half_even (x * inject_Z scale)
                ≤ round_half_even (y * inject_Z scale))%Z).
  { apply round_half_even_mono. apply Qmult_le_compat_r; [done|].
    change 0%Q with (inject_Z 0). rewrite <- Zle_Qle. lia. }
  unfold Qle. cbn [Qnum Qden]. nia.
Qed.

Lemma py_round_0 (ndigits : nat) : (py_round 0 ndigits == 0)%Q.
Proof.
  unfold py_round. rewrite Qred_correct.
  assert (H0 : round_half_even (0 * inject_Z (10 ^ Z.of_nat ndigits)) = 0%Z).
  { unfold round_half_even.
    assert (He : (0 * inject_Z (10 ^ Z.of_nat ndigits) == 0)%Q) by lra.
    rewrite (Qfloor_comp _ _ He).
    assert (Hlt : (0 * inject_Z (10 ^ Z.of_nat ndigits) - inject_Z (Qfloor 0)
                   ?= 1 # 2)%Q = Lt).
    { apply Qlt_alt. rewrite He. reflexivity. }
    rewrite Hlt. reflexivity. }
  rewrite H0. reflexivity.
Qed.

Lemma py_round_nonneg (x : Q) (ndigits : nat) :
  (0 <= x)%Q → (0 <= py_round x ndigits)%Q.
Proof. intros Hx. rewrite <- (py_round_0 ndigits). by apply py_round_mono. Qed.

(** ** The size of the mined itemsets *)

Lemma mine_conditional_nonempty R m itemset cts sub e :
  (∀ tc ni r, R tc ni = Some r → ∀ e, e ∈ r → e.1 ≠ ∅) →
  mine_conditional R m itemset cts = Some sub → e ∈ sub → e.1 ≠ ∅.
Proof.
  intros HR. unfold mine_conditional. destruct cts as [|tr cts].
  { intros [= <-] ?%elem_of_nil. done. }
  destruct (new_FPTree (tr :: cts) m) as [tc|]; [|done]. simpl.
  destruct (is_empty tc) as [[|]|]; simpl; [|by eauto|done].
  intros [= <-] ?%elem_of_nil. done.
Qed.

Lemma fpgrowth_mine_nonempty fuel : ∀ t m prefix raw,
  fpgrowth_mine fuel t m prefix = Some raw → ∀ e, e ∈ raw → e.1 ≠ ∅.
Proof.
  induction fuel as [|fuel IH]; intros t m prefix raw Hraw e He; [discriminate Hraw|].
  change (fpgrowth_mine (S fuel) t m prefix) with
    (for_extend (mine_item (λ ct ni, fpgrowth_mine fuel ct m ni) t m prefix)
       (header_order t)) in Hraw.
  apply (for_extend_elem_of _ _ _ e Hraw) in He as (entry & rx & _ & Hrx & He).
  apply mine_item_Some in Hrx as (s & _ & [[_ ->]|(_ & cpb & sub & _ & Hsub & ->)]).
  { by apply elem_of_nil in He. }
  apply elem_of_cons in He as [->|He].
  - simpl. intros Hempty.
    assert (Hin : entry.1 ∈ prefix ∪ {[entry.1]})
      by (apply elem_of_union; right; by apply elem_of_singleton).
    rewrite Hempty in Hin. by apply elem_of_empty in Hin.
  - eapply mine_conditional_nonempty; [|exact Hsub|exact He].
    intros tc ni r Hr. exact (IH tc m ni r Hr).
Qed.

(** X6: whatever the baskets, every itemset that [fpgrowth] returns has at
    least one and at most [max_len] items; with [max_len] below 1 the result
    is empty. *)
Theorem fpgrowth_sizes (transactions : list (list string)) (min_support : Q)
    (max_len : Z) :
  ∃ result,
    fpgrowth transactions min_support max_len = Some result ∧
    (∀ fi, fi ∈ result →
       1 ≤ size (itemsets fi) ∧ (Z.of_nat (size (itemsets fi)) ≤ max_len)%Z) ∧
    ((max_len < 1)%Z → result = []).
Proof.
  destruct (fpgrowth_returns transactions min_support max_len)
    as (t & raw & Ht & Hraw & Hres).
  eexists. split; [exact Hres|].
  assert (Hsize : ∀ fi, fi ∈ omap (result_entry (length transactions) max_len) raw →
    1 ≤ size (itemsets fi) ∧ (Z.of_nat (size (itemsets fi)) ≤ max_len)%Z).
  { intros fi ([S c] & Hin & He)%list_elem_of_omap.
    pose proof (fpgrowth_mine_nonempty _ _ _ _ _ Hraw _ Hin) as Hne. simpl in Hne.
    unfold result_entry in He. simpl in He.
    destruct (Z.of_nat (size S) <=? max_len)%Z eqn:Hl; [|done].
    injection He as <-. simpl. apply Z.leb_le in Hl. split; [|done].
    destruct (decide (size S = 0)) as [Hz|]; [|lia].
    by apply size_empty_iff, leibniz_equiv in Hz. }
  split; [exact Hsize|]. intros Hml.
  destruct (omap _ raw) as [|fi l]; [done|].
  destruct (Hsize fi) as [H1 H2]; [by left|]. lia.
Qed.

(** ** Mined itemsets and rule generation *)

Lemma fpgrowth_result_spec (transactions : list (list string)) (min_support : Q)
    (max_len : Z) (result : list FrequentItemset) :
  Forall NoDup transactions →
  fpgrowth transactions min_support max_len = Some result →
  let n := length transactions in
  NoDup (itemsets <$> result) ∧
  ∀ fi, fi ∈ result ↔
    itemsets fi ≠ ∅ ∧ (Z.of_nat (size (itemsets fi)) ≤ max_len)%Z ∧
    min_count_of min_support n ≤ support_count transactions (itemsets fi) ∧
    support fi
    = py_round (inject_Z (Z.of_nat (support_count transactions (itemsets fi)))
                / inject_Z (Z.of_nat n)) 6.
Proof.
  intros Hnd Hres n. set (m := min_count_of min_support n).
  destruct (fpgrowth_returns transactions min_support max_len)
    as (t & raw & Ht & Hraw & Hres').
  destruct (fpgrowth_mine_frequent (recursion_depth transactions) transactions m ∅ t)
    as (raw0 & Hraw0 & Hnd0 & Hmem); [apply min_count_of_pos|done| | |done|].
  { unfold recursion_depth. lia. }
  { intros tr Htr. apply recursion_depth_bound in Htr. unfold recursion_depth. lia. }
  rewrite with_prefix_empty in Hraw0.
  assert (raw = raw0) as -> by (unfold m, n in Hraw0; congruence).
  assert (result = omap (result_entry (length transactions) max_len) raw0) as ->
    by congruence.
  split.
  { eapply sublist_NoDup; [exact Hnd0|apply result_entry_itemsets]. }
  intros fi. rewrite list_elem_of_omap. split.
  - intros ([S c] & Hin & He). apply Hmem in Hin as (HS & -> & Hc).
    unfold result_entry in He. simpl in He.
    destruct (Z.of_nat (size S) <=? max_len)%Z eqn:Hl; [|done].
    injection He as <-. simpl. apply Z.leb_le in Hl. done.
  - intros (HS & Hl & Hc & Hsupp).
    exists (itemsets fi, support_count transactions (itemsets fi)). split.
    + by apply Hmem.
    + unfold result_entry. simpl. rewrite (proj2 (Z.leb_le _ _) Hl).
      fold n. rewrite <- Hsupp. by destruct fi.
Qed.

Lemma support_fraction_mono (c c' n : nat) :
  c ≤ c' →
  (py_round (inject_Z (Z.of_nat c) / inject_Z (Z.of_nat n)) 6
   <= py_round (inject_Z (Z.of_nat c') / inject_Z (Z.of_nat n)) 6)%Q.
Proof.
  intros Hc. apply py_round_mono. unfold Qdiv. apply Qmult_le_compat_r.
  - rewrite <- Zle_Qle. lia.
  - apply Qinv_le_0_compat. change 0%Q with (inject_Z 0). rewrite <- Zle_Qle. lia.
Qed.

(** A non-empty subset of a returned itemset is returned, with its own
    support, which is at least as large. *)
Lemma fpgrowth_subset (transactions : list (list string)) (min_support : Q)
    (max_len : Z) (result : list FrequentItemset) (fi : FrequentItemset)
    (S : gset string) :
  Forall NoDup transactions →
  fpgrowth transactions min_support max_len = Some result →
  fi ∈ result → S ≠ ∅ → S ⊆ itemsets fi →
  let s := py_round (inject_Z (Z.of_nat (support_count transactions S))
                     / inject_Z (Z.of_nat (length transactions))) 6 in
  mkFrequentItemset s S ∈ result ∧ (support fi <= s)%Q.
Proof.
  intros Hnd Hres Hfi HS Hsub s.
  destruct (fpgrowth_result_spec _ _ _ _ Hnd Hres) as [_ Hmem].
  apply Hmem in Hfi as (_ & Hl & Hc & Hsupp).
  pose proof (support_count_mono transactions S (itemsets fi) Hsub) as Hmono.
  split.
  - apply Hmem. simpl. split; [done|]. split; [|split; [lia|done]].
    pose proof (subseteq_size S (itemsets fi) Hsub). lia.
  - unfold s. rewrite Hsupp. by apply support_fraction_mono.
Qed.

(** X7: on baskets without duplicates the itemsets that [fpgrowth] returns
    are closed under non-empty subsets, and a subset has at least the
    support of the itemset. *)
Theorem fpgrowth_downward_closed (transactions : list (list string))
    (min_support : Q) (max_len : Z) (result : list FrequentItemset)
    (fi : FrequentItemset) (S : gset string) :
  Forall NoDup transactions →
  fpgrowth transactions min_support max_len = Some result →
  fi ∈ result → S ≠ ∅ → S ⊆ itemsets fi →
  ∃ fi', fi' ∈ result ∧ itemsets fi' = S ∧ (support fi <= support fi')%Q.
Proof.
  intros Hnd Hres Hfi HS Hsub.
  destruct (fpgrowth_subset _ _ _ _ _ _ Hnd Hres Hfi HS Hsub) as [Hin Hle].
  eexists. split; [exact Hin|]. split; [done|exact Hle].
Qed.

(** The pair [{a, b}] of three baskets and its subset [{b}]. *)
Lemma fpgrowth_downward_closed_witness :
  ∃ result fi',
    fpgrowth [["a"; "b"]; ["b"; "c"]; ["a"; "b"; "c"]] (1 # 2) 4 = Some result ∧
    fi' ∈ result ∧ itemsets fi' = {["b"]} ∧ (666667 # 1000000 <= support fi')%Q.
Proof.
  destruct (fpgrowth [["a"; "b"]; ["b"; "c"]; ["a"; "b"; "c"]] (1 # 2) 4)
    as [result|] eqn:Hres; [|by vm_compute in Hres].
  exists result.
  destruct (fpgrowth_downward_closed
              [["a"; "b"]; ["b"; "c"]; ["a"; "b"; "c"]] (1 # 2) 4 result
              (mkFrequentItemset (666667 # 1000000) ({["a"]} ∪ {["b"]})) {["b"]})
    as (fi' & Hin & Hitems & Hle).
  - refine (bool_decide_unpack _ _). vm_compute. exact I.
  - exact Hres.
  - vm_compute in Hres. injection Hres as <-.
    apply list_elem_of_In. vm_compute. tauto.
  - refine (bool_decide_unpack _ _). vm_compute. exact I.
  - refine (bool_decide_unpack _ _). vm_compute. exact I.
  - exists fi'. split; [reflexivity|]. split; [exact Hin|]. split; [exact Hitems|exact Hle].
Defined.

(** The support lookup of [association_rules]. *)
Lemma build_support_map_fold (fis : list FrequentItemset) :
  ∀ (acc : gmap (gset string) Q) (S : gset string),
  S ∉ itemsets <$> fis →
  foldl (λ m fs, <[itemsets fs := support fs]> m) acc fis !! S = acc !! S.
Proof.
  induction fis as [|f fis IH]; intros acc S HS; [done|]. simpl.
  rewrite IH.
  - apply lookup_insert_ne. intros Heq. apply HS. rewrite fmap_cons, Heq. by left.
  - intros Hin. apply HS. rewrite fmap_cons. by right.
Qed.

Lemma build_support_map_lookup (fis : list FrequentItemset) (fi : FrequentItemset) :
  NoDup (itemsets <$> fis) → fi ∈ fis →
  build_support_map fis !! itemsets fi = Some (support fi).
Proof.
  unfold build_support_map. generalize (∅ : gmap (gset string) Q).
  induction fis as [|f fis IH]; intros acc Hnd Hin; [by apply elem_of_nil in Hin|].
  rewrite fmap_cons in Hnd. apply NoDup_cons in Hnd as [Hf Hnd]. simpl.
  apply elem_of_cons in Hin as [->|Hin].
  - rewrite build_support_map_fold by done. apply lookup_insert_eq.
  - by apply IH.
Qed.

(** The two sides of a candidate split of a mined itemset are mined. *)
Lemma mined_split_lookup (transactions : list (list string)) (min_support : Q)
    (max_len : Z) (result : list FrequentItemset) (fs : FrequentItemset)
    (tuple : list string) :
  Forall NoDup transactions →
  fpgrowth transactions min_support max_len = Some result →
  fs ∈ result → tuple ∈ splits (itemsets fs) →
  ∃ a c,
    build_support_map result !! (list_to_set tuple : gset string) = Some a ∧
    build_support_map result !! (itemsets fs ∖ list_to_set tuple) = Some c ∧
    (support fs <= a)%Q ∧ (support fs <= c)%Q.
Proof.
  intros Hnd Hres Hfs Ht.
  destruct (fpgrowth_result_spec _ _ _ _ Hnd Hres) as [Hndr _].
  apply splits_spec in Ht as (Hndt & Hin & Hlen1 & Hlen2).
  assert (Hsub : (list_to_set tuple : gset string) ⊆ itemsets fs).
  { intros x Hx%elem_of_list_to_set. by apply Hin. }
  assert (Hsize : size (list_to_set tuple : gset string) = length tuple)
    by by apply size_list_to_set.
  assert (Ha : (list_to_set tuple : gset string) ≠ ∅).
  { intros He. rewrite He, size_empty in Hsize. lia. }
  assert (Hc : itemsets fs ∖ list_to_set tuple ≠ ∅).
  { intros He. apply (f_equal size) in He. rewrite size_empty in He.
    rewrite size_difference in He by done. lia. }
  destruct (fpgrowth_subset _ _ _ _ _ _ Hnd Hres Hfs Ha Hsub) as [Hina Hlea].
  destruct (fpgrowth_subset _ _ _ _ fs (itemsets fs ∖ list_to_set tuple) Hnd Hres Hfs Hc)
    as [Hinc Hlec]; [apply subseteq_difference_l; done|].
  eexists _, _.
  split; [exact (build_support_map_lookup result _ Hndr Hina)|].
  split; [exact (build_support_map_lookup result _ Hndr Hinc)|]. done.
Qed.

(** X8: rule generation on the itemsets mined from baskets without
    duplicates never misses a lookup: for every candidate split of a
    returned itemset, the antecedent and the consequent are keys of the
    support lookup, with supports at least that of the itemset. *)
Theorem association_rules_lookup_hits (transactions : list (list string))
    (min_support : Q) (max_len : Z) (result : list FrequentItemset)
    (fs : FrequentItemset) (tuple : list string) :
  Forall NoDup transactions →
  fpgrowth transactions min_support max_len = Some result →
  fs ∈ result → tuple ∈ splits (itemsets fs) →
  ∃ a c,
    build_support_map result !! (list_to_set tuple : gset string) = Some a ∧
    build_support_map result !! (itemsets fs ∖ list_to_set tuple) = Some c ∧
    (support fs <= a)%Q ∧ (support fs <= c)%Q.
Proof. apply mined_split_lookup. Qed.

(** The split [{a} -> {b}] of the pair [{a, b}] of three baskets. *)
Lemma association_rules_lookup_hits_witness :
  ∃ result a c,
    fpgrowth [["a"; "b"]; ["b"; "c"]; ["a"; "b"; "c"]] (1 # 2) 4 = Some result ∧
    build_support_map result !! (list_to_set ["a"] : gset string) = Some a ∧
    build_support_map result !! (({["a"]} ∪ {["b"]}) ∖ list_to_set ["a"] : gset string)
    = Some c.
Proof.
  destruct (fpgrowth [["a"; "b"]; ["b"; "c"]; ["a"; "b"; "c"]] (1 # 2) 4)
    as [result|] eqn:Hres; [|by vm_compute in Hres].
  exists result.
  destruct (association_rules_lookup_hits
              [["a"; "b"]; ["b"; "c"]; ["a"; "b"; "c"]] (1 # 2) 4 result
              (mkFrequentItemset (666667 # 1000000) ({["a"]} ∪ {["b"]})) ["a"])
    as (a & c & Ha & Hc & _).
  - refine (bool_decide_unpack _ _). vm_compute. exact I.
  - exact Hres.
  - vm_compute in Hres. injection Hres as <-.
    apply list_elem_of_In. vm_compute. tauto.
  - apply list_elem_of_In. vm_compute. tauto.
  - exists a, c. split; [reflexivity|]. split; [exact Ha|exact Hc].
Defined.

(** The support and the confidence that a split stores in its rule. *)
Lemma rule_of_split_metrics (sm : gmap (gset string) Q) (metric : string) (thr : Q)
    (fs : FrequentItemset) (tuple : list string) (r : Rule) :
  rule_of_split sm metric thr fs tuple = Some r →
  r_support r = py_round (support fs) 6 ∧
  confidence r
  = py_round (support fs / default 0%Q (sm !! (list_to_set tuple : gset string))) 6.
Proof.
  unfold rule_of_split. intros H.
  destruct (Qeq_bool (default 0%Q (sm !! list_to_set tuple)) 0 ||
            Qeq_bool (default 0%Q (sm !! (itemsets fs ∖ list_to_set tuple))) 0);
    [done|].
  match type of H with (if ?b then _ else _) = _ => destruct b; [|done] end.
  by injection H as <-.
Qed.

Lemma support_count_le ts S : support_count ts S ≤ length ts.
Proof. apply length_filter. Qed.

(** X9: the rules generated from the itemsets mined from baskets without
    duplicates have a support and a confidence between 0 and 1. *)
Theorem mined_rules_bounds (transactions : list (list string)) (min_support : Q)
    (max_len : Z) (result : list FrequentItemset) (metric : string) (thr : Q)
    (r : Rule) :
  Forall NoDup transactions →
  fpgrowth transactions min_support max_len = Some result →
  r ∈ association_rules result metric thr →
  (0 <= r_support r <= 1)%Q ∧ (0 <= confidence r <= 1)%Q.
Proof.
  intros Hnd Hres (fs & tuple & Hfs & _ & Ht & Hr)%elem_of_association_rules.
  destruct (mined_split_lookup _ _ _ _ _ _ Hnd Hres Hfs Ht) as (a & c & Ha & _ & Hlea & _).
  destruct (rule_of_split_metrics _ _ _ _ _ _ Hr) as [-> ->].
  apply rule_of_split_Some in Hr as (Hane & _).
  rewrite Ha in Hane |- *. simpl in Hane |- *.
  destruct (fpgrowth_result_spec _ _ _ _ Hnd Hres) as [_ Hmem].
  apply Hmem in Hfs as (_ & _ & _ & Hsupp).
  pose proof (support_count_le transactions (itemsets fs)) as Hcn.
  set (cnt := support_count transactions (itemsets fs)) in *.
  set (n := length transactions) in *. clearbody cnt n. clear Hmem.
  assert (Hfrac : (0 <= inject_Z (Z.of_nat cnt) / inject_Z (Z.of_nat n) <= 1)%Q).
  { destruct (decide (n = 0)) as [Hn|Hn].
    - assert (Hc0 : cnt = 0) by lia. rewrite Hc0, Hn. split; by vm_compute.
    - assert (Hpos : (0 < inject_Z (Z.of_nat n))%Q).
      { change 0%Q with (inject_Z 0). rewrite <- Zlt_Qlt. lia. }
      split.
      + apply Qle_shift_div_l; [done|]. rewrite Qmult_0_l.
        change 0%Q with (inject_Z 0). rewrite <- Zle_Qle. lia.
      + apply Qle_shift_div_r; [done|]. rewrite Qmult_1_l. rewrite <- Zle_Qle. lia. }
  assert (Hs : (0 <= support fs <= 1)%Q).
  { destruct Hfrac as [Hf0 Hf1]. rewrite Hsupp. split; [by apply py_round_nonneg|].
    by apply (py_round_le _ 6 1). }
  assert (Hapos : (0 < a)%Q) by lra.
  destruct Hs as [Hs0 Hs1]. change 1%Q with (inject_Z 1) in Hs1.
  split; (split; [apply py_round_nonneg|apply (py_round_le _ 6 1)]).
  - done.
  - done.
  - apply Qle_shift_div_l; [done|]. lra.
  - apply Qle_shift_div_r; [done|]. change (inject_Z 1) with 1%Q in *. lra.
Qed.

(** The rules of the pair [{a, b}] of three baskets. *)
Lemma mined_rules_bounds_witness :
  ∃ result r,
    fpgrowth [["a"; "b"]; ["b"; "c"]; ["a"; "b"; "c"]] (1 # 2) 4 = Some result ∧
    r ∈ association_rules result "confidence" (4 # 10) ∧
    (0 <= confidence r <= 1)%Q.
Proof.
  destruct (fpgrowth [["a"; "b"]; ["b"; "c"]; ["a"; "b"; "c"]] (1 # 2) 4)
    as [result|] eqn:Hres; [|by vm_compute in Hres].
  destruct (association_rules result "confidence" (4 # 10)) as [|r rules] eqn:Hrules.
  { vm_compute in Hres. injection Hres as <-. by vm_compute in Hrules. }
  exists result, r.
  destruct (mined_rules_bounds [["a"; "b"]; ["b"; "c"]; ["a"; "b"; "c"]] (1 # 2) 4
              result "confidence" (4 # 10) r) as [_ H].
  - refine (bool_decide_unpack _ _). vm_compute. exact I.
  - exact Hres.
  - rewrite Hrules. by left.
  - split; [reflexivity|]. split; [rewrite Hrules; by left|exact H].
Defined.

(** ** The order of the rules and of the recommendations *)

Lemma StronglySorted_sublist {A : Type} (R : A → A → Prop) (l k : list A) :
  sublist l k → StronglySorted R k → StronglySorted R l.
Proof.
  induction 1 as [|x l k Hsub IH|x l k Hsub IH]; intros Hk; [done|..].
  - apply StronglySorted_cons in Hk as [Hall Hk]. constructor; [by apply IH|].
    apply Forall_forall. intros y Hy. apply (proj1 (Forall_forall _ _) Hall).
    by eapply elem_of_sublist.
  - apply StronglySorted_cons in Hk as [_ Hk]. by apply IH.
Qed.

(** X10: the rules that [association_rules] returns are sorted by lift,
    largest first. *)
Theorem association_rules_sorted (fis : list FrequentItemset) (metric : string)
    (thr : Q) :
  StronglySorted (λ a b, (lift b <= lift a)%Q) (association_rules fis metric thr).
Proof.
  unfold association_rules, sort_by_lift.
  generalize (flat_map (rules_of_itemset (build_support_map fis) metric thr) fis).
  intros l.
  assert (H : StronglySorted (λ a b, Qle_bool (lift b) (lift a) = true)
                (sorted (λ a b, Qle_bool (lift b) (lift a)) l)).
  { apply sorted_sorted.
    - intros a b Hab. apply Qle_bool_iff.
      destruct (Qlt_le_dec (lift a) (lift b)) as [Hlt|Hle]; [by apply Qlt_le_weak|].
      apply Qle_bool_iff in Hle. congruence.
    - intros a b c Hab%Qle_bool_iff Hbc%Qle_bool_iff. apply Qle_bool_iff.
      by eapply Qle_trans. }
  induction H as [|x s Hs IH Hx]; constructor; [done|].
  eapply Forall_impl; [exact Hx|]. intros y Hy. by apply Qle_bool_iff.
Qed.

Lemma drop_duplicates_sublist (seen : list string) (l : list Recommendation) :
  sublist (drop_duplicates seen l) l.
Proof.
  revert seen. induction l as [|r l IH]; intros seen; simpl; [done|].
  destruct (bool_decide (product r ∈ seen)).
  - by apply sublist_cons.
  - by apply sublist_skip.
Qed.

Lemma length_head {A : Type} (n : Z) (l : list A) :
  (0 ≤ n)%Z → length (head n l) ≤ Z.to_nat n.
Proof.
  intros Hn. unfold head. rewrite (proj2 (Z.leb_le _ _) Hn), length_take. lia.
Qed.

Section matcher_rows.
Context (normalize : string → string).
Context (sort_values : list Recommendation → list Recommendation).
Hypothesis sort_values_perm : ∀ l, sort_values l ≡ₚ l.
Hypothesis sort_values_sorted :
  ∀ l, StronglySorted (λ a b, (rec_lift b <= rec_lift a)%Q) (sort_values l).

(** X11: [recommend] returns at most [top_n] rows when [top_n] is not
    negative; the rows are sorted by lift, largest first; and every row is
    the row of one rule that fires, passes the live filters and proposes the
    item of the row: confidence, lift and support of the rule rounded to
    four places, and the sorted antecedent joined by a comma as trace. *)
Theorem recommend_rows (rules : option (list Rule)) (input_items : list string)
    (top_n : Z) (minc minl : Q) :
  let input_set : gset string := list_to_set (normalize <$> input_items) in
  let out := rows (recommend normalize sort_values rules input_items top_n minc minl) in
  ((0 ≤ top_n)%Z → length out ≤ Z.to_nat top_n) ∧
  StronglySorted (λ a b, (rec_lift b <= rec_lift a)%Q) out ∧
  ∀ rec, rec ∈ out →
    ∃ rl rule, rules = Some rl ∧ rule ∈ rl ∧
      contributes input_set minc minl rule (product rec) ∧
      rec = candidate_row rule (product rec).
Proof.
  intros input_set out. unfold out, recommend. fold input_set.
  destruct rules as [[|rule0 rl]|].
  - split; [simpl; lia|]. split; [constructor|]. by intros rec ?%elem_of_nil.
  - set (rs := rule0 :: rl).
    destruct (flat_map (candidates_of_rule input_set minc minl) rs) as [|c cs] eqn:Hc.
    { split; [simpl; lia|]. split; [constructor|]. by intros rec ?%elem_of_nil. }
    rewrite <- Hc. simpl rows.
    split; [intros Hn; by apply length_head|]. split.
    + eapply StronglySorted_sublist; [apply head_sublist|].
      eapply StronglySorted_sublist; [apply drop_duplicates_sublist|].
      apply sort_values_sorted.
    + intros rec Hrec.
      assert (Hin : rec ∈ flat_map (candidates_of_rule input_set minc minl) rs).
      { rewrite <- (sort_values_perm _).
        eapply elem_of_sublist; [|apply drop_duplicates_sublist].
        eapply elem_of_sublist; [exact Hrec|apply head_sublist]. }
      apply list_elem_of_In, in_flat_map in Hin as (rule & Hrule%list_elem_of_In
                                                   & Hcand%list_elem_of_In).
      apply elem_of_candidates_of_rule in Hcand as (p & Hp & ->).
      exists rs, rule. split; [done|]. split; [done|]. by split.
  - split; [simpl; lia|]. split; [constructor|]. by intros rec ?%elem_of_nil.
Qed.
End matcher_rows.

(** The example rule and the basket [bread]. *)
Lemma recommend_rows_witness :
  length (rows (recommend strip_title sort_values_stable (Some example_rules)
                  ["bread"] 5 0 1)) ≤ 5.
Proof.
  destruct (recommend_rows strip_title sort_values_stable sort_values_stable_perm
              sort_values_stable_sorted (Some example_rules) ["bread"] 5 0 1)
    as [H _].
  apply H. lia.
Defined.

Lemma is_prefix_spec (q s : string) :
  is_prefix q s = true ↔ ∃ b, s = String.append q b.
Proof.
  revert s. induction q as [|c q IH]; intros s; simpl.
  - split; [|done]. intros _. by exists s.
  - destruct s as [|d s]; simpl.
    + split; [done|]. by intros (b & ?).
    + rewrite andb_true_iff, IH. split.
      * intros [->%Ascii.eqb_eq (b & ->)]. by exists b.
      * intros (b & [= -> ->]). split; [apply Ascii.eqb_refl|by exists b].
Qed.

Lemma is_substring_spec (q s : string) :
  is_substring q s = true ↔ ∃ a b, s = String.append a (String.append q b).
Proof.
  induction s as [|c s IH]; simpl; rewrite orb_true_iff, is_prefix_spec.
  - split.
    + intros [(b & Hb)|?]; [|done]. by exists "", b.
    + intros ([|? ?] & b & Hb); [|done]. left. by exists b.
  - rewrite IH. split.
    + intros [(b & Hb)|(a & b & ->)]; [by exists "", b|]. by exists (String c a), b.
    + intros ([|c' a] & b & Hb); [left; by exists b|].
      right. injection Hb as -> ->. by exists a, b.
Qed.

Lemma slice_to_sublist {A : Type} (k : Z) (l : list A) : sublist (slice_to k l) l.
Proof. unfold slice_to. destruct (0 <=? k)%Z; apply sublist_take. Qed.

(** X12: [search_items] returns items of the catalogue, in the order of the
    catalogue, each of which has the stripped and lower-cased query as a
    substring of its lower-cased name; at most [max_results] of them when
    [max_results] is not negative; and all the matching items when there are
    at most [max_results] of them.  Without a catalogue, or with an empty
    one, it returns the empty list. *)
Theorem search_items_spec (strip lower : string → string)
    (all_items : option (list string)) (query : string) (max_results : Z) :
  let q := lower (strip query) in
  let out := search_items strip lower all_items query max_results in
  sublist out (default [] all_items) ∧
  (∀ item, item ∈ out →
     ∃ a b, lower item = String.append a (String.append q b)) ∧
  ((0 ≤ max_results)%Z → length out ≤ Z.to_nat max_results) ∧
  (∀ items, all_items = Some items →
     (Z.of_nat (length (filter (λ item, is_substring q (lower item) = true) items))
      ≤ max_results)%Z →
     ∀ item a b, item ∈ items → lower item = String.append a (String.append q b) →
       item ∈ out) ∧
  (all_items = None ∨ all_items = Some [] → out = []).
Proof.
  intros q out. unfold out, search_items. fold q.
  destruct all_items as [[|it items]|]; simpl default.
  - split; [done|]. split; [by intros ? ?%elem_of_nil|]. split; [simpl; lia|].
    split; [|done]. intros items [= <-] _ item a b ?%elem_of_nil. done.
  - set (l := it :: items).
    set (matches := filter (λ item, is_substring q (lower item) = true) l).
    split; [|split; [|split; [|split]]].
    + etrans; [apply slice_to_sublist|apply sublist_filter].
    + intros item Hin.
      assert (Hm : item ∈ matches)
        by (eapply elem_of_sublist; [exact Hin|apply slice_to_sublist]).
      apply list_elem_of_filter in Hm as [Hm _]. by apply is_substring_spec.
    + intros Hk. unfold slice_to. rewrite (proj2 (Z.leb_le _ _) Hk), length_take. lia.
    + intros items' [= <-] Hlen item a b Hin Hlow.
      assert (Hm : item ∈ matches).
      { apply list_elem_of_filter. split; [|done].
        apply is_substring_spec. by exists a, b. }
      unfold slice_to. fold matches in Hlen.
      assert (Hk : (0 ≤ max_results)%Z) by lia.
      rewrite (proj2 (Z.leb_le _ _) Hk), take_ge; [done|lia].
    + by intros [?|?].
  - split; [done|]. split; [by intros ? ?%elem_of_nil|]. split; [simpl; lia|].
    split; [|done]. by intros items [=].
Qed.
